(** * Snake: the tick-driven game core of [snake/main.js]

    A shallow embedding of the simulation part of the browser game: the
    direction queue, the collision test, food placement by rejection
    sampling, the score and speed curve, the pause/resume toggle and the
    interval timer that drives [tick].

    Two versions of the script are covered.  The later one keeps a table of
    difficulty presets ([DIFFICULTIES]); the earlier one ([snake/main.js])
    has the same functions with one fixed preset, here [MAIN_JS].

    Conventions.
    - JavaScript numbers that only ever hold small integers (coordinates,
      score, milliseconds, timer handles) are [Z] or [positive].
    - [speedupFactor] is a binary64 value and [tickMs * speedupFactor] is an
      IEEE product, computed with the Standard Library's [SpecFloat].
    - [Math.random()] is a tape of binary64 values read at position
      [randomCalls]; [randomInt] computes on them in binary64.  The host's
      contract, a finite value with [0 <= r < 1], is [validTape].
    - The module-level [let] variables form the record [State]; the part of
      the browser the script talks to for timers and randomness is [Host].
    - Canvas drawing, overlay/panel text and [localStorage] writes do not
      feed back into the simulation and are left out.  The page markup is
      not part of the script: [reachable] lets events carry anything,
      [onPage] restricts d-pad clicks to the four direction buttons.
    - A [while (true)] loop runs on fuel: [Spins] is the outcome of a loop
      that has not returned within the fuel given; [Throws] is an uncaught
      [TypeError] (reading a property of [undefined]).
    - [DIFFICULTIES[key]] also finds the names every object inherits from
      [Object.prototype].  Such a key passes the test of
      [setDifficultyFromKey] and [difficulty] becomes that member, none of
      whose parameters is a number; [State] holds numbers there, so the
      outcome of such a handler is [OffPreset] and the game it leaves is not
      followed further. *)

From Stdlib Require Import ZArith List Bool String Ascii Lia.
From Stdlib Require Import Floats.SpecFloat.
Import ListNotations.
Local Open Scope Z_scope.

(** ** Numbers *)

Module Number.

Definition prec : Z := 53.
Definition emax : Z := 1024.

(** An integer as a binary64 value (exact in the range used here). *)
Definition ofInt (n : Z) : spec_float :=
  binary_normalize prec emax n 0 false.

(** The decimal literal [digits / scale], e.g. [0.94] is [literal 94 100]:
    the binary64 value nearest to the quotient. *)
Definition literal (digits scale : Z) : spec_float :=
  SFdiv prec emax (ofInt digits) (ofInt scale).

Definition mul (a b : spec_float) : spec_float := SFmul prec emax a b.

Definition add (a b : spec_float) : spec_float := SFadd prec emax a b.

Definition sub (a b : spec_float) : spec_float := SFsub prec emax a b.

(** What [Math.random()] may return: a finite value of positive sign,
    in canonical form, that is less than one. *)
Definition isRandom (r : spec_float) : bool :=
  match r with
  | S754_zero false => true
  | S754_finite false m e => bounded prec emax m e && SFltb r (ofInt 1)
  | _ => false
  end.

(** [Math.floor] of a finite value.  Infinities and NaN have no integer
    floor; they do not arise from the products taken in this program
    (see [floor_mul_exact]) and are sent to [0]. *)
Definition floor (v : spec_float) : Z :=
  match v with
  | S754_finite s m e =>
      let n := if s then Z.neg m else Z.pos m in
      match e with
      | Z.neg k => n / 2 ^ Z.pos k
      | _ => n * 2 ^ e
      end
  | S754_zero _ => 0
  | S754_infinity _ | S754_nan => 0
  end.

(** The integer held by a value that is an integer. *)
Definition toInt (v : spec_float) : Z := floor v.

End Number.

Module Math.

(** [Math.floor] as a function on numbers: a finite value goes to the
    integer below it, which binary64 holds exactly; zeros, infinities and
    NaN are returned as they are. *)
Definition floor (v : spec_float) : spec_float :=
  match v with
  | S754_finite _ _ _ => Number.ofInt (Number.floor v)
  | _ => v
  end.

End Math.

(** ** Constants *)

Definition GRID_SIZE : Z := 20.

Record Difficulty := mkDifficulty {
  label : string;
  initialSpeedMs : Z;
  speedupFoodInterval : Z;
  speedupFactor : spec_float;
  minTickMs : Z
}.

Definition DIFFICULTIES : list (string * Difficulty) :=
  [ ("easy"%string,
     mkDifficulty "Easy" 200 5 (Number.literal 94 100) 100);
    ("normal"%string,
     mkDifficulty "Normal" 160 4 (Number.literal 92 100) 75);
    ("hard"%string,
     mkDifficulty "Hard" 120 3 (Number.literal 90 100) 60);
    ("insane"%string,
     mkDifficulty "Insane" 90 2 (Number.literal 88 100) 45) ].

(** The constants of the earlier script: [INITIAL_SPEED_MS],
    [SPEEDUP_FOOD_INTERVAL], [SPEEDUP_FACTOR] and the literal [60] in its
    [maybeSpeedUp]. *)
Definition MAIN_JS : Difficulty :=
  mkDifficulty EmptyString 160 4 (Number.literal 92 100) 60.

Definition NORMAL : Difficulty :=
  mkDifficulty "Normal" 160 4 (Number.literal 92 100) 75.

(** The property names of [Object.prototype], which the object literal
    [DIFFICULTIES] inherits (ECMAScript, sections 20.1.3 and B.2.2). *)
Definition OBJECT_PROTOTYPE : list string :=
  [ "constructor"%string; "hasOwnProperty"%string; "isPrototypeOf"%string;
    "propertyIsEnumerable"%string; "toLocaleString"%string;
    "toString"%string; "valueOf"%string; "__proto__"%string;
    "__defineGetter__"%string; "__defineSetter__"%string;
    "__lookupGetter__"%string; "__lookupSetter__"%string ].

(** What reading a property gives: the preset stored under an own key, a
    member of [Object.prototype] (a function, or the prototype itself for
    [__proto__]: truthy, and without any of the preset's fields), or
    [undefined]. *)
Inductive Property :=
| Own (d : Difficulty)
| Inherited
| Undefined.

Fixpoint ownProperty (table : list (string * Difficulty)) (key : string)
  : option Difficulty :=
  match table with
  | [] => None
  | (k, d) :: rest => if String.eqb k key then Some d else ownProperty rest key
  end.

(** The property read [DIFFICULTIES[key]]: own keys first, then the
    prototype. *)
Definition lookupDifficulty (table : list (string * Difficulty)) (key : string)
  : Property :=
  match ownProperty table key with
  | Some d => Own d
  | None =>
      if existsb (String.eqb key) OBJECT_PROTOTYPE then Inherited else Undefined
  end.

(** ** State *)

Record Cell := mkCell { x : Z; y : Z }.

Record Host := mkHost {
  mathRandom : nat -> spec_float;     (* successive results of Math.random() *)
  randomCalls : nat;                  (* how many have been read *)
  intervals : list (positive * Z);    (* registered intervals: handle, period *)
  nextHandle : positive
}.

Record State := mkState {
  difficultyKey : string;
  difficulty : Difficulty;
  snake : list Cell;
  directionQueue : list Cell;
  food : Cell;
  score : Z;
  best : Z;
  tickMs : Z;
  loopId : option positive;
  isPaused : bool;
  isGameOver : bool;
  host : Host
}.

Inductive Outcome :=
| Done (s : State)
| Throws (s : State)
| Spins
| OffPreset.

Inductive Phase := Paused | Running | GameOver.

Definition phase (s : State) : Phase :=
  if isGameOver s then GameOver else if isPaused s then Paused else Running.

(** Assignments to single variables. *)
Definition set_difficultyKey v s :=
  mkState v (difficulty s) (snake s) (directionQueue s) (food s) (score s)
          (best s) (tickMs s) (loopId s) (isPaused s) (isGameOver s) (host s).
Definition set_difficulty v s :=
  mkState (difficultyKey s) v (snake s) (directionQueue s) (food s) (score s)
          (best s) (tickMs s) (loopId s) (isPaused s) (isGameOver s) (host s).
Definition set_snake v s :=
  mkState (difficultyKey s) (difficulty s) v (directionQueue s) (food s) (score s)
          (best s) (tickMs s) (loopId s) (isPaused s) (isGameOver s) (host s).
Definition set_directionQueue v s :=
  mkState (difficultyKey s) (difficulty s) (snake s) v (food s) (score s)
          (best s) (tickMs s) (loopId s) (isPaused s) (isGameOver s) (host s).
Definition set_food v s :=
  mkState (difficultyKey s) (difficulty s) (snake s) (directionQueue s) v (score s)
          (best s) (tickMs s) (loopId s) (isPaused s) (isGameOver s) (host s).
Definition set_score v s :=
  mkState (difficultyKey s) (difficulty s) (snake s) (directionQueue s) (food s) v
          (best s) (tickMs s) (loopId s) (isPaused s) (isGameOver s) (host s).
Definition set_best v s :=
  mkState (difficultyKey s) (difficulty s) (snake s) (directionQueue s) (food s) (score s)
          v (tickMs s) (loopId s) (isPaused s) (isGameOver s) (host s).
Definition set_tickMs v s :=
  mkState (difficultyKey s) (difficulty s) (snake s) (directionQueue s) (food s) (score s)
          (best s) v (loopId s) (isPaused s) (isGameOver s) (host s).
Definition set_loopId v s :=
  mkState (difficultyKey s) (difficulty s) (snake s) (directionQueue s) (food s) (score s)
          (best s) (tickMs s) v (isPaused s) (isGameOver s) (host s).
Definition set_isPaused v s :=
  mkState (difficultyKey s) (difficulty s) (snake s) (directionQueue s) (food s) (score s)
          (best s) (tickMs s) (loopId s) v (isGameOver s) (host s).
Definition set_isGameOver v s :=
  mkState (difficultyKey s) (difficulty s) (snake s) (directionQueue s) (food s) (score s)
          (best s) (tickMs s) (loopId s) (isPaused s) v (host s).
Definition set_host v s :=
  mkState (difficultyKey s) (difficulty s) (snake s) (directionQueue s) (food s) (score s)
          (best s) (tickMs s) (loopId s) (isPaused s) (isGameOver s) v.

(** ** Host: timers *)

Definition setInterval (period : Z) (h : Host) : positive * Host :=
  (nextHandle h,
   mkHost (mathRandom h) (randomCalls h)
          ((nextHandle h, period) :: intervals h) (Pos.succ (nextHandle h))).

Definition clearInterval (handle : positive) (h : Host) : Host :=
  mkHost (mathRandom h) (randomCalls h)
         (filter (fun reg => negb (Pos.eqb (fst reg) handle)) (intervals h))
         (nextHandle h).

(** ** Utilities *)

(** [Math.floor(Math.random() * (maxExclusive - min)) + min], on the value
    [r] that [Math.random()] returned: difference, product and sum are
    binary64 operations.  The arguments are integer literals. *)
Definition randomInt (r : spec_float) (min maxExclusive : Z) : spec_float :=
  Number.add
    (Math.floor
       (Number.mul r (Number.sub (Number.ofInt maxExclusive) (Number.ofInt min))))
    (Number.ofInt min).

Definition positionsEqual (a b : Cell) : bool :=
  (x a =? x b) && (y a =? y b).

(** The candidate cell drawn by one pass of the loop, from two successive
    reads of the tape starting at [n].  Coordinates are kept as integers:
    on a value that [Math.random()] may return, [randomInt(0, GRID_SIZE)]
    is an integer of the grid (see [randomInt_grid]). *)
Definition drawCell (h : Host) (n : nat) : Cell :=
  mkCell (Number.toInt (randomInt (mathRandom h n) 0 GRID_SIZE))
         (Number.toInt (randomInt (mathRandom h (S n)) 0 GRID_SIZE)).

Definition advanceRandom (n : nat) (h : Host) : Host :=
  mkHost (mathRandom h) n (intervals h) (nextHandle h).

Fixpoint getRandomEmptyCell (fuel : nat) (exclusions : list Cell) (h : Host)
  : option (Cell * Host) :=
  match fuel with
  | O => None
  | S fuel' =>
      let pos := drawCell h (randomCalls h) in
      let h' := advanceRandom (S (S (randomCalls h))) h in
      if negb (existsb (fun p => positionsEqual p pos) exclusions)
      then Some (pos, h')
      else getRandomEmptyCell fuel' exclusions h'
  end.

(** [None]: the key names a member of [Object.prototype]; the script keeps
    it and goes on with that member as [difficulty]. *)
Definition setDifficultyFromKey (key : string) (s : State) : option State :=
  let key' := match lookupDifficulty DIFFICULTIES key with
              | Undefined => "normal"%string
              | _ => key
              end in
  match lookupDifficulty DIFFICULTIES key' with
  | Own d => Some (set_difficulty d (set_difficultyKey key' s))
  | _ => None
  end.

(** ** Clock *)

Definition startLoop (s : State) : State :=
  let h1 := match loopId s with
            | Some id => clearInterval id (host s)
            | None => host s
            end in
  let (id, h2) := setInterval (tickMs s) h1 in
  set_loopId (Some id) (set_host h2 s).

Definition stopLoop (s : State) : State :=
  match loopId s with
  | Some id => set_loopId None (set_host (clearInterval id (host s)) s)
  | None => s
  end.

(** ** Score and speed *)

Definition updateScore (delta : Z) (s : State) : State :=
  let s1 := set_score (score s + delta) s in
  if best s1 <? score s1 then set_best (score s1) s1 else s1.

Definition maybeSpeedUp (s : State) : State :=
  let foodsEaten := score s in
  if (0 <? foodsEaten) && (Z.rem foodsEaten (speedupFoodInterval (difficulty s)) =? 0)
  then
    let newTick :=
      Z.max (minTickMs (difficulty s))
            (Number.floor (Number.mul (Number.ofInt (tickMs s))
                                      (speedupFactor (difficulty s)))) in
    if negb (newTick =? tickMs s)
    then startLoop (set_tickMs newTick s)
    else s
  else s.

(** ** Reset *)

Definition resetGame (fuel : nat) (s : State) : Outcome :=
  let start := mkCell (GRID_SIZE / 2) (GRID_SIZE / 2) in
  let s1 := set_snake [start; mkCell (x start - 1) (y start);
                       mkCell (x start - 2) (y start)] s in
  let s2 := set_directionQueue [mkCell 1 0] s1 in
  match getRandomEmptyCell fuel (snake s2) (host s2) with
  | None => Spins
  | Some (pos, h) =>
      let s3 := set_food pos (set_host h s2) in
      let s4 := set_score 0 s3 in
      let s5 := set_tickMs (initialSpeedMs (difficulty s4)) s4 in
      let s6 := set_isPaused false s5 in
      let s7 := set_isGameOver false s6 in
      Done (startLoop (updateScore 0 s7))
  end.

Definition restart (fuel : nat) (s : State) : Outcome := resetGame fuel s.

(** ** Input *)

Definition keyToDir (key : string) : option Cell :=
  if (key =? "arrowup")%string || (key =? "w")%string then Some (mkCell 0 (-1))
  else if (key =? "arrowdown")%string || (key =? "s")%string then Some (mkCell 0 1)
  else if (key =? "arrowleft")%string || (key =? "a")%string then Some (mkCell (-1) 0)
  else if (key =? "arrowright")%string || (key =? "d")%string then Some (mkCell 1 0)
  else None.

Definition dirStringToVector (s : string) : Cell :=
  if (s =? "up")%string then mkCell 0 (-1)
  else if (s =? "down")%string then mkCell 0 1
  else if (s =? "left")%string then mkCell (-1) 0
  else if (s =? "right")%string then mkCell 1 0
  else mkCell 0 0.

(** [directionQueue[directionQueue.length - 1]]: [undefined] on an empty
    array. *)
Definition lastQueuedOf (queue : list Cell) : option Cell :=
  match queue with
  | [] => None
  | _ :: _ => nth_error queue (List.length queue - 1)
  end.

Definition queueDirection (next : Cell) (s : State) : State :=
  match lastQueuedOf (directionQueue s) with
  | None => set_directionQueue (directionQueue s ++ [next]) s
  | Some lastQueued =>
      if (x lastQueued + x next =? 0) && (y lastQueued + y next =? 0)
      then s
      else set_directionQueue (directionQueue s ++ [next]) s
  end.

(** ** Pause and resume *)

Definition togglePause (s : State) : State :=
  if isGameOver s then s
  else
    let s1 := set_isPaused (negb (isPaused s)) s in
    if isPaused s1 then stopLoop s1 else startLoop s1.

Definition resume (s : State) : State :=
  if negb (isPaused s) || isGameOver s then s else togglePause s.

(** ** Tick *)

Definition gameOver (s : State) : State :=
  stopLoop (set_isGameOver true s).

(** The [for] loop over the body: [true] as soon as some [snake[i]] equals
    [nextHead]. *)
Fixpoint hitsBody (nextHead : Cell) (body : list Cell) : bool :=
  match body with
  | [] => false
  | c :: rest => if positionsEqual nextHead c then true else hitsBody nextHead rest
  end.

Definition tick (fuel : nat) (s : State) : Outcome :=
  if isPaused s || isGameOver s then Done s
  else
    let currentDir := nth_error (directionQueue s) 0 in
    let s1 := if (1 <? Z.of_nat (List.length (directionQueue s)))
              then set_directionQueue (tl (directionQueue s)) s
              else s in
    match nth_error (snake s1) 0, currentDir with
    | None, _ => Throws s1
    | Some _, None => Throws s1
    | Some head, Some currentDir =>
        let nextHead := mkCell (x head + x currentDir) (y head + y currentDir) in
        if (x nextHead <? 0) || (y nextHead <? 0)
           || (x nextHead >=? GRID_SIZE) || (y nextHead >=? GRID_SIZE)
        then Done (gameOver s1)
        else if hitsBody nextHead (snake s1)
        then Done (gameOver s1)
        else
          let s2 := set_snake (nextHead :: snake s1) s1 in
          if positionsEqual nextHead (food s2)
          then
            let s3 := maybeSpeedUp (updateScore 1 s2) in
            match getRandomEmptyCell fuel (snake s3) (host s3) with
            | None => Spins
            | Some (pos, h) => Done (set_food pos (set_host h s3))
            end
          else Done (set_snake (removelast (snake s2)) s2)
    end.

(** ** Page events *)

Inductive Event :=
| Keydown (key : string)               (* e.key of a keydown on window *)
| DpadClick (dir : option string)      (* the button's data-dir attribute *)
| PauseClick
| RestartClick
| ResumeClick
| PanelRestartClick
| OverlayClick (onOverlay : bool)      (* e.target === overlay *)
| DifficultyChange (newKey : string)   (* e.target.value of the select *)
| IntervalFires (handle : positive).   (* the timer with this handle is due *)

Definition lowerAscii (c : ascii) : ascii :=
  let n := nat_of_ascii c in
  if (65 <=? n)%nat && (n <=? 90)%nat then ascii_of_nat (n + 32) else c.

Fixpoint toLowerCase (s : string) : string :=
  match s with
  | EmptyString => EmptyString
  | String c rest => String (lowerAscii c) (toLowerCase rest)
  end.

Definition registered (handle : positive) (h : Host) : bool :=
  existsb (fun reg => Pos.eqb (fst reg) handle) (intervals h).

(** The listeners installed by [bindControls], and the interval callback. *)
Definition step (fuel : nat) (e : Event) (s : State) : Outcome :=
  match e with
  | Keydown k =>
      let key := toLowerCase k in
      if (key =? " ")%string || (key =? "spacebar")%string
      then Done (togglePause s)
      else match keyToDir key with
           | Some dir => Done (queueDirection dir s)
           | None => Done s
           end
  | DpadClick (Some dir) =>
      if (dir =? EmptyString)%string then Done s
      else Done (queueDirection (dirStringToVector dir) s)
  | DpadClick None => Done s
  | PauseClick => Done (togglePause s)
  | RestartClick => restart fuel s
  | ResumeClick => Done (resume s)
  | PanelRestartClick => restart fuel s
  | OverlayClick onOverlay =>
      if onOverlay && isPaused s && negb (isGameOver s)
      then Done (resume s)
      else Done s
  | DifficultyChange newKey =>
      match setDifficultyFromKey newKey s with
      | Some s1 => resetGame fuel s1
      | None => OffPreset
      end
  | IntervalFires handle =>
      if registered handle (host s) then tick fuel s else Done s
  end.

(** Modelled from the spec: the [data-dir] attributes of the d-pad buttons.
    The page markup is not among the sources; the input source is specified
    to deliver the direction intents up, down, left and right. *)
Definition DPAD_DIRS : list string :=
  ["up"%string; "down"%string; "left"%string; "right"%string].

(** Events the page can deliver to the script: a d-pad click carries the
    [data-dir] of one of its buttons. *)
Definition pageEvent (e : Event) : Prop :=
  match e with
  | DpadClick (Some dir) => In dir DPAD_DIRS
  | _ => True
  end.

(** ** Start-up *)

(** The variables once the script has been evaluated and before [init]
    runs.  Those declared without initialiser are written by [init] and
    [resetGame] before anything reads them; they get placeholder values. *)
Definition loaded (h : Host) : State :=
  mkState "normal" NORMAL [] [] (mkCell 0 0) 0 0 0 None false false h.

Definition init (fuel : nat) (h : Host) (bestFromStorage : Z) (savedDiff : string)
  : Outcome :=
  let s1 := set_best bestFromStorage (loaded h) in
  match setDifficultyFromKey savedDiff s1 with
  | Some s2 => resetGame fuel s2
  | None => OffPreset
  end.

(** The earlier script: no difficulty table, constants fixed. *)
Definition loaded_main (h : Host) : State :=
  mkState EmptyString MAIN_JS [] [] (mkCell 0 0) 0 0 0 None false false h.

Definition init_main (fuel : nat) (h : Host) (bestFromStorage : Z) : Outcome :=
  resetGame fuel (set_best bestFromStorage (loaded_main h)).

(** States the script can be in when the events delivered to it satisfy
    [ok]: after start-up on a fresh host (no timer registered yet), and
    after any handler or timer callback that returned. *)
Inductive reachableVia (ok : Event -> Prop) : State -> Prop :=
| reach_init : forall fuel h bestFromStorage savedDiff s,
    intervals h = [] ->
    init fuel h bestFromStorage savedDiff = Done s ->
    reachableVia ok s
| reach_init_main : forall fuel h bestFromStorage s,
    intervals h = [] ->
    init_main fuel h bestFromStorage = Done s ->
    reachableVia ok s
| reach_step : forall fuel e s s',
    reachableVia ok s ->
    ok e ->
    step fuel e s = Done s' ->
    reachableVia ok s'.

(** Whatever the events carry. *)
Definition reachable : State -> Prop := reachableVia (fun _ => True).

(** With the d-pad buttons of the page. *)
Definition onPage : State -> Prop := reachableVia pageEvent.

Fixpoint run (fuel : nat) (es : list Event) (s : State) : Outcome :=
  match es with
  | [] => Done s
  | e :: rest =>
      match step fuel e s with
      | Done s' => run fuel rest s'
      | other => other
      end
  end.

(** ** Observations used in the statements *)

Definition inBounds (c : Cell) : Prop :=
  0 <= x c < GRID_SIZE /\ 0 <= y c < GRID_SIZE.

(** Head cell plus the direction at the front of the queue. *)
Definition computeNextHead (s : State) : option Cell :=
  match snake s, directionQueue s with
  | head :: _, dir :: _ => Some (mkCell (x head + x dir) (y head + y dir))
  | _, _ => None
  end.

Definition willCollide (nextHead : Cell) (s : State) : Prop :=
  ~ inBounds nextHead \/ In nextHead (snake s).

Definition opposite (a b : Cell) : Prop :=
  x a + x b = 0 /\ y a + y b = 0.

Fixpoint noReversal (queue : list Cell) : Prop :=
  match queue with
  | a :: (b :: _) as rest => ~ opposite a b /\ noReversal rest
  | _ => True
  end.

Definition unitVector (d : Cell) : Prop :=
  d = mkCell 1 0 \/ d = mkCell (-1) 0 \/ d = mkCell 0 1 \/ d = mkCell 0 (-1).

Definition validTape (h : Host) : Prop :=
  forall n, Number.isRandom (mathRandom h n) = true.

Definition excluded (exclusions : list Cell) (pos : Cell) : bool :=
  existsb (fun p => positionsEqual p pos) exclusions.

(** Some pass among the first [fuel] draws a cell outside [exclusions]. *)
Definition findsFree (fuel : nat) (exclusions : list Cell) (h : Host) : Prop :=
  exists k, (k < fuel)%nat /\
            excluded exclusions (drawCell h (randomCalls h + 2 * k)) = false.

(** Same game: every event except those that call [resetGame]. *)
Definition keepsGame (e : Event) : bool :=
  match e with
  | RestartClick | PanelRestartClick | DifficultyChange _ => false
  | _ => true
  end.

Definition presets : list Difficulty := MAIN_JS :: map snd DIFFICULTIES.

(** [Math.floor(tickMs * speedupFactor)] for a tick interval [t]. *)
Definition scaled (d : Difficulty) (t : Z) : Z :=
  Number.floor (Number.mul (Number.ofInt t) (speedupFactor d)).

(** The factor of each preset as a percentage, for comparison with the
    exact quotient. *)
Definition percentages : list (Difficulty * Z) :=
  [ (MAIN_JS, 92);
    (mkDifficulty "Easy" 200 5 (Number.literal 94 100) 100, 94);
    (mkDifficulty "Normal" 160 4 (Number.literal 92 100) 75, 92);
    (mkDifficulty "Hard" 120 3 (Number.literal 90 100) 60, 90);
    (mkDifficulty "Insane" 90 2 (Number.literal 88 100) 45, 88) ].

Definition intervalRange : list Z := map Z.of_nat (seq 0 201).

Definition outOfBounds (c : Cell) : bool :=
  (x c <? 0) || (y c <? 0) || (x c >=? GRID_SIZE) || (y c >=? GRID_SIZE).

(** The queue as [tick] leaves it: the front entry is dropped when another
    one follows it. *)
Definition shifted (queue : list Cell) : list Cell :=
  match queue with
  | _ :: (_ :: _) as rest => rest
  | _ => queue
  end.

(** At most one interval is registered, the one [loopId] names, and its
    period is the current [tickMs]. *)
Definition clockOk (s : State) : Prop :=
  intervals (host s) =
  match loopId s with
  | Some id => [(id, tickMs s)]
  | None => []
  end.

(** [loopId] names the only registered interval, whatever its period. *)
Definition singleTimer (s : State) : Prop :=
  match loopId s with
  | Some id => exists period, intervals (host s) = [(id, period)]
  | None => intervals (host s) = []
  end.

(** Variables the clock functions and the score functions leave alone. *)
Definition sameBoard (s s' : State) : Prop :=
  snake s' = snake s /\ directionQueue s' = directionQueue s /\
  food s' = food s /\ isPaused s' = isPaused s /\
  isGameOver s' = isGameOver s /\ difficulty s' = difficulty s /\
  difficultyKey s' = difficultyKey s /\
  mathRandom (host s') = mathRandom (host s) /\
  randomCalls (host s') = randomCalls (host s).

(** What holds of every state the page can be in. *)
Record Inv (s : State) : Prop := mkInv {
  inv_snake : snake s <> [];
  inv_queue : directionQueue s <> [];
  inv_noReversal : noReversal (directionQueue s);
  inv_food : ~ In (food s) (snake s);
  inv_food_bounds : validTape (host s) -> inBounds (food s);
  inv_preset : In (difficulty s) presets;
  inv_tick : minTickMs (difficulty s) <= tickMs s <= initialSpeedMs (difficulty s);
  inv_score : 0 <= score s;
  inv_clock : clockOk s;
  inv_loop : loopId s = None <-> isPaused s || isGameOver s = true
}.




(** ** Sample runs *)

Definition sampleTape (n : nat) : spec_float :=
  nth n [Number.literal 11 20; Number.literal 1 2; Number.literal 3 20;
         Number.literal 1 4; Number.literal 19 20; Number.literal 1 2]
      (Number.ofInt 0).

Definition freshHost : Host := mkHost sampleTape 0 [] 1.

Definition stateOf (o : Outcome) : State :=
  match o with
  | Done s => s
  | Throws s => s
  | Spins | OffPreset => loaded freshHost
  end.

(** After start-up: snake [(10,10); (9,10); (8,10)], food at [(11,10)]. *)
Definition started : State := stateOf (init 1 freshHost 0 "hard").

(** One tick later the food has been eaten and replaced at [(3,5)]. *)
Definition fed : State := stateOf (run 1 [IntervalFires 1] started).

(** Eight more ticks: head at [(19,10)], facing the right wall. *)
Definition atWall : State :=
  stateOf (run 1 (repeat (IntervalFires 1) 8) fed).

(** Paused by the pause button. *)
Definition paused : State := stateOf (run 1 [PauseClick] fed).

(** The restart button pressed in [fed]; the food lands on [(19,10)]. *)
Definition restarted : State := stateOf (run 1 [RestartClick] fed).

(** The up key pressed in [fed]: two directions are queued. *)
Definition turning : State := stateOf (run 1 [Keydown "w"] fed).

(** The tick that runs into the right wall from [atWall]. *)
Definition crashed : State := stateOf (tick 1 atWall).

(** From [fed] to the second food at [(3,5)] and on towards the third at
    [(19,10)]: in [ripe] the score is 2 and the next head is the food. *)
Definition chase : list Event :=
  [Keydown "w"; IntervalFires 1] ++ repeat (IntervalFires 1) 4 ++
  [Keydown "a"; IntervalFires 1] ++ repeat (IntervalFires 1) 9 ++
  [Keydown "s"; IntervalFires 1] ++ repeat (IntervalFires 1) 4 ++
  [Keydown "d"; IntervalFires 1] ++ repeat (IntervalFires 1) 16.

Definition ripe : State := stateOf (run 1 chase fed).

(** The tick that eats the third food: on the hard preset the interval
    goes from 120 ms to 108 ms. *)
Definition sped : State := stateOf (tick 1 ripe).

(** Three turns (up, left, down) with a body of four cells: the head is at
    [(11,9)], the tail at [(11,10)] and the queued direction is down, so the
    next head is the cell the tail occupies. *)
Definition coiled : State :=
  stateOf (run 1 [Keydown "w"; IntervalFires 1;
                  Keydown "ArrowLeft"; IntervalFires 1;
                  DpadClick (Some "down"%string); IntervalFires 1] fed).

(** ** Shape of the snake *)

(** Two cells side by side on the grid. *)
Definition adjacent (a b : Cell) : Prop :=
  Z.abs (x a - x b) + Z.abs (y a - y b) = 1.

Fixpoint chained (cells : list Cell) : Prop :=
  match cells with
  | a :: (b :: _) as rest => adjacent a b /\ chained rest
  | _ => True
  end.

(** What [keyToDir] and [dirStringToVector] can return. *)
Definition stepVector (d : Cell) : Prop :=
  unitVector d \/ d = mkCell 0 0.

(** The direction at the front of the queue does not point from the head
    back to the second cell. *)
Definition neckClear (s : State) : Prop :=
  match snake s, directionQueue s with
  | head :: neck :: _, dir :: _ =>
      ~ opposite (mkCell (x head - x neck) (y head - y neck)) dir
  | _, _ => True
  end.

Record Shape (s : State) : Prop := mkShape {
  shape_nodup : NoDup (snake s);
  shape_bounds : Forall inBounds (snake s);
  shape_chain : chained (snake s);
  shape_score : score s = Z.of_nat (List.length (snake s)) - 3;
  shape_best : score s <= best s;
  shape_vectors : Forall stepVector (directionQueue s);
  shape_neck : isGameOver s = false -> neckClear s
}.

(** Key presses other than the space bar, and d-pad clicks. *)
Definition directionInput (e : Event) : bool :=
  match e with
  | Keydown k =>
      negb ((toLowerCase k =? " ")%string || (toLowerCase k =? "spacebar")%string)
  | DpadClick _ => true
  | _ => false
  end.

(** The cell drawn by pass number [k] of a call of [getRandomEmptyCell]
    that starts reading at the host's current position. *)
Definition passCell (h : Host) (k : nat) : Cell :=
  drawCell h (randomCalls h + 2 * k).

(** [started] with the score set to 3, as [maybeSpeedUp] finds it on the
    hard preset when the third food has just been counted. *)
Definition threeEaten : State := set_score 3 started.

(** ** The page around the game

    The later script with what it writes to the document and to
    [localStorage].  An element's text that shows a number, and the stored
    best score, are kept as that number; a stored best score that is not
    the decimal of an integer is not modelled.  The canvas is left out. *)

Record Dom := mkDom {
  overlayHidden : bool;       (* class "hidden" on #overlay *)
  stateTitle : string;        (* text of #stateTitle *)
  stateSubtitle : string;     (* text of #stateSubtitle *)
  scoreText : Z;              (* number shown in #score *)
  bestText : Z                (* number shown in #best *)
}.

Record Storage := mkStorage {
  snake_best : option Z;
  snake_difficulty : option string
}.

Record Page := mkPage {
  game : State;
  dom : Dom;
  storage : Storage
}.

Inductive PageOutcome :=
| PageDone (p : Page)
| PageThrows (p : Page)
| PageSpins
| PageOffPreset.

Definition gameOf (o : PageOutcome) : Outcome :=
  match o with
  | PageDone p => Done (game p)
  | PageThrows p => Throws (game p)
  | PageSpins => Spins
  | PageOffPreset => OffPreset
  end.

(** A statement that only writes game variables. *)
Definition onGame (f : State -> State) (p : Page) : Page :=
  mkPage (f (game p)) (dom p) (storage p).

Definition updatePanel (title subtitle : string) (p : Page) : Page :=
  mkPage (game p)
         (mkDom (overlayHidden (dom p)) title subtitle
                (scoreText (dom p)) (bestText (dom p)))
         (storage p).

Definition showOverlay (title subtitle : string) (p : Page) : Page :=
  let p1 := updatePanel title subtitle p in
  mkPage (game p1)
         (mkDom false (stateTitle (dom p1)) (stateSubtitle (dom p1))
                (scoreText (dom p1)) (bestText (dom p1)))
         (storage p1).

Definition hideOverlay (p : Page) : Page :=
  mkPage (game p)
         (mkDom true (stateTitle (dom p)) (stateSubtitle (dom p))
                (scoreText (dom p)) (bestText (dom p)))
         (storage p).

(** [updateScore] with its writes to #score, #best and the stored best. *)
Definition updateScorePage (delta : Z) (p : Page) : Page :=
  let p1 := onGame (fun g => set_score (score g + delta) g) p in
  let p2 := mkPage (game p1)
                   (mkDom (overlayHidden (dom p1)) (stateTitle (dom p1))
                          (stateSubtitle (dom p1)) (score (game p1))
                          (bestText (dom p1)))
                   (storage p1) in
  if best (game p2) <? score (game p2)
  then
    let p3 := onGame (fun g => set_best (score g) g) p2 in
    mkPage (game p3)
           (mkDom (overlayHidden (dom p3)) (stateTitle (dom p3))
                  (stateSubtitle (dom p3)) (scoreText (dom p3))
                  (best (game p3)))
           (mkStorage (Some (best (game p3))) (snake_difficulty (storage p3)))
  else p2.

(** [setDifficultyFromKey] with its write of the key to storage. *)
Definition setDifficultyFromKeyPage (key : string) (p : Page) : option Page :=
  match setDifficultyFromKey key (game p) with
  | Some g =>
      Some (mkPage g (dom p)
                   (mkStorage (snake_best (storage p)) (Some (difficultyKey g))))
  | None => None
  end.

Definition gameOverPage (p : Page) : Page :=
  showOverlay "Game Over" "Press Restart or Enter"
              (onGame stopLoop (onGame (set_isGameOver true) p)).

Definition togglePausePage (p : Page) : Page :=
  if isGameOver (game p) then p
  else
    let p1 := onGame (fun g => set_isPaused (negb (isPaused g)) g) p in
    if isPaused (game p1)
    then showOverlay "Paused" "Press Space or Tap to resume" (onGame stopLoop p1)
    else onGame startLoop (hideOverlay p1).

Definition resumePage (p : Page) : Page :=
  if negb (isPaused (game p)) || isGameOver (game p) then p
  else togglePausePage p.

Definition resetGamePage (fuel : nat) (p : Page) : PageOutcome :=
  let start := mkCell (GRID_SIZE / 2) (GRID_SIZE / 2) in
  let p2 := onGame (fun g =>
                      set_directionQueue [mkCell 1 0]
                        (set_snake [start; mkCell (x start - 1) (y start);
                                    mkCell (x start - 2) (y start)] g)) p in
  match getRandomEmptyCell fuel (snake (game p2)) (host (game p2)) with
  | None => PageSpins
  | Some (pos, h) =>
      let p7 := onGame (fun g =>
                          let g3 := set_food pos (set_host h g) in
                          let g4 := set_score 0 g3 in
                          let g5 := set_tickMs (initialSpeedMs (difficulty g4)) g4 in
                          let g6 := set_isPaused false g5 in
                          set_isGameOver false g6) p2 in
      let p8 := onGame startLoop (updateScorePage 0 p7) in
      PageDone (updatePanel "Paused" "Press Space or Tap to resume"
                            (hideOverlay p8))
  end.

Definition tickPage (fuel : nat) (p : Page) : PageOutcome :=
  if isPaused (game p) || isGameOver (game p) then PageDone p
  else
    let currentDir := nth_error (directionQueue (game p)) 0 in
    let p1 := if (1 <? Z.of_nat (List.length (directionQueue (game p))))
              then onGame (fun g => set_directionQueue (tl (directionQueue g)) g) p
              else p in
    match nth_error (snake (game p1)) 0, currentDir with
    | None, _ => PageThrows p1
    | Some _, None => PageThrows p1
    | Some head, Some currentDir =>
        let nextHead := mkCell (x head + x currentDir) (y head + y currentDir) in
        if (x nextHead <? 0) || (y nextHead <? 0)
           || (x nextHead >=? GRID_SIZE) || (y nextHead >=? GRID_SIZE)
        then PageDone (gameOverPage p1)
        else if hitsBody nextHead (snake (game p1))
        then PageDone (gameOverPage p1)
        else
          let p2 := onGame (fun g => set_snake (nextHead :: snake g) g) p1 in
          if positionsEqual nextHead (food (game p2))
          then
            let p3 := onGame maybeSpeedUp (updateScorePage 1 p2) in
            match getRandomEmptyCell fuel (snake (game p3)) (host (game p3)) with
            | None => PageSpins
            | Some (pos, h) =>
                PageDone (onGame (fun g => set_food pos (set_host h g)) p3)
            end
          else PageDone (onGame (fun g => set_snake (removelast (snake g)) g) p2)
    end.

Definition stepPage (fuel : nat) (e : Event) (p : Page) : PageOutcome :=
  match e with
  | Keydown k =>
      let key := toLowerCase k in
      if (key =? " ")%string || (key =? "spacebar")%string
      then PageDone (togglePausePage p)
      else match keyToDir key with
           | Some dir => PageDone (onGame (queueDirection dir) p)
           | None => PageDone p
           end
  | DpadClick (Some dir) =>
      if (dir =? EmptyString)%string then PageDone p
      else PageDone (onGame (queueDirection (dirStringToVector dir)) p)
  | DpadClick None => PageDone p
  | PauseClick => PageDone (togglePausePage p)
  | RestartClick => resetGamePage fuel p
  | ResumeClick => PageDone (resumePage p)
  | PanelRestartClick => resetGamePage fuel p
  | OverlayClick onOverlay =>
      if onOverlay && isPaused (game p) && negb (isGameOver (game p))
      then PageDone (resumePage p)
      else PageDone p
  | DifficultyChange newKey =>
      match setDifficultyFromKeyPage newKey p with
      | Some p1 => resetGamePage fuel p1
      | None => PageOffPreset
      end
  | IntervalFires handle =>
      if registered handle (host (game p)) then tickPage fuel p else PageDone p
  end.

(** [init] of the later script on a host, a document and a storage. *)
Definition initPage (fuel : nat) (h : Host) (d : Dom) (st : Storage)
  : PageOutcome :=
  let bestFromStorage := match snake_best st with
                         | Some b => b
                         | None => 0
                         end in
  let p1 := mkPage (set_best bestFromStorage (loaded h))
                   (mkDom (overlayHidden d) (stateTitle d) (stateSubtitle d)
                          (scoreText d) bestFromStorage)
                   st in
  let savedDiff := match snake_difficulty st with
                   | Some k => if (k =? EmptyString)%string then "normal"%string else k
                   | None => "normal"%string
                   end in
  match setDifficultyFromKeyPage savedDiff p1 with
  | Some p2 => resetGamePage fuel p2
  | None => PageOffPreset
  end.

Inductive reachablePage : Page -> Prop :=
| page_init : forall fuel h d st p,
    intervals h = [] ->
    initPage fuel h d st = PageDone p ->
    reachablePage p
| page_step : forall fuel e p p',
    reachablePage p ->
    stepPage fuel e p = PageDone p' ->
    reachablePage p'.

(** What the document and the storage show of the game. *)
Record Shown (p : Page) : Prop := mkShown {
  shown_overlay : overlayHidden (dom p) = true <-> phase (game p) = Running;
  shown_over : isGameOver (game p) = true ->
               stateTitle (dom p) = "Game Over"%string;
  shown_paused : isGameOver (game p) = false ->
                 stateTitle (dom p) = "Paused"%string;
  shown_score : scoreText (dom p) = score (game p);
  shown_best : bestText (dom p) = best (game p);
  shown_stored_best :
    snake_best (storage p) = Some (best (game p)) \/
    snake_best (storage p) = None /\ best (game p) = 0;
  shown_stored_difficulty :
    snake_difficulty (storage p) = Some (difficultyKey (game p))
}.

(** A page: the sample start-up on an empty storage and a blank document. *)
Definition blankDom : Dom := mkDom false EmptyString EmptyString 0 0.

Definition emptyStorage : Storage := mkStorage None None.

Definition pageOf (o : PageOutcome) : Page :=
  match o with
  | PageDone p => p
  | PageThrows p => p
  | PageSpins | PageOffPreset => mkPage (loaded freshHost) blankDom emptyStorage
  end.

Definition startedPage : Page :=
  pageOf (initPage 1 freshHost blankDom (mkStorage None (Some "hard"%string))).

Fixpoint runPage (fuel : nat) (es : list Event) (p : Page) : PageOutcome :=
  match es with
  | [] => PageDone p
  | e :: rest =>
      match stepPage fuel e p with
      | PageDone p' => runPage fuel rest p'
      | other => other
      end
  end.

(** The sample run up to the tick that eats the third food, then into the
    right wall. *)
Definition spedPage : Page :=
  pageOf (runPage 1 (IntervalFires 1 :: chase ++ [IntervalFires 1]) startedPage).

Definition crashedPage : Page :=
  pageOf (runPage 1 [IntervalFires 2] spedPage).

(** ** Proof steps used throughout *)

(** A handler that returned after [setDifficultyFromKey]: the key was
    stored. *)
Ltac keyed H :=
  match type of H with
  | context [setDifficultyFromKey ?k ?s] =>
      let K := fresh "K" in
      destruct (setDifficultyFromKey k s) eqn:K; [|discriminate H]
  end.

Ltac proj_simpl :=
  cbn [difficultyKey difficulty snake directionQueue food score best tickMs
       loopId isPaused isGameOver host mathRandom randomCalls intervals
       nextHandle x y fst snd
       set_difficultyKey set_difficulty set_snake set_directionQueue set_food
       set_score set_best set_tickMs set_loopId set_isPaused set_isGameOver
       set_host] in *.

Ltac open_state s :=
  let h := fresh "h" in
  destruct s as [? ? ? ? ? ? ? ? ? ? ? h]; destruct h as [? ? ? ?];
  cbn [difficultyKey difficulty snake directionQueue food score best tickMs
       loopId isPaused isGameOver host mathRandom randomCalls intervals
       nextHandle] in *.

Ltac board H :=
  destruct H as (?B1 & ?B2 & ?B3 & ?B4 & ?B5 & ?B6 & ?B7 & ?B8 & ?B9).

Ltac page_events :=
  repeat (apply Forall_cons; [cbn; auto 6|]); apply Forall_nil.

(** * Properties *)

(** ** Cells and lists of cells *)

Lemma positionsEqual_eq (a b : Cell) : positionsEqual a b = true <-> a = b.
Proof.
  unfold positionsEqual. rewrite andb_true_iff, !Z.eqb_eq.
  destruct a, b; simpl. split.
  - intros [-> ->]. reflexivity.
  - intros E. injection E. auto.
Qed.

Lemma positionsEqual_refl (a : Cell) : positionsEqual a a = true.
Proof. apply positionsEqual_eq. reflexivity. Qed.

Lemma positionsEqual_neq (a b : Cell) : positionsEqual a b = false <-> a <> b.
Proof.
  rewrite <- positionsEqual_eq. destruct (positionsEqual a b); split; congruence.
Qed.

Lemma hitsBody_In (c : Cell) (body : list Cell) :
  hitsBody c body = true <-> In c body.
Proof.
  induction body as [|b body IH]; simpl.
  - split; [discriminate | tauto].
  - destruct (positionsEqual c b) eqn:E.
    + apply positionsEqual_eq in E. subst. tauto.
    + apply positionsEqual_neq in E. rewrite IH. split.
      * auto.
      * intros [->|H]; [congruence | exact H].
Qed.

Lemma excluded_In (exclusions : list Cell) (pos : Cell) :
  excluded exclusions pos = true <-> In pos exclusions.
Proof.
  unfold excluded. rewrite existsb_exists. split.
  - intros [p [Hin E]]. apply positionsEqual_eq in E. subst. exact Hin.
  - intros Hin. exists pos. split; [exact Hin | apply positionsEqual_refl].
Qed.

Lemma excluded_false (exclusions : list Cell) (pos : Cell) :
  excluded exclusions pos = false <-> ~ In pos exclusions.
Proof.
  rewrite <- excluded_In. destruct (excluded exclusions pos); split; congruence.
Qed.

Lemma removelast_length {A} (l : list A) :
  l <> [] -> S (List.length (removelast l)) = List.length l.
Proof.
  induction l as [|a l IH]; [congruence|]. intros _.
  destruct l as [|b l]; [reflexivity|].
  change (removelast (a :: b :: l)) with (a :: removelast (b :: l)).
  simpl List.length. f_equal. apply IH. discriminate.
Qed.

Lemma removelast_In {A} (c : A) (l : list A) : In c (removelast l) -> In c l.
Proof.
  induction l as [|a l IH]; [tauto|].
  destruct l as [|b l]; [simpl; tauto|].
  change (removelast (a :: b :: l)) with (a :: removelast (b :: l)).
  intros [->|H]; [left; reflexivity | right; apply IH; exact H].
Qed.

(** ** Binary64 rounding *)

Lemma digits2_pos_size (p : positive) : digits2_pos p = Pos.size p.
Proof. induction p; cbn; congruence. Qed.

Lemma digits_upper (p : positive) : Z.pos p < 2 ^ Z.pos (digits2_pos p).
Proof.
  rewrite digits2_pos_size.
  pose proof (Pos.size_gt p) as H.
  apply Pos2Z.pos_lt_pos in H. rewrite Pos2Z.inj_pow in H. exact H.
Qed.

Lemma digits_lower (p : positive) : 2 ^ Z.pos (digits2_pos p) <= 2 * Z.pos p.
Proof.
  rewrite digits2_pos_size.
  pose proof (Pos.size_le p) as H.
  apply Pos2Z.pos_le_pos in H. rewrite Pos2Z.inj_pow in H. exact H.
Qed.

Lemma digits_le (p : positive) (k : Z) :
  Z.pos p < 2 ^ k -> Z.pos (digits2_pos p) <= k.
Proof.
  intros H. pose proof (digits_lower p) as L.
  destruct (Z_le_gt_dec (Z.pos (digits2_pos p)) k) as [A|A]; [exact A|].
  exfalso.
  assert (0 <= k).
  { destruct (Z_lt_le_dec k 0) as [N|N]; [|exact N].
    rewrite (Z.pow_neg_r 2 k N) in H. lia. }
  assert (2 ^ (k + 1) <= 2 ^ Z.pos (digits2_pos p))
    by (apply Z.pow_le_mono_r; lia).
  rewrite Z.pow_add_r in * by lia. lia.
Qed.

(** [shr_1] halves a mantissa and keeps the bit it drops. *)
Lemma shr_1_spec (mrs : shr_record) :
  0 <= shr_m mrs ->
  shr_m (shr_1 mrs) = Z.shiftr (shr_m mrs) 1 /\
  shr_r (shr_1 mrs) = Z.testbit (shr_m mrs) 0.
Proof.
  destruct mrs as [m r s]. cbn [shr_m]. intros H.
  destruct m as [|[p|p|]|p]; try lia; cbn; split; reflexivity.
Qed.

Lemma iter_shr_1 (p : positive) :
  forall mrs, 0 <= shr_m mrs ->
    shr_m (iter_pos shr_1 p mrs) = Z.shiftr (shr_m mrs) (Z.pos p) /\
    shr_r (iter_pos shr_1 p mrs) = Z.testbit (shr_m mrs) (Z.pos p - 1).
Proof.
  induction p as [p IH|p IH|]; intros mrs H; cbn [iter_pos].
  - destruct (shr_1_spec mrs H) as (A1 & _).
    assert (H1 : 0 <= shr_m (shr_1 mrs))
      by (rewrite A1; apply Z.shiftr_nonneg; exact H).
    destruct (IH _ H1) as (A2 & _).
    assert (H2 : 0 <= shr_m (iter_pos shr_1 p (shr_1 mrs)))
      by (rewrite A2; apply Z.shiftr_nonneg; exact H1).
    destruct (IH _ H2) as (A3 & B3).
    rewrite A3, B3, A2, A1. split.
    + rewrite !Z.shiftr_shiftr by lia. f_equal. lia.
    + rewrite Z.shiftr_shiftr by lia. rewrite Z.shiftr_spec by lia.
      f_equal. lia.
  - destruct (IH _ H) as (A2 & _).
    assert (H2 : 0 <= shr_m (iter_pos shr_1 p mrs))
      by (rewrite A2; apply Z.shiftr_nonneg; exact H).
    destruct (IH _ H2) as (A3 & B3).
    rewrite A3, B3, A2. split.
    + rewrite Z.shiftr_shiftr by lia. f_equal. lia.
    + rewrite Z.shiftr_spec by lia. f_equal. lia.
  - exact (shr_1_spec mrs H).
Qed.

(** Rounding to nearest moves a mantissa up by at most one, and only when
    the first bit dropped was set. *)
Lemma round_nearest_even_bounds (mrs : shr_record) :
  let m' := round_nearest_even (shr_m mrs) (loc_of_shr_record mrs) in
  shr_m mrs <= m' <= shr_m mrs + 1 /\ (shr_r mrs = false -> m' = shr_m mrs).
Proof.
  destruct mrs as [m [|] [|]]; cbn; try destruct (Z.even m); split; try lia;
    intros; try discriminate; reflexivity.
Qed.

(** The first shift of [binary_round_aux] and the rounding that follows,
    on a positive mantissa: [n] low bits are dropped and the result is at
    most half a unit above the exact quotient. *)
Lemma shr_round (M : positive) (E n : Z) :
  let mrs := fst (shr (shr_record_of_loc (Z.pos M) loc_Exact) E n) in
  let m' := round_nearest_even (shr_m mrs) (loc_of_shr_record mrs) in
  snd (shr (shr_record_of_loc (Z.pos M) loc_Exact) E n) = E + Z.max n 0 /\
  0 <= m' /\
  Z.shiftr (Z.pos M) (Z.max n 0) <= m' <= Z.shiftr (Z.pos M) (Z.max n 0) + 1 /\
  (0 < n -> m' * 2 ^ n <= Z.pos M + 2 ^ (n - 1)) /\
  (n <= 0 -> m' = Z.pos M).
Proof.
  cbv zeta. destruct n as [|p|p]; cbn [shr shr_record_of_loc fst snd].
  - cbn. repeat split; lia.
  - destruct (iter_shr_1 p (Build_shr_record (Z.pos M) false false))
      as (A & B); [cbn; lia|].
    cbn [shr_m] in A, B.
    set (mrs := iter_pos shr_1 p _) in *.
    destruct (round_nearest_even_bounds mrs) as (C & D). cbv zeta in C, D.
    set (m' := round_nearest_even _ _) in *.
    rewrite A in C, D.
    assert (P : 0 <= Z.shiftr (Z.pos M) (Z.pos p))
      by (apply Z.shiftr_nonneg; lia).
    rewrite Z.max_l by lia.
    split; [reflexivity|]. split; [lia|]. split; [exact C|].
    split; [|lia]. intros _.
    rewrite Z.shiftr_div_pow2 in * by lia.
    pose proof (Z.pow_pos_nonneg 2 (Z.pos p - 1) ltac:(lia) ltac:(lia)) as Q.
    assert (T : 2 ^ Z.pos p = 2 * 2 ^ (Z.pos p - 1)).
    { rewrite <- Z.pow_succ_r by lia. f_equal. lia. }
    pose proof (Z.mul_div_le (Z.pos M) (2 ^ Z.pos p) ltac:(lia)) as L.
    destruct (shr_r mrs) eqn:R.
    + symmetry in B. rewrite Z.testbit_true in B by lia.
      pose proof (Z.mul_div_le (Z.pos M) (2 ^ (Z.pos p - 1)) Q) as L1.
      set (t := Z.pos M / 2 ^ (Z.pos p - 1)) in *.
      assert (Z.pos M / 2 ^ Z.pos p = t / 2).
      { rewrite T. rewrite Z.mul_comm.
        rewrite <- Z.div_div by lia. reflexivity. }
      pose proof (Z.div_mod t 2 ltac:(lia)) as DM.
      nia.
    + rewrite (D eq_refl). lia.
  - cbn. repeat split; lia.
Qed.

Lemma shr_exact (m : Z) (e n : Z) :
  0 <= m ->
  shr_m (fst (shr (shr_record_of_loc m loc_Exact) e n)) = Z.shiftr m (Z.max n 0) /\
  snd (shr (shr_record_of_loc m loc_Exact) e n) = e + Z.max n 0.
Proof.
  intros H. destruct n as [|p|p]; cbn [shr shr_record_of_loc fst snd shr_m].
  - cbn. split; [reflexivity | lia].
  - destruct (iter_shr_1 p (Build_shr_record m false false) H) as (A & _).
    rewrite A. cbn [shr_m]. rewrite Z.max_l by lia. split; reflexivity.
  - cbn. split; [reflexivity | lia].
Qed.

Lemma floor_finite (m : positive) (e : Z) :
  e <= 0 -> Number.floor (S754_finite false m e) = Z.pos m / 2 ^ (- e).
Proof.
  intros H. unfold Number.floor. destruct e as [|p|p]; try lia.
  - cbn. rewrite Z.div_1_r. lia.
  - reflexivity.
Qed.

(** [binary_round_aux] on a positive mantissa whose rounded exponent is
    negative: the result is a zero or a finite value of positive sign, and
    its floor is the floor of the rounded mantissa [m'] at the exponent
    reached by the first shift. *)
Lemma binary_round_aux_floor (M : positive) (E : Z) :
  let n := fexp Number.prec Number.emax (Zdigits2 (Z.pos M) + E) - E in
  let v := binary_round_aux Number.prec Number.emax false (Z.pos M) E loc_Exact in
  E + Z.max n 0 <= -1 ->
  exists m',
    0 <= m' /\
    (0 < n -> m' * 2 ^ n <= Z.pos M + 2 ^ (n - 1)) /\
    (n <= 0 -> m' = Z.pos M) /\
    (v = S754_zero false \/ exists m e, v = S754_finite false m e) /\
    Number.floor v = m' / 2 ^ (- (E + Z.max n 0)).
Proof.
  cbv zeta. set (n := fexp _ _ _ - E). intros HS.
  unfold binary_round_aux, shr_fexp. fold n.
  destruct (shr_round M E n) as (A & B & C & D & F). cbv zeta in A, B, C, D, F.
  destruct (shr (shr_record_of_loc (Z.pos M) loc_Exact) E n) as [mrs e'] eqn:E1.
  cbn [fst snd] in A, B, C, D, F. subst e'.
  set (m' := round_nearest_even (shr_m mrs) (loc_of_shr_record mrs)) in *.
  set (S := E + Z.max n 0) in *.
  exists m'. split; [exact B|]. split; [exact D|]. split; [exact F|].
  (* the exponent reached is no lower than the least exponent *)
  assert (Smin : -1074 <= S).
  { unfold S, n, fexp, emin, Number.prec, Number.emax. lia. }
  (* the quotient has at most 53 bits *)
  assert (Q53 : Z.shiftr (Z.pos M) (Z.max n 0) < 2 ^ 53).
  { rewrite Z.shiftr_div_pow2 by lia.
    apply Z.div_lt_upper_bound; [apply Z.pow_pos_nonneg; lia|].
    rewrite <- Z.pow_add_r by lia.
    eapply Z.lt_le_trans; [apply digits_upper|].
    apply Z.pow_le_mono_r; [lia|].
    unfold n, fexp, emin, Number.prec, Number.emax. cbn [Zdigits2]. lia. }
  destruct (shr_exact m' S (fexp Number.prec Number.emax (Zdigits2 m' + S) - S) B)
    as (G & H).
  set (n2 := fexp Number.prec Number.emax (Zdigits2 m' + S) - S) in *.
  destruct (shr (shr_record_of_loc m' loc_Exact) S n2) as [mrs2 e2] eqn:E2.
  cbn [fst snd] in G, H. subst e2.
  assert (N2 : Z.max n2 0 <= 1).
  { destruct m' as [|q|q]; [| |lia].
    - unfold n2, fexp, emin, Number.prec, Number.emax. cbn [Zdigits2]. lia.
    - assert (Z.pos (digits2_pos q) <= 54)
        by (apply digits_le; change (2 ^ 54) with (2 * 2 ^ 53); lia).
      unfold n2, fexp, emin, Number.prec, Number.emax. cbn [Zdigits2]. lia. }
  assert (N0 : 0 <= Z.max n2 0) by lia.
  rewrite Z.shiftr_div_pow2 in G by lia.
  assert (Fl : m' / 2 ^ Z.max n2 0 / 2 ^ (- (S + Z.max n2 0)) = m' / 2 ^ (- S)).
  { rewrite Z.div_div by (try apply Z.pow_pos_nonneg; lia).
    rewrite <- Z.pow_add_r by lia. do 2 f_equal. lia. }
  rewrite G.
  destruct (m' / 2 ^ Z.max n2 0) as [|m2|m2] eqn:E3.
  - split; [left; reflexivity|]. cbn [Number.floor].
    rewrite <- Fl. rewrite Z.div_0_l; [reflexivity|].
    apply Z.pow_nonzero; lia.
  - assert (Le : (S + Z.max n2 0 <=? Number.emax - Number.prec) = true)
      by (apply Z.leb_le; unfold Number.emax, Number.prec; lia).
    rewrite Le. split; [right; eauto|].
    rewrite floor_finite by lia. exact Fl.
  - exfalso.
    assert (0 <= m' / 2 ^ Z.max n2 0)
      by (apply Z.div_pos; [exact B | apply Z.pow_pos_nonneg; lia]).
    lia.
Qed.

(** ** Random cells *)

(** A value [Math.random()] may return, when not zero, has an exponent
    between -1074 and -53 and a mantissa of at most 53 bits. *)
Lemma isRandom_finite (m : positive) (e : Z) :
  Number.isRandom (S754_finite false m e) = true ->
  -1074 <= e <= -53 /\ Z.pos m < 2 ^ 53.
Proof.
  unfold Number.isRandom. intros H. apply andb_prop in H. destruct H as (B & L).
  unfold bounded in B. apply andb_prop in B. destruct B as (C & _).
  unfold canonical_mantissa in C. apply Z.eqb_eq in C.
  unfold fexp, emin, Number.prec, Number.emax in C.
  pose proof (digits_upper m) as U. pose proof (digits_lower m) as Lo.
  assert (D : Z.pos (digits2_pos m) <= 53) by lia.
  assert (M53 : Z.pos m < 2 ^ 53).
  { eapply Z.lt_le_trans; [exact U|]. apply Z.pow_le_mono_r; lia. }
  split; [|exact M53]. split; [lia|].
  change (Number.ofInt 1) with (S754_finite false 4503599627370496 (-52)) in L.
  unfold SFltb, SFcompare in L.
  destruct (Z.compare_spec e (-52)) as [X|X|X]; [|lia|discriminate L].
  exfalso. subst e.
  assert (F : Z.pos (digits2_pos m) = 53) by lia.
  rewrite F in Lo. change (2 ^ 53) with (2 * 4503599627370496) in Lo.
  destruct (Pos.compare_cont Eq m 4503599627370496) eqn:P; try discriminate L.
  assert (P' : (m < 4503599627370496)%positive) by exact P.
  apply Pos2Z.pos_lt_pos in P'. lia.
Qed.

(** The product of a value [Math.random()] may return and a positive
    integer [N] below [2^52], held as [my * 2^ey]: its floor is less
    than [N]. *)
Lemma mul_floor_below (m : positive) (e : Z) (my : positive) (ey N : Z) :
  -1074 <= e <= -53 -> Z.pos m < 2 ^ 53 ->
  2 ^ 52 <= Z.pos my < 2 ^ 53 -> -52 <= ey <= -1 ->
  Z.pos my = N * 2 ^ (- ey) ->
  let v := Number.mul (S754_finite false m e) (S754_finite false my ey) in
  (v = S754_zero false \/ exists m' e', v = S754_finite false m' e') /\
  0 <= Number.floor v < N.
Proof.
  intros He Hm Hmy Hey HN. cbv zeta.
  unfold Number.mul, SFmul. cbn [xorb].
  pose proof (binary_round_aux_floor (m * my) (e + ey)) as R. cbv zeta in R.
  set (M := (m * my)%positive) in *.
  set (n := fexp Number.prec Number.emax (Zdigits2 (Z.pos M) + (e + ey)) - (e + ey)) in *.
  assert (MM : Z.pos M = Z.pos m * Z.pos my) by (unfold M; lia).
  pose proof (digits_upper M) as DU. pose proof (digits_lower M) as DL.
  assert (D106 : Z.pos (digits2_pos M) <= 106).
  { apply digits_le. change (2 ^ 106) with (2 ^ 53 * 2 ^ 53). rewrite MM. nia. }
  assert (Hn : n = Z.max (Z.pos (digits2_pos M) - 53) (-1074 - (e + ey))).
  { unfold n, fexp, emin, Number.prec, Number.emax. cbn [Zdigits2]. lia. }
  destruct R as (m' & B & D & F & Shape & Fl); [lia|].
  split; [exact Shape|]. rewrite Fl. clear Fl Shape.
  set (S := e + ey + Z.max n 0) in *.
  assert (SN : S <= -1) by (unfold S; lia).
  assert (PS : 0 < 2 ^ (- S)) by (apply Z.pow_pos_nonneg; lia).
  split; [apply Z.div_pos; lia|].
  apply Z.div_lt_upper_bound; [exact PS|].
  (* the integer is N = my / 2^(-ey); 2^(-e) bounds the mantissa of r *)
  assert (Pe : 2 ^ 53 <= 2 ^ (- e)) by (apply Z.pow_le_mono_r; lia).
  assert (Pey : 0 < 2 ^ (- ey)) by (apply Z.pow_pos_nonneg; lia).
  assert (Npos : 0 < N) by nia.
  assert (Tot : N * 2 ^ (- (e + ey)) = Z.pos my * 2 ^ (- e)).
  { replace (- (e + ey)) with (- ey + - e) by lia.
    rewrite Z.pow_add_r by lia. rewrite HN. ring. }
  destruct (Z_le_gt_dec n 0) as [N0|N0].
  - rewrite (F N0). unfold S. rewrite Z.max_r by lia.
    rewrite Z.add_0_r. rewrite Z.mul_comm, Tot, MM. nia.
  - assert (N1 : 0 < n) by lia. specialize (D N1).
    unfold S. rewrite Z.max_l by lia.
    assert (Pn : 0 < 2 ^ n) by (apply Z.pow_pos_nonneg; lia).
    assert (Split : 2 ^ (- (e + ey + n)) * 2 ^ n = 2 ^ (- (e + ey))).
    { rewrite <- Z.pow_add_r by (unfold S in SN; lia). f_equal. lia. }
    apply (Z.mul_lt_mono_pos_r (2 ^ n)); [exact Pn|].
    replace (2 ^ (- (e + ey + n)) * N * 2 ^ n)
      with (N * (2 ^ (- (e + ey + n)) * 2 ^ n)) by ring.
    rewrite Split, Tot.
    eapply Z.le_lt_trans; [exact D|].
    (* half a unit in the last place is less than the mantissa of N *)
    assert (Half : 2 ^ (n - 1) < Z.pos my).
    { destruct (Z.max_spec (Z.pos (digits2_pos M) - 53) (-1074 - (e + ey)))
        as [(_ & X)|(_ & X)]; rewrite X in Hn.
      - assert (2 ^ (n - 1) <= 2 ^ 51) by (apply Z.pow_le_mono_r; lia).
        change (2 ^ 51) with 2251799813685248 in *.
        change (2 ^ 52) with 4503599627370496 in *. lia.
      - assert (E54 : 2 ^ Z.pos (digits2_pos M) = 2 ^ (n - 1) * 2 ^ 54).
        { rewrite <- Z.pow_add_r by lia. f_equal. lia. }
        rewrite E54 in DL. change (2 ^ 54) with (2 * 2 ^ 53) in DL.
        assert (P1 : 0 < 2 ^ (n - 1)) by (apply Z.pow_pos_nonneg; lia).
        nia. }
    rewrite MM. nia.
Qed.

Lemma digits_eq (p : positive) (k : Z) :
  2 ^ (k - 1) <= Z.pos p < 2 ^ k -> Z.pos (digits2_pos p) = k.
Proof.
  intros (L & U). pose proof (digits_le p k U) as A.
  pose proof (digits_upper p) as B.
  destruct (Z_lt_le_dec (Z.pos (digits2_pos p)) k) as [C|C]; [|lia].
  exfalso.
  assert (2 ^ Z.pos (digits2_pos p) <= 2 ^ (k - 1))
    by (apply Z.pow_le_mono_r; lia).
  lia.
Qed.

Lemma iter_xO (d m : positive) :
  Z.pos (Pos.iter xO m d) = Z.pos m * 2 ^ Z.pos d.
Proof.
  induction d as [|d IH] using Pos.peano_ind.
  - cbn [Pos.iter]. rewrite Pos2Z.inj_xO. change (2 ^ 1) with 2. ring.
  - rewrite Pos.iter_succ, Pos2Z.inj_xO, IH, Pos2Z.inj_succ.
    rewrite Z.pow_succ_r by lia. ring.
Qed.

(** A positive integer below [2^53] as a binary64 value: the integer
    itself, with its mantissa shifted up to 53 bits. *)
Lemma ofInt_finite (N : positive) :
  Z.pos N < 2 ^ 53 ->
  exists my ey,
    Number.ofInt (Z.pos N) = S754_finite false my ey /\
    2 ^ 52 <= Z.pos my < 2 ^ 53 /\
    ey = Z.pos (digits2_pos N) - 53 /\
    Z.pos my = Z.pos N * 2 ^ (- ey).
Proof.
  intros H. pose proof (digits_upper N) as U. pose proof (digits_lower N) as L.
  pose proof (digits_le N 53 H) as D.
  set (dN := Z.pos (digits2_pos N)) in *.
  assert (Ex : exists mz, shl_align N 0 (dN - 53) = (mz, dN - 53) /\
                          Z.pos mz = Z.pos N * 2 ^ (53 - dN)).
  { unfold shl_align. destruct (dN - 53 - 0) as [|p|p] eqn:X; try lia.
    - exists N. replace (dN - 53) with 0 by lia.
      replace (53 - dN) with 0 by lia. split; [reflexivity | cbn; lia].
    - exists (Pos.iter xO N p). split; [reflexivity|].
      rewrite iter_xO. do 2 f_equal. lia. }
  destruct Ex as (mz & A & B).
  assert (R : 2 ^ 52 <= Z.pos mz < 2 ^ 53).
  { rewrite B.
    assert (P : 0 < 2 ^ (53 - dN)) by (apply Z.pow_pos_nonneg; lia).
    assert (T : 2 ^ 53 = 2 ^ dN * 2 ^ (53 - dN)).
    { rewrite <- Z.pow_add_r by (unfold dN; lia). f_equal. lia. }
    change (2 ^ 52) with (2 ^ 53 / 2).
    rewrite T. split; [|nia].
    apply Z.div_le_upper_bound; [lia|]. nia. }
  exists mz, (dN - 53). split; [|split; [exact R|split; [reflexivity|]]].
  - unfold Number.ofInt, binary_normalize, binary_round.
    replace (fexp Number.prec Number.emax (Z.pos (digits2_pos N) + 0))
      with (dN - 53)
      by (unfold fexp, emin, Number.prec, Number.emax; fold dN; lia).
    rewrite A. unfold binary_round_aux, shr_fexp. cbn [Zdigits2].
    rewrite (digits_eq mz 53 R).
    replace (fexp Number.prec Number.emax (53 + (dN - 53)) - (dN - 53)) with 0
      by (unfold fexp, emin, Number.prec, Number.emax; unfold dN; lia).
    cbn [shr shr_record_of_loc shr_m loc_of_shr_record round_nearest_even
         Zdigits2].
    rewrite (digits_eq mz 53 R).
    replace (fexp Number.prec Number.emax (53 + (dN - 53)) - (dN - 53)) with 0
      by (unfold fexp, emin, Number.prec, Number.emax; unfold dN; lia).
    cbn [shr shr_record_of_loc shr_m].
    assert (Le : (dN - 53 <=? Number.emax - Number.prec) = true)
      by (apply Z.leb_le; unfold Number.emax, Number.prec; lia).
    rewrite Le. reflexivity.
  - rewrite B. do 2 f_equal. lia.
Qed.

(** Reading back the integer a binary64 value was made from. *)
Lemma toInt_ofInt (k : Z) : 0 <= k < 2 ^ 53 -> Number.toInt (Number.ofInt k) = k.
Proof.
  intros H. destruct k as [|N|N]; [reflexivity| |lia].
  destruct (ofInt_finite N) as (my & ey & A & B & C & D); [lia|].
  rewrite A. unfold Number.toInt.
  pose proof (digits_le N 53 ltac:(lia)).
  rewrite floor_finite by lia. rewrite D.
  apply Z.div_mul. apply Z.pow_nonzero; lia.
Qed.

Lemma add_zero (v : spec_float) :
  v <> S754_zero true -> Number.add v (S754_zero false) = v.
Proof.
  destruct v as [[|]| | |]; intros H; try reflexivity. congruence.
Qed.

Lemma sub_zero (v : spec_float) : Number.sub v (S754_zero false) = v.
Proof. destruct v as [[|]| | |]; reflexivity. Qed.

(** [randomInt(0, n)] on a value [Math.random()] may return, for an
    integer [0 < n < 2^52]: an integer [k] with [0 <= k < n], exactly. *)
Lemma randomInt_from_zero (r : spec_float) (n : Z) :
  Number.isRandom r = true -> 0 < n < 2 ^ 52 ->
  exists k, 0 <= k < n /\ randomInt r 0 n = Number.ofInt k.
Proof.
  intros Hr Hn. destruct n as [|N|N]; try lia.
  assert (N53 : Z.pos N < 2 ^ 53)
    by (change (2 ^ 53) with (2 * 2 ^ 52); lia).
  destruct (ofInt_finite N N53) as (my & ey & A & B & C & D).
  unfold randomInt. change (Number.ofInt 0) with (S754_zero false).
  rewrite A. rewrite sub_zero.
  assert (Zero : exists k, 0 <= k < Z.pos N /\
            Number.add (S754_zero false) (S754_zero false) = Number.ofInt k)
    by (exists 0; split; [lia | reflexivity]).
  destruct r as [[|]| | |[|] m e]; try discriminate Hr.
  - exact Zero.
  - destruct (isRandom_finite m e Hr) as (He & Hm).
    assert (Hey : -52 <= ey <= -1).
    { pose proof (digits_le N 52 ltac:(lia)).
      pose proof (Pos2Z.is_pos (digits2_pos N)). lia. }
    destruct (mul_floor_below m e my ey (Z.pos N) He Hm B Hey D) as (Sh & Fl).
    cbv zeta in Sh, Fl.
    destruct Sh as [-> | (m' & e' & Eq)]; [exact Zero|].
    rewrite Eq in *. cbn [Math.floor].
    exists (Number.floor (S754_finite false m' e')). split; [exact Fl|].
    apply add_zero.
    destruct (Number.floor (S754_finite false m' e')) as [|q|q];
      [discriminate| |lia].
    destruct (ofInt_finite q) as (mq & eq & Aq & _); [lia|].
    rewrite Aq. discriminate.
Qed.

(** The calls the script makes: [randomInt(0, GRID_SIZE)] is an integer of
    the grid. *)
Lemma randomInt_grid (r : spec_float) :
  Number.isRandom r = true ->
  0 <= Number.toInt (randomInt r 0 GRID_SIZE) < GRID_SIZE.
Proof.
  intros H.
  destruct (randomInt_from_zero r GRID_SIZE H) as (k & K & ->);
    [unfold GRID_SIZE; split; reflexivity|].
  rewrite toInt_ofInt; [exact K|].
  unfold GRID_SIZE in K. change (2 ^ 53) with 9007199254740992. lia.
Qed.

Lemma drawCell_inBounds (h : Host) (n : nat) :
  validTape h -> inBounds (drawCell h n).
Proof.
  intros V. unfold inBounds, drawCell. cbn [x y].
  split; apply randomInt_grid; apply V.
Qed.

Lemma drawCell_advance (h : Host) (m n : nat) :
  drawCell (advanceRandom m h) n = drawCell h n.
Proof. reflexivity. Qed.

(** What a returning call of [getRandomEmptyCell] gives: a cell drawn from
    the tape that is not excluded; the host changes in its read position
    only. *)
Lemma getRandomEmptyCell_sound (fuel : nat) (exclusions : list Cell) :
  forall (h h' : Host) (pos : Cell),
    getRandomEmptyCell fuel exclusions h = Some (pos, h') ->
    excluded exclusions pos = false /\
    (exists n, pos = drawCell h n) /\
    mathRandom h' = mathRandom h /\
    intervals h' = intervals h /\
    nextHandle h' = nextHandle h.
Proof.
  induction fuel as [|fuel IH]; intros h h' pos; simpl; [discriminate|].
  fold (excluded exclusions (drawCell h (randomCalls h))).
  destruct (excluded exclusions (drawCell h (randomCalls h))) eqn:E; simpl.
  - intros H. apply IH in H. destruct H as [A [[n B] [C [D F]]]].
    repeat split; auto. exists n. exact B.
  - intros H. injection H as <- <-. repeat split; auto.
    exists (randomCalls h). reflexivity.
Qed.

Lemma getRandomEmptyCell_complete (fuel : nat) (exclusions : list Cell) :
  forall h : Host,
    findsFree fuel exclusions h ->
    exists pos h', getRandomEmptyCell fuel exclusions h = Some (pos, h').
Proof.
  induction fuel as [|fuel IH]; intros h [k [Hk E]]; [lia|]. simpl.
  fold (excluded exclusions (drawCell h (randomCalls h))).
  destruct (excluded exclusions (drawCell h (randomCalls h))) eqn:E0; simpl.
  - apply IH. destruct k as [|k].
    + rewrite Nat.mul_0_r, Nat.add_0_r in E. congruence.
    + exists k. split; [lia|]. simpl randomCalls. rewrite drawCell_advance.
      replace (S (S (randomCalls h)) + 2 * k)%nat
        with (randomCalls h + 2 * S k)%nat by lia.
      exact E.
  - eauto.
Qed.

(** ** The speed curve on binary64 *)

(** On every interval from 0 to 200 ms the binary64 product, floored, is
    the floor of the exact product with the decimal factor. *)
Lemma floor_mul_exact (d : Difficulty) (pct t : Z) :
  In (d, pct) percentages -> 0 <= t <= 200 ->
  scaled d t = t * pct / 100.
Proof.
  intros Hd Ht.
  assert (Hall : forallb (fun dp => forallb (fun t => scaled (fst dp) t =? t * snd dp / 100)
                                            intervalRange) percentages = true)
    by (vm_compute; reflexivity).
  rewrite forallb_forall in Hall. specialize (Hall _ Hd). cbn [fst snd] in Hall.
  rewrite forallb_forall in Hall. apply Z.eqb_eq. apply Hall.
  unfold intervalRange. apply in_map_iff. exists (Z.to_nat t).
  split; [lia|]. apply in_seq. lia.
Qed.

Lemma presets_percentages (d : Difficulty) :
  In d presets -> exists pct, In (d, pct) percentages /\ 0 <= pct <= 100.
Proof.
  unfold presets, percentages. simpl.
  intros [<-|[<-|[<-|[<-|[<-|[]]]]]];
    [exists 92 | exists 94 | exists 92 | exists 90 | exists 88];
    (split; [tauto | lia]).
Qed.

Lemma presets_shape (d : Difficulty) :
  In d presets ->
  0 < minTickMs d <= initialSpeedMs d /\ initialSpeedMs d <= 200 /\
  0 < speedupFoodInterval d.
Proof.
  unfold presets. simpl.
  intros [<-|[<-|[<-|[<-|[<-|[]]]]]]; simpl; lia.
Qed.

Lemma scaled_le (d : Difficulty) (t : Z) :
  In d presets -> 0 <= t <= 200 -> 0 <= scaled d t <= t.
Proof.
  intros Hd Ht. destruct (presets_percentages d Hd) as [pct [Hp Hr]].
  rewrite (floor_mul_exact d pct t Hp Ht). split.
  - apply Z.div_pos; nia.
  - apply Z.div_le_upper_bound; nia.
Qed.

Lemma ownProperty_presets (key : string) (d : Difficulty) :
  ownProperty DIFFICULTIES key = Some d -> In d presets.
Proof.
  unfold presets, DIFFICULTIES. cbn [ownProperty map snd].
  destruct (String.eqb "easy" key);
    [intros H; injection H as <-; right; left; reflexivity|].
  destruct (String.eqb "normal" key);
    [intros H; injection H as <-; right; right; left; reflexivity|].
  destruct (String.eqb "hard" key);
    [intros H; injection H as <-; do 3 right; left; reflexivity|].
  destruct (String.eqb "insane" key);
    [intros H; injection H as <-; do 4 right; left; reflexivity|].
  discriminate.
Qed.

(** ** Clock *)

Lemma clockOk_singleTimer (s : State) : clockOk s -> singleTimer s.
Proof.
  unfold clockOk, singleTimer. destruct (loopId s); eauto.
Qed.

Lemma startLoop_clock (s : State) :
  singleTimer s ->
  loopId (startLoop s) = Some (nextHandle (host s)) /\
  intervals (host (startLoop s)) = [(nextHandle (host s), tickMs s)].
Proof.
  unfold singleTimer, startLoop. open_state s.
  destruct loopId0 as [id|]; cbn.
  - intros [period ->]. cbn. rewrite Pos.eqb_refl. cbn. auto.
  - intros ->. auto.
Qed.

Lemma stopLoop_clock (s : State) :
  singleTimer s ->
  loopId (stopLoop s) = None /\ intervals (host (stopLoop s)) = [].
Proof.
  unfold singleTimer, stopLoop. open_state s.
  destruct loopId0 as [id|]; cbn.
  - intros [period ->]. cbn. rewrite Pos.eqb_refl. cbn. auto.
  - intros ->. auto.
Qed.

Lemma sameBoard_refl (s : State) : sameBoard s s.
Proof. unfold sameBoard. tauto. Qed.

Lemma sameBoard_trans (a b c : State) :
  sameBoard a b -> sameBoard b c -> sameBoard a c.
Proof.
  unfold sameBoard. intros H1 H2.
  destruct H1 as (A1 & A2 & A3 & A4 & A5 & A6 & A7 & A8 & A9).
  destruct H2 as (B1 & B2 & B3 & B4 & B5 & B6 & B7 & B8 & B9).
  repeat split; congruence.
Qed.

Lemma startLoop_frame (s : State) :
  sameBoard s (startLoop s) /\ score (startLoop s) = score s /\
  best (startLoop s) = best s /\ tickMs (startLoop s) = tickMs s.
Proof.
  unfold sameBoard, startLoop. open_state s.
  destruct loopId0; cbn; tauto.
Qed.

Lemma stopLoop_frame (s : State) :
  sameBoard s (stopLoop s) /\ score (stopLoop s) = score s /\
  best (stopLoop s) = best s /\ tickMs (stopLoop s) = tickMs s.
Proof.
  unfold sameBoard, stopLoop. open_state s.
  destruct loopId0; cbn; tauto.
Qed.

Lemma updateScore_frame (delta : Z) (s : State) :
  sameBoard s (updateScore delta s) /\
  score (updateScore delta s) = score s + delta /\
  best (updateScore delta s) = Z.max (best s) (score s + delta) /\
  tickMs (updateScore delta s) = tickMs s /\
  loopId (updateScore delta s) = loopId s /\
  host (updateScore delta s) = host s.
Proof.
  unfold sameBoard, updateScore. open_state s. cbn.
  destruct (Z.ltb_spec best0 (score0 + delta)); cbn;
    repeat split; try reflexivity; lia.
Qed.

(** [maybeSpeedUp] as a function of the score: the interval is replaced by
    [max(minTickMs, floor(tickMs * speedupFactor))] when the score is a
    positive multiple of [speedupFoodInterval], and kept otherwise. *)
Lemma maybeSpeedUp_tickMs (s : State) :
  tickMs (maybeSpeedUp s) =
  if (0 <? score s) && (Z.rem (score s) (speedupFoodInterval (difficulty s)) =? 0)
  then Z.max (minTickMs (difficulty s)) (scaled (difficulty s) (tickMs s))
  else tickMs s.
Proof.
  unfold maybeSpeedUp. fold (scaled (difficulty s) (tickMs s)).
  destruct ((0 <? score s) &&
            (Z.rem (score s) (speedupFoodInterval (difficulty s)) =? 0));
    [|reflexivity].
  destruct (Z.eqb_spec (Z.max (minTickMs (difficulty s))
                              (scaled (difficulty s) (tickMs s))) (tickMs s)) as [E|E];
    cbn [negb].
  - symmetry. exact E.
  - destruct (startLoop_frame
                (set_tickMs (Z.max (minTickMs (difficulty s))
                                   (scaled (difficulty s) (tickMs s))) s))
      as (_ & _ & _ & ->). reflexivity.
Qed.

Lemma maybeSpeedUp_frame (s : State) :
  sameBoard s (maybeSpeedUp s) /\ score (maybeSpeedUp s) = score s /\
  best (maybeSpeedUp s) = best s.
Proof.
  unfold maybeSpeedUp.
  destruct ((0 <? score s) &&
            (Z.rem (score s) (speedupFoodInterval (difficulty s)) =? 0));
    [|split; [apply sameBoard_refl | tauto]].
  match goal with |- context [negb ?b] => destruct b end; cbn [negb];
    [split; [apply sameBoard_refl | tauto]|].
  match goal with |- context [startLoop ?t] =>
    destruct (startLoop_frame t) as (A & B & C & _) end.
  split; [|split].
  - eapply sameBoard_trans; [|exact A]. unfold sameBoard. open_state s. cbn. tauto.
  - rewrite B. reflexivity.
  - rewrite C. reflexivity.
Qed.

Lemma maybeSpeedUp_clock (s : State) :
  clockOk s -> clockOk (maybeSpeedUp s) /\
  (loopId s <> None -> loopId (maybeSpeedUp s) <> None) /\
  (loopId s = None -> tickMs (maybeSpeedUp s) = tickMs s -> loopId (maybeSpeedUp s) = None).
Proof.
  intros C. unfold maybeSpeedUp.
  destruct ((0 <? score s) &&
            (Z.rem (score s) (speedupFoodInterval (difficulty s)) =? 0));
    [|tauto].
  match goal with |- context [negb ?b] => destruct b eqn:E end; cbn [negb];
    [tauto|].
  match goal with |- context [startLoop ?t] =>
    destruct (startLoop_clock t) as (A & B);
    [|destruct (startLoop_frame t) as (_ & _ & _ & T)] end.
  - apply clockOk_singleTimer in C. revert C. unfold singleTimer.
    open_state s. cbn. auto.
  - split; [|split].
    + unfold clockOk. rewrite A, B, T. reflexivity.
    + rewrite A. discriminate.
    + intros _. rewrite T. cbn. intros E'. rewrite E' in E.
      rewrite Z.eqb_refl in E. discriminate.
Qed.

(** ** One tick of a running game *)

Lemma outOfBounds_spec (c : Cell) : outOfBounds c = false <-> inBounds c.
Proof.
  unfold outOfBounds, inBounds, GRID_SIZE.
  rewrite !orb_false_iff, !Z.ltb_ge, !Z.geb_leb, !Z.leb_gt. lia.
Qed.

Lemma outOfBounds_true (c : Cell) : outOfBounds c = true <-> ~ inBounds c.
Proof.
  rewrite <- outOfBounds_spec. destruct (outOfBounds c); split; congruence.
Qed.

(** The body of [tick] once the guard has passed and both array reads have
    succeeded. *)
Lemma tick_running (fuel : nat) (s : State) (head dir : Cell) (body rest : list Cell) :
  isPaused s = false -> isGameOver s = false ->
  snake s = head :: body -> directionQueue s = dir :: rest ->
  let s1 := set_directionQueue (shifted (directionQueue s)) s in
  let nextHead := mkCell (x head + x dir) (y head + y dir) in
  tick fuel s =
  if outOfBounds nextHead || hitsBody nextHead (snake s)
  then Done (gameOver s1)
  else if positionsEqual nextHead (food s)
  then
    let s3 := maybeSpeedUp (updateScore 1 (set_snake (nextHead :: snake s) s1)) in
    match getRandomEmptyCell fuel (nextHead :: snake s) (host s3) with
    | None => Spins
    | Some (pos, h) => Done (set_food pos (set_host h s3))
    end
  else Done (set_snake (nextHead :: removelast (snake s)) s1).
Proof.
  intros P G Hs Hq s1 nextHead. unfold tick. rewrite P, G. cbn [orb]. cbv zeta.
  assert (E1 : (if 1 <? Z.of_nat (List.length (directionQueue s))
                then set_directionQueue (tl (directionQueue s)) s else s) = s1).
  { subst s1. rewrite Hq. destruct rest as [|d2 rest].
    - open_state s. subst. reflexivity.
    - replace (1 <? Z.of_nat (List.length (dir :: d2 :: rest))) with true
        by (symmetry; apply Z.ltb_lt; cbn [List.length]; lia).
      reflexivity. }
  rewrite E1.
  assert (E2 : snake s1 = head :: body) by (subst s1; exact Hs).
  assert (E3 : food s1 = food s) by reflexivity.
  rewrite E2, Hq. cbn [nth_error]. fold nextHead.
  change ((x nextHead <? 0) || (y nextHead <? 0) || (x nextHead >=? GRID_SIZE)
          || (y nextHead >=? GRID_SIZE)) with (outOfBounds nextHead).
  rewrite Hs.
  destruct (outOfBounds nextHead); cbn [orb]; [reflexivity|].
  destruct (hitsBody nextHead (head :: body)); [reflexivity|].
  change (food (set_snake (nextHead :: head :: body) s1)) with (food s).
  destruct (positionsEqual nextHead (food s)).
  - match goal with |- context [maybeSpeedUp ?u] =>
      destruct (maybeSpeedUp_frame u) as ((-> & _) & _) end.
    match goal with |- context [updateScore 1 ?u] =>
      destruct (updateScore_frame 1 u) as ((-> & _) & _) end.
    reflexivity.
  - reflexivity.
Qed.

(** ** Reset *)

Lemma validTape_ext (h h' : Host) :
  mathRandom h' = mathRandom h -> validTape h -> validTape h'.
Proof. unfold validTape. intros ->. auto. Qed.

(** Everything a returning [resetGame] has written. *)
Lemma resetGame_done (fuel : nat) (s s' : State) :
  resetGame fuel s = Done s' ->
  snake s' = [mkCell 10 10; mkCell 9 10; mkCell 8 10] /\
  directionQueue s' = [mkCell 1 0] /\
  (exists h, getRandomEmptyCell fuel (snake s') (host s) = Some (food s', h)) /\
  score s' = 0 /\
  best s' = Z.max (best s) 0 /\
  tickMs s' = initialSpeedMs (difficulty s) /\
  isPaused s' = false /\
  isGameOver s' = false /\
  difficulty s' = difficulty s /\
  difficultyKey s' = difficultyKey s /\
  mathRandom (host s') = mathRandom (host s) /\
  (singleTimer s ->
   loopId s' = Some (nextHandle (host s)) /\
   intervals (host s') = [(nextHandle (host s), initialSpeedMs (difficulty s))]).
Proof.
  unfold singleTimer, resetGame, updateScore, startLoop, setInterval, clearInterval.
  open_state s. proj_simpl.
  change (GRID_SIZE / 2) with 10. change (10 - 1) with 9. change (10 - 2) with 8.
  destruct (getRandomEmptyCell fuel _ _) as [[pos h]|] eqn:E; [|discriminate].
  destruct (getRandomEmptyCell_sound _ _ _ _ _ E) as (_ & _ & R & I & N).
  cbn [mathRandom intervals nextHandle] in R, I, N.
  proj_simpl. rewrite Z.add_0_r.
  destruct (Z.ltb_spec best0 0) as [L|L]; proj_simpl;
    destruct loopId0 as [id|]; proj_simpl;
    intros H; injection H as <-; proj_simpl;
    (repeat split; try reflexivity; try lia; eauto);
    rewrite ?N, ?I; try reflexivity;
    match goal with
    | H : exists _, _ = _ |- _ =>
        destruct H as [period ->]; cbn [filter fst]; rewrite Pos.eqb_refl;
        reflexivity
    | H : _ = [] |- _ => rewrite H; reflexivity
    end.
Qed.

Lemma resetGame_inv (fuel : nat) (s s' : State) :
  In (difficulty s) presets -> singleTimer s ->
  resetGame fuel s = Done s' -> Inv s'.
Proof.
  intros Hd Ht H.
  destruct (resetGame_done _ _ _ H)
    as (A & B & (h & C) & D & E & F & G & I & J & K & L & M).
  destruct (M Ht) as [M1 M2].
  destruct (getRandomEmptyCell_sound _ _ _ _ _ C) as (C1 & (n & C2) & _).
  destruct (presets_shape _ Hd) as (P1 & P2 & P3).
  constructor.
  - rewrite A. discriminate.
  - rewrite B. discriminate.
  - rewrite B. exact Logic.I.
  - apply excluded_false. exact C1.
  - intros V. rewrite C2. apply drawCell_inBounds.
    eapply validTape_ext; [|exact V]. symmetry. exact L.
  - rewrite J. exact Hd.
  - rewrite J, F. lia.
  - rewrite D. lia.
  - unfold clockOk. rewrite M1, M2, F. reflexivity.
  - rewrite M1, G, I. split; discriminate.
Qed.

(** ** The direction queue *)

Lemma lastQueuedOf_snoc (queue : list Cell) (d : Cell) :
  lastQueuedOf (queue ++ [d]) = Some d.
Proof.
  unfold lastQueuedOf. destruct (queue ++ [d]) eqn:E.
  - destruct queue; discriminate.
  - rewrite <- E. rewrite length_app. cbn [List.length].
    replace (List.length queue + 1 - 1)%nat with (List.length queue) by lia.
    rewrite nth_error_app2 by lia. rewrite Nat.sub_diag. reflexivity.
Qed.

Lemma noReversal_snoc (queue : list Cell) (l d : Cell) :
  noReversal (queue ++ [l]) -> ~ opposite l d -> noReversal ((queue ++ [l]) ++ [d]).
Proof.
  induction queue as [|a queue IH]; intros H N.
  - cbn. tauto.
  - destruct queue as [|b queue].
    + cbn in *. tauto.
    + cbn [app noReversal] in *. destruct H as [H1 H2]. split; [exact H1|].
      apply IH; assumption.
Qed.

Lemma noReversal_shifted (queue : list Cell) :
  noReversal queue -> noReversal (shifted queue).
Proof.
  destruct queue as [|a [|b queue]]; cbn [shifted]; auto.
  intros [_ H]. exact H.
Qed.

Lemma shifted_nonempty (queue : list Cell) : queue <> [] -> shifted queue <> [].
Proof.
  destruct queue as [|a [|b queue]]; cbn [shifted]; congruence.
Qed.

Lemma shifted_Forall (P : Cell -> Prop) (queue : list Cell) :
  Forall P queue -> Forall P (shifted queue).
Proof.
  destruct queue as [|a [|b queue]]; cbn [shifted]; auto.
  intros H. inversion H. assumption.
Qed.

Lemma opposite_dec (a b : Cell) :
  (x a + x b =? 0) && (y a + y b =? 0) = true <-> opposite a b.
Proof.
  unfold opposite. rewrite andb_true_iff, !Z.eqb_eq. tauto.
Qed.

(** [queueDirection] case by case. *)
Lemma queueDirection_cases (next : Cell) (s : State) :
  (directionQueue s = [] ->
   queueDirection next s = set_directionQueue [next] s) /\
  (forall queue l, directionQueue s = queue ++ [l] -> opposite l next ->
                   queueDirection next s = s) /\
  (forall queue l, directionQueue s = queue ++ [l] -> ~ opposite l next ->
                   queueDirection next s =
                   set_directionQueue (directionQueue s ++ [next]) s).
Proof.
  unfold queueDirection. split; [|split].
  - intros ->. reflexivity.
  - intros queue l -> Ho. rewrite lastQueuedOf_snoc.
    apply opposite_dec in Ho. rewrite Ho. reflexivity.
  - intros queue l -> Ho. rewrite lastQueuedOf_snoc.
    destruct ((x l + x next =? 0) && (y l + y next =? 0)) eqn:E; [|reflexivity].
    apply opposite_dec in E. contradiction.
Qed.

Lemma unitVector_nonzero (d : Cell) : unitVector d -> d <> mkCell 0 0.
Proof. intros [-> | [-> | [-> | ->]]]; discriminate. Qed.

Lemma set_directionQueue_inv (queue : list Cell) (s : State) :
  Inv s -> queue <> [] -> noReversal queue ->
  Inv (set_directionQueue queue s).
Proof.
  intros [] Hn Hr. constructor; proj_simpl; assumption.
Qed.

Lemma queueDirection_inv (next : Cell) (s : State) :
  Inv s -> Inv (queueDirection next s).
Proof.
  intros HI. destruct (queueDirection_cases next s) as (A & B & C).
  destruct (exists_last (inv_queue s HI)) as (queue & l & E).
  assert (D : opposite l next \/ ~ opposite l next).
  { rewrite <- opposite_dec.
    destruct ((x l + x next =? 0) && (y l + y next =? 0)); [left|right]; congruence. }
  destruct D as [D|D].
  - rewrite (B _ _ E D). exact HI.
  - rewrite (C _ _ E D). apply set_directionQueue_inv; [exact HI| |].
    + destruct (directionQueue s); discriminate.
    + rewrite E. apply noReversal_snoc; [|exact D].
      rewrite <- E. apply (inv_noReversal s HI).
Qed.

(** ** Invariant *)

Lemma Inv_transfer (s s' : State) :
  Inv s ->
  snake s' = snake s -> directionQueue s' = directionQueue s ->
  food s' = food s -> difficulty s' = difficulty s ->
  mathRandom (host s') = mathRandom (host s) ->
  score s' = score s -> tickMs s' = tickMs s -> clockOk s' ->
  (loopId s' = None <-> isPaused s' || isGameOver s' = true) ->
  Inv s'.
Proof.
  intros [] A1 A2 A3 A6 A8 B C D E.
  constructor; rewrite ?A1, ?A2, ?A3, ?A6, ?B, ?C; try assumption.
  intros V. apply inv_food_bounds0. eapply validTape_ext; [|exact V].
  symmetry. exact A8.
Qed.

Lemma togglePause_inv (s : State) : Inv s -> Inv (togglePause s).
Proof.
  intros HI. unfold togglePause.
  destruct (isGameOver s) eqn:G; [exact HI|].
  change (isPaused (set_isPaused (negb (isPaused s)) s)) with (negb (isPaused s)).
  pose proof (clockOk_singleTimer s (inv_clock s HI)) as T.
  destruct (isPaused s) eqn:P; cbn [negb].
  - destruct (startLoop_frame (set_isPaused false s)) as (F & F1 & F2 & F3).
    destruct (startLoop_clock (set_isPaused false s) T) as (K1 & K2).
    board F. proj_simpl.
    apply (Inv_transfer s); auto.
    + unfold clockOk. rewrite K1, K2, F3. reflexivity.
    + rewrite K1, B4, B5, G. cbn. split; discriminate.
  - destruct (stopLoop_frame (set_isPaused true s)) as (F & F1 & F2 & F3).
    destruct (stopLoop_clock (set_isPaused true s) T) as (K1 & K2).
    board F. proj_simpl.
    apply (Inv_transfer s); auto.
    + unfold clockOk. rewrite K1, K2. reflexivity.
    + rewrite K1, B4. cbn. tauto.
Qed.

Lemma resume_inv (s : State) : Inv s -> Inv (resume s).
Proof.
  intros HI. unfold resume.
  destruct (negb (isPaused s) || isGameOver s); [exact HI|].
  apply togglePause_inv. exact HI.
Qed.

Lemma gameOver_inv (s : State) : Inv s -> Inv (gameOver s).
Proof.
  intros HI. unfold gameOver.
  pose proof (clockOk_singleTimer s (inv_clock s HI)) as T.
  destruct (stopLoop_frame (set_isGameOver true s)) as (F & F1 & F2 & F3).
  destruct (stopLoop_clock (set_isGameOver true s) T) as (K1 & K2).
  board F. proj_simpl.
  apply (Inv_transfer s); auto.
  - unfold clockOk. rewrite K1, K2. reflexivity.
  - rewrite K1, B5. rewrite orb_true_r. tauto.
Qed.

Lemma shift_inv (s : State) :
  Inv s -> Inv (set_directionQueue (shifted (directionQueue s)) s).
Proof.
  intros HI. apply set_directionQueue_inv; [exact HI| |].
  - apply shifted_nonempty, (inv_queue s HI).
  - apply noReversal_shifted, (inv_noReversal s HI).
Qed.

Lemma tick_inv (fuel : nat) (s s' : State) :
  Inv s -> tick fuel s = Done s' -> Inv s'.
Proof.
  intros HI H.
  destruct (isPaused s || isGameOver s) eqn:PG.
  { unfold tick in H. rewrite PG in H. injection H as <-. exact HI. }
  apply orb_false_iff in PG. destruct PG as [P G].
  destruct (snake s) as [|head body] eqn:Hs; [destruct (inv_snake s HI Hs)|].
  destruct (directionQueue s) as [|dir rest] eqn:Hq; [destruct (inv_queue s HI Hq)|].
  rewrite (tick_running fuel s head dir body rest P G Hs Hq) in H.
  cbv zeta in H.
  pose proof (shift_inv s HI) as HI1.
  set (s1 := set_directionQueue (shifted (directionQueue s)) s) in *.
  set (nextHead := mkCell (x head + x dir) (y head + y dir)) in *.
  destruct (outOfBounds nextHead || hitsBody nextHead (snake s)) eqn:C.
  { injection H as <-. apply gameOver_inv. exact HI1. }
  apply orb_false_iff in C. destruct C as [C1 C2].
  destruct (positionsEqual nextHead (food s)) eqn:F.
  - set (s2 := updateScore 1 (set_snake (nextHead :: snake s) s1)) in *.
    destruct (getRandomEmptyCell fuel _ _) as [[pos h]|] eqn:E; [|discriminate].
    injection H as <-.
    destruct (getRandomEmptyCell_sound _ _ _ _ _ E) as (E1 & (n & E2) & E3 & E4 & E5).
    destruct (updateScore_frame 1 (set_snake (nextHead :: snake s) s1))
      as (U & U1 & U2 & U3 & U4 & U5).
    fold s2 in U, U1, U2, U3, U4, U5. board U.
    destruct (maybeSpeedUp_frame s2) as (M & M1 & M2). board M.
    pose proof (maybeSpeedUp_tickMs s2) as MT.
    assert (CK : clockOk s2).
    { unfold clockOk. rewrite U5, U4, U3. exact (inv_clock s HI). }
    destruct (maybeSpeedUp_clock s2 CK) as (MC1 & MC2 & _).
    clearbody s2. subst s1. proj_simpl.
    destruct (presets_shape _ (inv_preset s HI)) as (P1 & P2 & P3).
    pose proof (inv_tick s HI) as IT.
    constructor; proj_simpl.
    + rewrite B0, B1. discriminate.
    + rewrite B10, B2. apply (inv_queue _ HI1).
    + rewrite B10, B2. apply (inv_noReversal _ HI1).
    + rewrite B0, B1. apply excluded_false. exact E1.
    + intros V. rewrite E2. apply drawCell_inBounds.
      eapply validTape_ext; [|exact V]. symmetry. exact E3.
    + rewrite B14, B6. apply (inv_preset s HI).
    + rewrite B14, B6. rewrite MT, B6, U3. proj_simpl.
      match goal with |- context [if ?b then _ else _] => destruct b end;
        [|exact IT].
      pose proof (scaled_le (difficulty s) (tickMs s) (inv_preset s HI)) as SL.
      lia.
    + rewrite M1, U1. pose proof (inv_score s HI). proj_simpl. lia.
    + unfold clockOk. proj_simpl. rewrite E4. exact MC1.
    + rewrite B12, B4, B13, B5. proj_simpl. rewrite P, G. cbn.
      split; [|discriminate]. intros L. exfalso. revert L. apply MC2.
      rewrite U4. proj_simpl. intros L. apply (inv_loop s HI) in L.
      rewrite P, G in L. discriminate.
  - injection H as <-. destruct HI1. constructor; proj_simpl; try assumption.
    + discriminate.
    + intros [L|L].
      * apply positionsEqual_neq in F. exact (F L).
      * apply removelast_In in L. apply (inv_food s HI). exact L.
Qed.

Lemma keyToDir_unit (key : string) (d : Cell) :
  keyToDir key = Some d -> unitVector d.
Proof.
  unfold keyToDir, unitVector.
  repeat match goal with
         | |- context [if ?b then _ else _] => destruct b
         end;
    intros H; try discriminate; injection H as <-; tauto.
Qed.

Lemma dirStringToVector_unit (dir : string) :
  In dir DPAD_DIRS -> unitVector (dirStringToVector dir).
Proof.
  unfold DPAD_DIRS, unitVector.
  intros [<- | [<- | [<- | [<- | []]]]]; cbv; tauto.
Qed.

Lemma lookupDifficulty_presets (key : string) (d : Difficulty) :
  lookupDifficulty DIFFICULTIES key = Own d -> In d presets.
Proof.
  unfold lookupDifficulty.
  destruct (ownProperty DIFFICULTIES key) as [d'|] eqn:E.
  - intros H. injection H as <-. exact (ownProperty_presets key d' E).
  - destruct (existsb _ _); discriminate.
Qed.

Lemma lookupDifficulty_normal : lookupDifficulty DIFFICULTIES "normal" = Own NORMAL.
Proof. vm_compute. reflexivity. Qed.

(** A returning [setDifficultyFromKey] has stored a key of the table with
    its preset: the key given, or ["normal"] for a key that reads
    [undefined]. *)
Lemma setDifficultyFromKey_cases (key : string) (s s1 : State) :
  setDifficultyFromKey key s = Some s1 ->
  exists k d,
    lookupDifficulty DIFFICULTIES k = Own d /\
    s1 = set_difficulty d (set_difficultyKey k s) /\
    (k = key \/
     lookupDifficulty DIFFICULTIES key = Undefined /\
     k = "normal"%string /\ d = NORMAL).
Proof.
  unfold setDifficultyFromKey.
  destruct (lookupDifficulty DIFFICULTIES key) as [d| |] eqn:E.
  - rewrite E. intros H. injection H as <-. exists key, d. auto.
  - rewrite E. discriminate.
  - rewrite lookupDifficulty_normal. intros H. injection H as <-.
    exists "normal"%string, NORMAL.
    split; [exact lookupDifficulty_normal|]. auto.
Qed.

Lemma setDifficultyFromKey_own (key : string) (d : Difficulty) (s : State) :
  lookupDifficulty DIFFICULTIES key = Own d ->
  setDifficultyFromKey key s = Some (set_difficulty d (set_difficultyKey key s)).
Proof. intros E. unfold setDifficultyFromKey. rewrite E, E. reflexivity. Qed.

Lemma setDifficultyFromKey_frame (key : string) (s s1 : State) :
  setDifficultyFromKey key s = Some s1 ->
  In (difficulty s1) presets /\
  loopId s1 = loopId s /\
  host s1 = host s /\
  best s1 = best s.
Proof.
  intros H.
  destruct (setDifficultyFromKey_cases key s s1 H) as (k & d & L & -> & _).
  proj_simpl. split; [|auto].
  exact (lookupDifficulty_presets k d L).
Qed.

Lemma step_inv (fuel : nat) (e : Event) (s s' : State) :
  Inv s -> step fuel e s = Done s' -> Inv s'.
Proof.
  intros HI H.
  assert (R : forall t, resetGame fuel s = Done t -> Inv t).
  { intros t. apply resetGame_inv; [apply (inv_preset s HI)|].
    apply clockOk_singleTimer, (inv_clock s HI). }
  destruct e as [key|[dir|]| | | | |onOverlay|newKey|handle]; cbn [step] in H.
  - destruct (_ || _) in H.
    + injection H as <-. apply togglePause_inv, HI.
    + destruct (keyToDir (toLowerCase key)) as [d|] eqn:K; injection H as <-.
      * apply queueDirection_inv, HI.
      * exact HI.
  - destruct (String.eqb dir EmptyString); injection H as <-; [exact HI|].
    apply queueDirection_inv, HI.
  - injection H as <-. exact HI.
  - injection H as <-. apply togglePause_inv, HI.
  - apply R, H.
  - injection H as <-. apply resume_inv, HI.
  - apply R, H.
  - destruct (_ && _) in H; injection H as <-; [apply resume_inv|]; exact HI.
  - destruct (setDifficultyFromKey newKey s) as [s1|] eqn:K; [|discriminate H].
    destruct (setDifficultyFromKey_frame newKey s s1 K) as (A & B & C & _).
    eapply resetGame_inv; [exact A| |exact H].
    unfold singleTimer. rewrite B, C.
    apply clockOk_singleTimer, (inv_clock s HI).
  - destruct (registered handle (host s)).
    + eapply tick_inv; eassumption.
    + injection H as <-. exact HI.
Qed.

Lemma reachableVia_inv (ok : Event -> Prop) (s : State) :
  reachableVia ok s -> Inv s.
Proof.
  induction 1 as [fuel h b key s Hh H|fuel h b s Hh H|fuel e s s' _ IH He H].
  - unfold init in H.
    destruct (setDifficultyFromKey key (set_best b (loaded h))) as [s1|] eqn:K;
      [|discriminate H].
    destruct (setDifficultyFromKey_frame key _ s1 K) as (A & B & C & _).
    eapply resetGame_inv; [exact A| |exact H].
    unfold singleTimer. rewrite B, C. exact Hh.
  - unfold init_main in H.
    eapply resetGame_inv; [| |exact H].
    + cbn. tauto.
    + exact Hh.
  - eapply step_inv; eassumption.
Qed.

Lemma reachable_inv (s : State) : reachable s -> Inv s.
Proof. apply reachableVia_inv. Qed.

Lemma reachableVia_weaken (ok ok' : Event -> Prop) (s : State) :
  (forall e, ok e -> ok' e) -> reachableVia ok s -> reachableVia ok' s.
Proof.
  intros W. induction 1 as [fuel h b key s Hh H|fuel h b s Hh H|fuel e s s' _ IH He H].
  - eapply reach_init; eassumption.
  - eapply reach_init_main; eassumption.
  - eapply reach_step; [exact IH | apply W, He | exact H].
Qed.

Lemma onPage_reachable (s : State) : onPage s -> reachable s.
Proof. apply reachableVia_weaken. intros e _. exact I. Qed.

Lemma reachableVia_run (ok : Event -> Prop) (fuel : nat) (es : list Event) :
  forall s s', reachableVia ok s -> Forall ok es ->
               run fuel es s = Done s' -> reachableVia ok s'.
Proof.
  induction es as [|e es IH]; intros s s' R F H; cbn [run] in H.
  - injection H as <-. exact R.
  - inversion F as [|? ? Fe Fes]; subst.
    destruct (step fuel e s) as [t| | |] eqn:E; try discriminate.
    eapply IH; [|exact Fes|exact H].
    eapply reach_step; eassumption.
Qed.

(** ** A tick that does not collide *)

Lemma findsFree_ext (fuel : nat) (exclusions : list Cell) (h h' : Host) :
  mathRandom h' = mathRandom h -> randomCalls h' = randomCalls h ->
  findsFree fuel exclusions h -> findsFree fuel exclusions h'.
Proof.
  unfold findsFree, drawCell. intros -> ->. auto.
Qed.

Lemma tick_advances (fuel : nat) (s s' : State) (head dir : Cell)
      (body rest : list Cell) :
  isPaused s = false -> isGameOver s = false ->
  snake s = head :: body -> directionQueue s = dir :: rest ->
  let nextHead := mkCell (x head + x dir) (y head + y dir) in
  outOfBounds nextHead = false -> hitsBody nextHead (snake s) = false ->
  tick fuel s = Done s' ->
  isPaused s' = false /\ isGameOver s' = false /\
  directionQueue s' = shifted (directionQueue s) /\
  difficulty s' = difficulty s /\
  mathRandom (host s') = mathRandom (host s) /\
  ((nextHead <> food s /\
    snake s' = nextHead :: removelast (snake s) /\
    food s' = food s /\ score s' = score s /\ best s' = best s /\
    tickMs s' = tickMs s /\ loopId s' = loopId s /\ host s' = host s)
   \/
   (nextHead = food s /\
    snake s' = nextHead :: snake s /\
    score s' = score s + 1 /\
    best s' = Z.max (best s) (score s + 1) /\
    tickMs s' =
      (if (0 <? score s + 1)
          && (Z.rem (score s + 1) (speedupFoodInterval (difficulty s)) =? 0)
       then Z.max (minTickMs (difficulty s)) (scaled (difficulty s) (tickMs s))
       else tickMs s) /\
    excluded (snake s') (food s') = false /\
    (exists n, food s' = drawCell (host s) n))).
Proof.
  intros P G Hs Hq nextHead C1 C2 H.
  rewrite (tick_running fuel s head dir body rest P G Hs Hq) in H.
  cbv zeta in H. fold nextHead in H. rewrite C1, C2 in H. cbn [orb] in H.
  destruct (positionsEqual nextHead (food s)) eqn:F.
  - match type of H with context [updateScore 1 ?u] =>
      destruct (updateScore_frame 1 u) as (U & U1 & U2 & U3 & U4 & U5);
      set (s2 := updateScore 1 u) in * end.
    destruct (getRandomEmptyCell fuel _ _) as [[pos h]|] eqn:E; [|discriminate].
    injection H as <-.
    destruct (getRandomEmptyCell_sound _ _ _ _ _ E) as (E1 & (n & E2) & E3 & E4 & E5).
    board U.
    destruct (maybeSpeedUp_frame s2) as (M & M1 & M2). board M.
    pose proof (maybeSpeedUp_tickMs s2) as MT.
    clearbody s2. proj_simpl.
    repeat split; try congruence.
    right. apply positionsEqual_eq in F.
    repeat split; try congruence.
    + rewrite MT, U1, B6, U3. reflexivity.
    + exists n. rewrite E2. unfold drawCell. rewrite B16, B8. reflexivity.
  - injection H as <-. proj_simpl. apply positionsEqual_neq in F.
    repeat split; auto. left. rewrite Hs. repeat split; auto.
Qed.

Lemma tick_returns (fuel : nat) (s : State) (head dir : Cell)
      (body rest : list Cell) :
  isPaused s = false -> isGameOver s = false ->
  snake s = head :: body -> directionQueue s = dir :: rest ->
  let nextHead := mkCell (x head + x dir) (y head + y dir) in
  (nextHead = food s -> inBounds nextHead -> ~ In nextHead (snake s) ->
   findsFree fuel (nextHead :: snake s) (host s)) ->
  exists s', tick fuel s = Done s'.
Proof.
  intros P G Hs Hq nextHead FF.
  rewrite (tick_running fuel s head dir body rest P G Hs Hq).
  cbv zeta. fold nextHead.
  destruct (outOfBounds nextHead) eqn:C1; cbn [orb]; [eauto|].
  destruct (hitsBody nextHead (snake s)) eqn:C2; [eauto|].
  destruct (positionsEqual nextHead (food s)) eqn:F; [|eauto].
  apply positionsEqual_eq in F. apply outOfBounds_spec in C1.
  assert (N : ~ In nextHead (snake s)).
  { rewrite <- hitsBody_In. congruence. }
  specialize (FF F C1 N).
  match goal with |- context [updateScore 1 ?u] =>
    destruct (updateScore_frame 1 u) as (U & _ & _ & _ & _ & U5);
    set (s2 := updateScore 1 u) in * end.
  destruct (maybeSpeedUp_frame s2) as (M & _). board U. board M.
  destruct (getRandomEmptyCell_complete fuel (nextHead :: snake s)
              (host (maybeSpeedUp s2))) as (pos & h & E).
  - eapply findsFree_ext; [| |exact FF].
    + rewrite B16, B8. reflexivity.
    + rewrite B17, B9. reflexivity.
  - rewrite E. eauto.
Qed.

Lemma tick_never_throws (fuel : nat) (s t : State) :
  snake s <> [] -> directionQueue s <> [] -> tick fuel s <> Throws t.
Proof.
  intros Hs Hq.
  destruct (isPaused s || isGameOver s) eqn:PG.
  { unfold tick. rewrite PG. discriminate. }
  apply orb_false_iff in PG. destruct PG as [P G].
  destruct (snake s) as [|head body] eqn:Es; [congruence|].
  destruct (directionQueue s) as [|dir rest] eqn:Eq; [congruence|].
  rewrite (tick_running fuel s head dir body rest P G Es Eq). cbv zeta.
  repeat match goal with
         | |- context [if ?b then _ else _] => destruct b
         | |- context [match ?o with Some _ => _ | None => _ end] => destruct o as [[? ?]|]
         end; discriminate.
Qed.

Lemma tick_done_running (fuel : nat) (s s' : State) :
  isPaused s = false -> isGameOver s = false -> tick fuel s = Done s' ->
  exists head body dir rest,
    snake s = head :: body /\ directionQueue s = dir :: rest.
Proof.
  intros P G H. unfold tick in H. rewrite P, G in H. cbn [orb] in H.
  cbv zeta in H.
  assert (E : forall b : bool,
             snake (if b then set_directionQueue (tl (directionQueue s)) s else s)
             = snake s) by (intros []; reflexivity).
  rewrite E in H.
  destruct (snake s) as [|head body]; [discriminate|].
  destruct (directionQueue s) as [|dir rest]; [discriminate|].
  repeat eexists.
Qed.

Lemma computeNextHead_Some (s : State) (nextHead : Cell) :
  computeNextHead s = Some nextHead ->
  exists head body dir rest,
    snake s = head :: body /\ directionQueue s = dir :: rest /\
    nextHead = mkCell (x head + x dir) (y head + y dir).
Proof.
  unfold computeNextHead.
  destruct (snake s) as [|head body]; [discriminate|].
  destruct (directionQueue s) as [|dir rest]; [discriminate|].
  intros H. injection H as <-. repeat eexists.
Qed.

Lemma willCollide_spec (nextHead : Cell) (s : State) :
  outOfBounds nextHead || hitsBody nextHead (snake s) = true <->
  willCollide nextHead s.
Proof.
  unfold willCollide. rewrite orb_true_iff, outOfBounds_true, hitsBody_In.
  tauto.
Qed.

Lemma willCollide_false (nextHead : Cell) (s : State) :
  outOfBounds nextHead || hitsBody nextHead (snake s) = false <->
  ~ willCollide nextHead s.
Proof.
  rewrite <- willCollide_spec. destruct (_ || _); split; congruence.
Qed.

Lemma gameOver_fields (s : State) :
  isGameOver (gameOver s) = true /\ loopId (gameOver s) = None /\
  snake (gameOver s) = snake s /\ directionQueue (gameOver s) = directionQueue s /\
  food (gameOver s) = food s /\ score (gameOver s) = score s /\
  best (gameOver s) = best s /\ tickMs (gameOver s) = tickMs s /\
  isPaused (gameOver s) = isPaused s /\ difficulty (gameOver s) = difficulty s /\
  difficultyKey (gameOver s) = difficultyKey s /\
  mathRandom (host (gameOver s)) = mathRandom (host s) /\
  randomCalls (host (gameOver s)) = randomCalls (host s) /\
  nextHandle (host (gameOver s)) = nextHandle (host s) /\
  intervals (host (gameOver s)) =
    match loopId s with
    | Some id => filter (fun reg => negb (Pos.eqb (fst reg) id)) (intervals (host s))
    | None => intervals (host s)
    end.
Proof.
  unfold gameOver, stopLoop, clearInterval. open_state s.
  destruct loopId0; proj_simpl; repeat split.
Qed.

(** * The claims *)

(** C1.  A tick of a running game ends the game, and leaves no interval
    registered, exactly when the next head (head cell plus the direction at
    the front of the queue) is outside the grid or is a cell of the snake as
    it stands before the move, tail included.  Such a tick always returns;
    a tick that does not collide returns whenever the food sampling, if
    any, finds a free cell, and then leaves the game running with its
    interval registered.  No tick of a running game throws. *)
Theorem tick_game_over_iff_collision (fuel : nat) (s : State) :
  reachable s -> isPaused s = false -> isGameOver s = false ->
  exists nextHead,
    computeNextHead s = Some nextHead /\
    (forall t, tick fuel s <> Throws t) /\
    (willCollide nextHead s -> exists s', tick fuel s = Done s') /\
    (~ willCollide nextHead s ->
     (nextHead = food s -> findsFree fuel (nextHead :: snake s) (host s)) ->
     exists s', tick fuel s = Done s') /\
    (forall s', tick fuel s = Done s' ->
                (isGameOver s' = true <-> willCollide nextHead s) /\
                (phase s' = GameOver <-> willCollide nextHead s) /\
                (loopId s' = None <-> willCollide nextHead s) /\
                (intervals (host s') = [] <-> willCollide nextHead s)).
Proof.
  intros R P G. pose proof (reachable_inv s R) as HI.
  destruct (snake s) as [|head body] eqn:Hs; [destruct (inv_snake s HI Hs)|].
  destruct (directionQueue s) as [|dir rest] eqn:Hq; [destruct (inv_queue s HI Hq)|].
  exists (mkCell (x head + x dir) (y head + y dir)).
  set (nextHead := mkCell (x head + x dir) (y head + y dir)).
  split; [unfold computeNextHead; rewrite Hs, Hq; reflexivity|].
  split; [intros t; apply tick_never_throws; congruence|].
  rewrite <- Hs.
  split; [|split].
  - intros W. apply (tick_returns fuel s head dir body rest P G Hs Hq).
    intros _ B N. destruct W; contradiction.
  - intros W FF. apply (tick_returns fuel s head dir body rest P G Hs Hq).
    intros F _ _. apply FF, F.
  - intros s' H.
    destruct (outOfBounds nextHead || hitsBody nextHead (snake s)) eqn:C.
    + assert (W : willCollide nextHead s) by (apply willCollide_spec, C).
      rewrite (tick_running fuel s head dir body rest P G Hs Hq) in H.
      cbv zeta in H. fold nextHead in H. rewrite C in H. injection H as <-.
      pose proof (shift_inv s HI) as HI1. apply gameOver_inv in HI1.
      destruct (gameOver_fields (set_directionQueue (shifted (directionQueue s)) s))
        as (A & B & _).
      unfold phase. rewrite (inv_clock _ HI1), A, B. tauto.
    + assert (W : ~ willCollide nextHead s) by (apply willCollide_false, C).
      apply orb_false_iff in C. destruct C as [C1 C2].
      pose proof (tick_inv fuel s s' HI H) as HI'.
      destruct (tick_advances fuel s s' head dir body rest P G Hs Hq C1 C2 H)
        as (P' & G' & _).
      assert (L : loopId s' <> None).
      { intros L. apply (inv_loop s' HI') in L. rewrite P', G' in L. discriminate. }
      unfold phase. rewrite (inv_clock s' HI'), G', P'.
      destruct (loopId s'); [|congruence].
      repeat split; intros; try contradiction; discriminate.
Qed.

(** C2.  On a tick of a running game whose next head is inside the grid
    and not on the body, the new head is put in front; the last cell is
    removed and the length is unchanged, unless the next head is the food
    cell, in which case nothing is removed and the length grows by exactly
    one.  The tick returns whenever the food sampling, if any, finds a free
    cell. *)
Theorem tick_length (fuel : nat) (s : State) (nextHead : Cell) :
  isPaused s = false -> isGameOver s = false ->
  computeNextHead s = Some nextHead ->
  inBounds nextHead -> ~ In nextHead (snake s) ->
  ((nextHead = food s -> findsFree fuel (nextHead :: snake s) (host s)) ->
   exists s', tick fuel s = Done s') /\
  (forall s', tick fuel s = Done s' ->
     (nextHead <> food s ->
      snake s' = nextHead :: removelast (snake s) /\
      List.length (snake s') = List.length (snake s)) /\
     (nextHead = food s ->
      snake s' = nextHead :: snake s /\
      List.length (snake s') = S (List.length (snake s)))).
Proof.
  intros P G N B I.
  destruct (computeNextHead_Some s nextHead N)
    as (head & body & dir & rest & Hs & Hq & ->).
  split.
  - intros FF. apply (tick_returns fuel s head dir body rest P G Hs Hq).
    intros F _ _. apply FF, F.
  - intros s' H.
    apply outOfBounds_spec in B.
    assert (C2 : hitsBody (mkCell (x head + x dir) (y head + y dir)) (snake s) = false).
    { destruct (hitsBody _ (snake s)) eqn:E; [|reflexivity].
      apply hitsBody_In in E. contradiction. }
    destruct (tick_advances fuel s s' head dir body rest P G Hs Hq B C2 H)
      as (_ & _ & _ & _ & _ & [(F & S1 & _)|(F & S1 & _)]).
    + split; [|contradiction]. intros _. split; [exact S1|].
      rewrite S1. cbn [List.length]. apply removelast_length.
      rewrite Hs. discriminate.
    + split; [contradiction|]. intros _. split; [exact S1|].
      rewrite S1. reflexivity.
Qed.

(** C5.  A tick of a running game moves the snake by the direction at the
    front of the queue; that entry is removed when another entry follows it
    and kept when it is the only one.  In every state the page can be in
    the queue is non-empty. *)
Theorem tick_consumes_front (fuel : nat) (s : State) :
  (forall head body dir rest,
      isPaused s = false -> isGameOver s = false ->
      snake s = head :: body -> directionQueue s = dir :: rest ->
      let nextHead := mkCell (x head + x dir) (y head + y dir) in
      ((nextHead = food s -> findsFree fuel (nextHead :: snake s) (host s)) ->
       exists s', tick fuel s = Done s') /\
      (forall s', tick fuel s = Done s' ->
                  directionQueue s' = match rest with
                                      | [] => [dir]
                                      | _ :: _ => rest
                                      end /\
                  (willCollide nextHead s /\ isGameOver s' = true \/
                   ~ willCollide nextHead s /\ hd_error (snake s') = Some nextHead))) /\
  (reachable s -> directionQueue s <> []).
Proof.
  split; [|intros R; apply (inv_queue s (reachable_inv s R))].
  intros head body dir rest P G Hs Hq nextHead. split.
  - intros FF. apply (tick_returns fuel s head dir body rest P G Hs Hq).
    intros F _ _. apply FF, F.
  - intros s' H.
    assert (Q : shifted (directionQueue s) =
                match rest with [] => [dir] | _ :: _ => rest end)
      by (rewrite Hq; destruct rest; reflexivity).
    destruct (outOfBounds nextHead || hitsBody nextHead (snake s)) eqn:C.
    + rewrite (tick_running fuel s head dir body rest P G Hs Hq) in H.
      cbv zeta in H. fold nextHead in H. rewrite C in H. injection H as <-.
      destruct (gameOver_fields (set_directionQueue (shifted (directionQueue s)) s))
        as (A & _ & _ & D & _).
      rewrite D. split; [exact Q|]. left. split; [|exact A].
      apply willCollide_spec, C.
    + pose proof C as W. apply willCollide_false in W.
      apply orb_false_iff in C. destruct C as [C1 C2].
      destruct (tick_advances fuel s s' head dir body rest P G Hs Hq C1 C2 H)
        as (_ & _ & D & _ & _ & [(_ & S1 & _)|(_ & S1 & _)]);
        (rewrite D; split; [exact Q|]; right; split; [exact W|]);
        rewrite S1; reflexivity.
Qed.

(** C10.  When a tick of a running game ends in game over, the state it
    returns is the state before the tick with the game-over flag set, no
    loop handle, the loop's interval cleared and the queue possibly without
    its front entry: snake, food, score, best score, tick interval, pause
    flag, difficulty and the random tape position are as they were. *)
Theorem tick_game_over_frame (fuel : nat) (s s' : State) :
  isPaused s = false -> isGameOver s = false ->
  tick fuel s = Done s' -> isGameOver s' = true ->
  s' = gameOver (set_directionQueue (shifted (directionQueue s)) s) /\
  snake s' = snake s /\ food s' = food s /\ score s' = score s /\
  best s' = best s /\ tickMs s' = tickMs s /\
  isPaused s' = isPaused s /\ difficulty s' = difficulty s /\
  difficultyKey s' = difficultyKey s /\
  mathRandom (host s') = mathRandom (host s) /\
  randomCalls (host s') = randomCalls (host s) /\
  nextHandle (host s') = nextHandle (host s) /\
  loopId s' = None /\
  intervals (host s') =
    match loopId s with
    | Some id => filter (fun reg => negb (Pos.eqb (fst reg) id)) (intervals (host s))
    | None => intervals (host s)
    end /\
  (directionQueue s' = directionQueue s \/
   directionQueue s' = tl (directionQueue s)).
Proof.
  intros P G H O.
  destruct (tick_done_running fuel s s' P G H)
    as (head & body & dir & rest & Hs & Hq).
  set (nextHead := mkCell (x head + x dir) (y head + y dir)).
  destruct (outOfBounds nextHead || hitsBody nextHead (snake s)) eqn:C.
  - rewrite (tick_running fuel s head dir body rest P G Hs Hq) in H.
    cbv zeta in H. fold nextHead in H. rewrite C in H. injection H as <-.
    destruct (gameOver_fields (set_directionQueue (shifted (directionQueue s)) s))
      as (A1 & A2 & A3 & A4 & A5 & A6 & A7 & A8 & A9 & A10 & A11 & A12 & A13 & A14 & A15).
    proj_simpl. repeat split; try assumption.
    rewrite A4, Hq. destruct rest; cbn [shifted tl]; auto.
  - apply orb_false_iff in C. destruct C as [C1 C2].
    destruct (tick_advances fuel s s' head dir body rest P G Hs Hq C1 C2 H)
      as (_ & G' & _).
    congruence.
Qed.

(** ** Speed within one game *)

Lemma togglePause_fields (s : State) :
  tickMs (togglePause s) = tickMs s /\ difficulty (togglePause s) = difficulty s /\
  score (togglePause s) = score s /\ snake (togglePause s) = snake s /\
  directionQueue (togglePause s) = directionQueue s /\
  isGameOver (togglePause s) = isGameOver s /\
  isPaused (togglePause s) = (if isGameOver s then isPaused s else negb (isPaused s)).
Proof.
  unfold togglePause, startLoop, stopLoop, setInterval, clearInterval.
  open_state s.
  destruct isGameOver0, isPaused0, loopId0; proj_simpl; cbn [negb];
    proj_simpl; repeat split.
Qed.

Lemma resume_fields (s : State) :
  tickMs (resume s) = tickMs s /\ difficulty (resume s) = difficulty s.
Proof.
  unfold resume. destruct (negb (isPaused s) || isGameOver s); [tauto|].
  destruct (togglePause_fields s) as (A & B & _). tauto.
Qed.

Lemma queueDirection_fields (next : Cell) (s : State) :
  tickMs (queueDirection next s) = tickMs s /\
  difficulty (queueDirection next s) = difficulty s.
Proof.
  unfold queueDirection.
  destruct (lastQueuedOf (directionQueue s)); [|tauto].
  destruct (_ && _); tauto.
Qed.

Lemma tick_speed (fuel : nat) (s s' : State) :
  Inv s -> tick fuel s = Done s' ->
  difficulty s' = difficulty s /\
  (score s' = score s /\ tickMs s' = tickMs s \/
   score s' = score s + 1 /\
   tickMs s' =
     (if Z.rem (score s') (speedupFoodInterval (difficulty s)) =? 0
      then Z.max (minTickMs (difficulty s)) (scaled (difficulty s) (tickMs s))
      else tickMs s)).
Proof.
  intros HI H.
  destruct (isPaused s || isGameOver s) eqn:PG.
  { unfold tick in H. rewrite PG in H. injection H as <-. tauto. }
  apply orb_false_iff in PG. destruct PG as [P G].
  destruct (tick_done_running fuel s s' P G H)
    as (head & body & dir & rest & Hs & Hq).
  set (nextHead := mkCell (x head + x dir) (y head + y dir)).
  destruct (outOfBounds nextHead || hitsBody nextHead (snake s)) eqn:C.
  - rewrite (tick_running fuel s head dir body rest P G Hs Hq) in H.
    cbv zeta in H. fold nextHead in H. rewrite C in H. injection H as <-.
    destruct (gameOver_fields (set_directionQueue (shifted (directionQueue s)) s))
      as (_ & _ & _ & _ & _ & A6 & _ & A8 & _ & A10 & _).
    proj_simpl. tauto.
  - apply orb_false_iff in C. destruct C as [C1 C2].
    destruct (tick_advances fuel s s' head dir body rest P G Hs Hq C1 C2 H)
      as (_ & _ & _ & D & _ & [(_ & _ & _ & S1 & _ & T & _)|(_ & _ & S1 & _ & T & _)]).
    + tauto.
    + split; [exact D|]. right. split; [exact S1|].
      rewrite T, S1. pose proof (inv_score s HI) as Z0.
      replace (0 <? score s + 1) with true by (symmetry; apply Z.ltb_lt; lia).
      reflexivity.
Qed.

Lemma tick_slower_never (fuel : nat) (s s' : State) :
  Inv s -> tick fuel s = Done s' ->
  difficulty s' = difficulty s /\ tickMs s' <= tickMs s.
Proof.
  intros HI H. destruct (tick_speed fuel s s' HI H) as (D & [(_ & T)|(_ & T)]).
  - split; [exact D | lia].
  - split; [exact D|]. rewrite T.
    destruct (_ =? 0); [|lia].
    destruct (presets_shape _ (inv_preset s HI)) as (P1 & P2 & _).
    pose proof (inv_tick s HI) as IT.
    pose proof (scaled_le (difficulty s) (tickMs s) (inv_preset s HI)) as SL.
    lia.
Qed.

Lemma step_same_game (fuel : nat) (e : Event) (s s' : State) :
  Inv s -> keepsGame e = true -> step fuel e s = Done s' ->
  difficulty s' = difficulty s /\ tickMs s' <= tickMs s.
Proof.
  intros HI K H.
  destruct e as [key|[dir|]| | | | |onOverlay|newKey|handle];
    cbn [step keepsGame] in H, K; try discriminate.
  - destruct (_ || _) in H.
    + injection H as <-. destruct (togglePause_fields s) as (A & B & _).
      rewrite A, B. split; [reflexivity | lia].
    + destruct (keyToDir (toLowerCase key)) as [d|]; injection H as <-.
      * destruct (queueDirection_fields d s) as (A & B).
        rewrite A, B. split; [reflexivity | lia].
      * split; [reflexivity | lia].
  - destruct (String.eqb dir EmptyString); injection H as <-.
    + split; [reflexivity | lia].
    + destruct (queueDirection_fields (dirStringToVector dir) s) as (A & B).
      rewrite A, B. split; [reflexivity | lia].
  - injection H as <-. split; [reflexivity | lia].
  - injection H as <-. destruct (togglePause_fields s) as (A & B & _).
    rewrite A, B. split; [reflexivity | lia].
  - injection H as <-. destruct (resume_fields s) as (A & B).
    rewrite A, B. split; [reflexivity | lia].
  - destruct (_ && _) in H; injection H as <-.
    + destruct (resume_fields s) as (A & B).
      rewrite A, B. split; [reflexivity | lia].
    + split; [reflexivity | lia].
  - destruct (registered handle (host s)).
    + eapply tick_slower_never; eassumption.
    + injection H as <-. split; [reflexivity | lia].
Qed.

(** C6.  In every state the page can be in the tick interval is at least
    [minTickMs] of the difficulty in force.  Every event other than a
    restart or a change of difficulty keeps the difficulty and does not
    increase the interval.  [maybeSpeedUp] replaces the interval by
    [max(minTickMs, floor(tickMs * speedupFactor))] when the score is a
    positive multiple of [speedupFoodInterval] and keeps it otherwise; a
    tick changes the interval only through that rule, applied to the score
    just incremented for the food eaten. *)
Theorem tick_interval_speed_curve :
  (forall s, reachable s -> minTickMs (difficulty s) <= tickMs s) /\
  (forall fuel e s s',
      reachable s -> keepsGame e = true ->
      step fuel e s = Done s' ->
      difficulty s' = difficulty s /\
      minTickMs (difficulty s) <= tickMs s' <= tickMs s) /\
  (forall s,
      tickMs (maybeSpeedUp s) =
      if (0 <? score s) && (Z.rem (score s) (speedupFoodInterval (difficulty s)) =? 0)
      then Z.max (minTickMs (difficulty s))
                 (Number.floor (Number.mul (Number.ofInt (tickMs s))
                                           (speedupFactor (difficulty s))))
      else tickMs s) /\
  (forall fuel s s',
      reachable s -> tick fuel s = Done s' ->
      score s' = score s /\ tickMs s' = tickMs s \/
      score s' = score s + 1 /\ 0 < score s' /\
      tickMs s' =
        (if Z.rem (score s') (speedupFoodInterval (difficulty s)) =? 0
         then Z.max (minTickMs (difficulty s))
                    (Number.floor (Number.mul (Number.ofInt (tickMs s))
                                              (speedupFactor (difficulty s))))
         else tickMs s)).
Proof.
  split; [|split; [|split]].
  - intros s R. apply (inv_tick s (reachable_inv s R)).
  - intros fuel e s s' R K H. pose proof (reachable_inv s R) as HI.
    destruct (step_same_game fuel e s s' HI K H) as (D & T).
    pose proof (inv_tick s' (step_inv fuel e s s' HI H)) as IT.
    rewrite D in IT. split; [exact D | lia].
  - exact maybeSpeedUp_tickMs.
  - intros fuel s s' R H. pose proof (reachable_inv s R) as HI.
    destruct (tick_speed fuel s s' HI H) as (_ & [A|(A & B)]); [left; exact A|].
    right. split; [exact A|]. split; [|exact B].
    pose proof (inv_score s HI). lia.
Qed.

(** ** Food *)







(** ** Direction queue *)

Lemma queueDirection_keeps_noReversal (next : Cell) (s : State) :
  noReversal (directionQueue s) ->
  noReversal (directionQueue (queueDirection next s)).
Proof.
  intros H. destruct (queueDirection_cases next s) as (A & B & C).
  destruct (directionQueue s) as [|a q] eqn:E.
  - rewrite (A eq_refl). exact Logic.I.
  - assert (NE : a :: q <> []) by discriminate.
    destruct (exists_last NE) as (queue & l & E').
    assert (D : opposite l next \/ ~ opposite l next).
    { rewrite <- opposite_dec.
      destruct ((x l + x next =? 0) && (y l + y next =? 0)); [left|right]; congruence. }
    destruct D as [D|D].
    + rewrite (B _ _ E' D), E. exact H.
    + rewrite (C _ _ E' D). proj_simpl. rewrite E'.
      apply noReversal_snoc; [|exact D]. rewrite <- E'. exact H.
Qed.

(** C4.  [queueDirection] puts [next] at the back of the queue unless the
    last entry and [next] add up to [(0,0)], in which case nothing changes.
    It keeps a queue free of adjacent opposite entries free of them, and in
    every state the page can be in no two adjacent entries of the queue add
    up to [(0,0)]. *)
Theorem queueDirection_no_reversal :
  (forall next s,
      (directionQueue s = [] ->
       queueDirection next s = set_directionQueue [next] s) /\
      (forall queue l, directionQueue s = queue ++ [l] -> opposite l next ->
                       queueDirection next s = s) /\
      (forall queue l, directionQueue s = queue ++ [l] -> ~ opposite l next ->
                       queueDirection next s =
                       set_directionQueue (directionQueue s ++ [next]) s)) /\
  (forall next s,
      noReversal (directionQueue s) ->
      noReversal (directionQueue (queueDirection next s))) /\
  (forall s, reachable s -> noReversal (directionQueue s)).
Proof.
  split; [exact queueDirection_cases|]. split; [exact queueDirection_keeps_noReversal|].
  intros s R. apply (inv_noReversal s (reachable_inv s R)).
Qed.

Lemma tick_queue (fuel : nat) (s s' : State) :
  tick fuel s = Done s' ->
  directionQueue s' = directionQueue s \/
  directionQueue s' = shifted (directionQueue s).
Proof.
  intros H.
  destruct (isPaused s || isGameOver s) eqn:PG.
  { unfold tick in H. rewrite PG in H. injection H as <-. tauto. }
  apply orb_false_iff in PG. destruct PG as [P G].
  destruct (tick_done_running fuel s s' P G H)
    as (head & body & dir & rest & Hs & Hq).
  set (nextHead := mkCell (x head + x dir) (y head + y dir)).
  destruct (outOfBounds nextHead || hitsBody nextHead (snake s)) eqn:C.
  - rewrite (tick_running fuel s head dir body rest P G Hs Hq) in H.
    cbv zeta in H. fold nextHead in H. rewrite C in H. injection H as <-.
    destruct (gameOver_fields (set_directionQueue (shifted (directionQueue s)) s))
      as (_ & _ & _ & D & _).
    right. exact D.
  - apply orb_false_iff in C. destruct C as [C1 C2].
    destruct (tick_advances fuel s s' head dir body rest P G Hs Hq C1 C2 H)
      as (_ & _ & D & _).
    right. exact D.
Qed.

Lemma queueDirection_units (next : Cell) (s : State) :
  Forall unitVector (directionQueue s) -> unitVector next ->
  Forall unitVector (directionQueue (queueDirection next s)).
Proof.
  intros U N. unfold queueDirection.
  assert (A : Forall unitVector (directionQueue s ++ [next])).
  { apply Forall_app. split; [exact U|]. constructor; [exact N | constructor]. }
  destruct (lastQueuedOf (directionQueue s)); [|exact A].
  destruct (_ && _); [exact U | exact A].
Qed.

Lemma resetGame_units (fuel : nat) (s s' : State) :
  resetGame fuel s = Done s' -> Forall unitVector (directionQueue s').
Proof.
  intros H. destruct (resetGame_done _ _ _ H) as (_ & B & _).
  rewrite B. constructor; [|constructor]. left. reflexivity.
Qed.

Lemma step_units (fuel : nat) (e : Event) (s s' : State) :
  Forall unitVector (directionQueue s) -> pageEvent e ->
  step fuel e s = Done s' -> Forall unitVector (directionQueue s').
Proof.
  intros U He H.
  assert (T : Forall unitVector (directionQueue (togglePause s))).
  { destruct (togglePause_fields s) as (_ & _ & _ & _ & Q & _). rewrite Q. exact U. }
  assert (R : Forall unitVector (directionQueue (resume s))).
  { unfold resume. destruct (_ || _); [exact U | exact T]. }
  destruct e as [key|[dir|]| | | | |onOverlay|newKey|handle]; cbn [step] in H.
  - destruct (_ || _) in H.
    + injection H as <-. exact T.
    + destruct (keyToDir (toLowerCase key)) as [d|] eqn:K; injection H as <-.
      * apply queueDirection_units; [exact U|]. eapply keyToDir_unit, K.
      * exact U.
  - destruct (String.eqb dir EmptyString); injection H as <-; [exact U|].
    apply queueDirection_units; [exact U|]. apply dirStringToVector_unit, He.
  - injection H as <-. exact U.
  - injection H as <-. exact T.
  - eapply resetGame_units, H.
  - injection H as <-. exact R.
  - eapply resetGame_units, H.
  - destruct (_ && _) in H; injection H as <-; [exact R | exact U].
  - keyed H. eapply resetGame_units, H.
  - destruct (registered handle (host s)).
    + destruct (tick_queue fuel s s' H) as [-> | ->]; [exact U|].
      apply shifted_Forall, U.
    + injection H as <-. exact U.
Qed.

Lemma onPage_units (s : State) :
  onPage s -> Forall unitVector (directionQueue s).
Proof.
  induction 1 as [fuel h b key s Hh H|fuel h b s Hh H|fuel e s s' _ IH He H].
  - unfold init in H. keyed H. eapply resetGame_units, H.
  - eapply resetGame_units, H.
  - eapply step_units; eassumption.
Qed.

(** The fallback of [dirStringToVector] is the zero vector, and
    [queueDirection] would append it behind a unit vector: the restriction
    to the page's buttons in C9 below is needed. *)
Remark dirStringToVector_fallback :
  dirStringToVector "centre" = mkCell 0 0 /\
  directionQueue (queueDirection (dirStringToVector "centre") fed)
  = [mkCell 1 0; mkCell 0 0].
Proof. split; vm_compute; reflexivity. Qed.

(** C9.  The arrow and letter keys, and the d-pad buttons of the page, map
    to the four unit vectors only; in every state the page can bring the
    script to, each entry of the queue is one of the four unit vectors and
    [(0,0)] is not in the queue. *)
Theorem queue_holds_unit_vectors :
  (forall key d, keyToDir key = Some d -> unitVector d) /\
  (forall dir, In dir DPAD_DIRS -> unitVector (dirStringToVector dir)) /\
  (forall s, onPage s ->
             Forall unitVector (directionQueue s) /\
             ~ In (mkCell 0 0) (directionQueue s)).
Proof.
  split; [exact keyToDir_unit|]. split; [exact dirStringToVector_unit|].
  intros s R. pose proof (onPage_units s R) as U.
  split; [exact U|]. intros Z. rewrite Forall_forall in U.
  apply (unitVector_nonzero _ (U _ Z)). reflexivity.
Qed.

(** ** Pause, resume, restart *)

Lemma started_onPage : onPage started.
Proof. apply (reach_init _ 1 freshHost 0 "hard"); vm_compute; reflexivity. Qed.

Lemma fed_onPage : onPage fed.
Proof.
  apply (reachableVia_run _ 1 [IntervalFires 1] started);
    [exact started_onPage | page_events | vm_compute; reflexivity].
Qed.


Lemma fed_reachable : reachable fed.
Proof. exact (onPage_reachable _ fed_onPage). Qed.

Lemma atWall_reachable : reachable atWall.
Proof.
  apply (reachableVia_run _ 1 (repeat (IntervalFires 1) 8) fed);
    [exact fed_reachable | page_events | vm_compute; reflexivity].
Qed.

Lemma paused_reachable : reachable paused.
Proof.
  apply (reachableVia_run _ 1 [PauseClick] fed);
    [exact fed_reachable | page_events | vm_compute; reflexivity].
Qed.

Lemma coiled_onPage : onPage coiled.
Proof.
  apply (reachableVia_run _ 1 [Keydown "w"; IntervalFires 1;
                               Keydown "ArrowLeft"; IntervalFires 1;
                               DpadClick (Some "down"%string); IntervalFires 1] fed);
    [exact fed_onPage | page_events | vm_compute; reflexivity].
Qed.

Lemma coiled_reachable : reachable coiled.
Proof. exact (onPage_reachable _ coiled_onPage). Qed.

(** C8, as stated, fails: the pause control pressed in a paused game does
    change the state; the game runs again and an interval is registered. *)
Lemma togglePause_while_paused_resumes :
  reachable paused /\ phase paused = Paused /\
  togglePause paused <> paused /\
  phase (togglePause paused) = Running /\
  intervals (host (togglePause paused)) = [(2%positive, 120)].
Proof.
  split; [exact paused_reachable|]. split; [vm_compute; reflexivity|].
  split; [|split; vm_compute; reflexivity].
  intros E. apply (f_equal isPaused) in E. vm_compute in E. discriminate E.
Qed.

(** C8, amended.  [resume] in a game that is not paused, and [resume] or
    the pause control in a game that is over, change nothing.  The pause
    control is a toggle: in a paused game it makes the game run and
    registers exactly one interval, with the current tick period; in a
    running game it pauses and leaves no interval registered. *)
Theorem resume_idle_pause_toggles :
  (forall s, isPaused s = false -> resume s = s) /\
  (forall s, isGameOver s = true -> resume s = s /\ togglePause s = s) /\
  (forall s, reachable s -> phase s = Paused ->
             phase (togglePause s) = Running /\
             resume s = togglePause s /\
             exists id, loopId (togglePause s) = Some id /\
                        intervals (host (togglePause s)) = [(id, tickMs s)]) /\
  (forall s, reachable s -> phase s = Running ->
             phase (togglePause s) = Paused /\
             loopId (togglePause s) = None /\
             intervals (host (togglePause s)) = []).
Proof.
  split; [|split; [|split]].
  - intros s P. unfold resume. rewrite P. reflexivity.
  - intros s G. unfold resume, togglePause. rewrite G, orb_true_r. auto.
  - intros s R Ph. unfold phase in Ph.
    destruct (isGameOver s) eqn:G; [discriminate|].
    destruct (isPaused s) eqn:P; [|discriminate].
    pose proof (togglePause_inv s (reachable_inv s R)) as HI.
    destruct (togglePause_fields s) as (T & _ & _ & _ & _ & G' & P').
    rewrite G in G', P'. rewrite P in P'. cbn [negb] in P'.
    split; [unfold phase; rewrite G', P'; reflexivity|].
    split; [unfold resume; rewrite P, G; reflexivity|].
    pose proof (inv_clock _ HI) as C. unfold clockOk in C.
    destruct (loopId (togglePause s)) as [id|] eqn:L.
    + exists id. rewrite C, T. auto.
    + apply (inv_loop _ HI) in L. rewrite G', P' in L. discriminate.
  - intros s R Ph. unfold phase in Ph.
    destruct (isGameOver s) eqn:G; [discriminate|].
    destruct (isPaused s) eqn:P; [discriminate|].
    pose proof (togglePause_inv s (reachable_inv s R)) as HI.
    destruct (togglePause_fields s) as (T & _ & _ & _ & _ & G' & P').
    rewrite G in G', P'. rewrite P in P'. cbn [negb] in P'.
    split; [unfold phase; rewrite G', P'; reflexivity|].
    assert (L : loopId (togglePause s) = None).
    { apply (inv_loop _ HI). rewrite P'. reflexivity. }
    split; [exact L|]. rewrite (inv_clock _ HI), L. reflexivity.
Qed.

(** C3, as stated, fails: after the restart button the game is running,
    not paused, and the next timer callback moves the snake with no resume
    in between. *)
Lemma restart_runs_at_once :
  reachable fed /\
  step 1 RestartClick fed = Done restarted /\
  phase restarted = Running /\
  loopId restarted = Some 2%positive /\
  exists moved,
    step 1 (IntervalFires 2) restarted = Done moved /\
    snake restarted = [mkCell 10 10; mkCell 9 10; mkCell 8 10] /\
    snake moved = [mkCell 11 10; mkCell 10 10; mkCell 9 10].
Proof.
  split; [exact fed_reachable|].
  split; [vm_compute; reflexivity|]. split; [vm_compute; reflexivity|].
  split; [vm_compute; reflexivity|].
  exists (stateOf (step 1 (IntervalFires 2) restarted)).
  split; [vm_compute; reflexivity|]. split; vm_compute; reflexivity.
Qed.

(** C3, amended.  [resetGame] returns as soon as a pass of the food
    sampling draws a cell off the new snake.  The state it returns is
    running (neither paused nor over) with one interval registered at the
    difficulty's initial period; snake, direction queue, food, score and
    tick interval are set anew, the difficulty is kept and the best score
    is kept (raised to 0 if it was negative).  The first callback of that
    interval moves the head to [(11,10)]: no resume is needed. *)
Theorem resetGame_starts_running (fuel : nat) (s : State) :
  singleTimer s ->
  (findsFree fuel [mkCell 10 10; mkCell 9 10; mkCell 8 10] (host s) ->
   exists s', resetGame fuel s = Done s') /\
  (forall s',
      resetGame fuel s = Done s' ->
      phase s' = Running /\
      snake s' = [mkCell 10 10; mkCell 9 10; mkCell 8 10] /\
      directionQueue s' = [mkCell 1 0] /\
      ~ In (food s') (snake s') /\
      score s' = 0 /\
      tickMs s' = initialSpeedMs (difficulty s) /\
      difficulty s' = difficulty s /\
      best s' = Z.max (best s) 0 /\
      exists id,
        loopId s' = Some id /\
        intervals (host s') = [(id, tickMs s')] /\
        (forall fuel' moved,
            step fuel' (IntervalFires id) s' = Done moved ->
            hd_error (snake moved) = Some (mkCell 11 10)) /\
        (forall fuel',
            food s' <> mkCell 11 10 ->
            exists moved, step fuel' (IntervalFires id) s' = Done moved)).
Proof.
  intros T. split.
  - intros FF.
    destruct (getRandomEmptyCell_complete _ _ _ FF) as (pos & h & E).
    unfold resetGame. cbv zeta.
    change (GRID_SIZE / 2) with 10. cbn [x y]. change (10 - 1) with 9.
    change (10 - 2) with 8. proj_simpl. rewrite E. eauto.
  - intros s' H.
    destruct (resetGame_done _ _ _ H)
      as (A & B & (h & C) & D & E & F & G & I & J & K & L & M).
    destruct (M T) as [M1 M2].
    destruct (getRandomEmptyCell_sound _ _ _ _ _ C) as (C1 & _).
    split; [unfold phase; rewrite I, G; reflexivity|].
    repeat (split; [first [assumption | apply excluded_false; exact C1]|]).
    exists (nextHandle (host s)).
    split; [exact M1|]. split; [rewrite M2, F; reflexivity|].
    assert (Reg : registered (nextHandle (host s)) (host s') = true).
    { unfold registered. rewrite M2. cbn. rewrite Pos.eqb_refl. reflexivity. }
    assert (C2 : hitsBody (mkCell (x (mkCell 10 10) + x (mkCell 1 0))
                                  (y (mkCell 10 10) + y (mkCell 1 0)))
                          (snake s') = false) by (rewrite A; reflexivity).
    split.
    + intros fuel' moved St. cbn [step] in St. rewrite Reg in St.
      destruct (tick_advances fuel' s' moved _ _ _ _ G I A B eq_refl C2 St)
        as (_ & _ & _ & _ & _ & [(_ & S1 & _)|(_ & S1 & _)]);
        rewrite S1; reflexivity.
    + intros fuel' NF. cbn [step]. rewrite Reg.
      apply (tick_returns fuel' s' _ _ _ _ G I A B).
      intros F'. cbn in F'. congruence.
Qed.

(** * The claims on the sample runs *)

Lemma turning_reachable : reachable turning.
Proof.
  apply (reachableVia_run _ 1 [Keydown "w"] fed);
    [exact fed_reachable | page_events | vm_compute; reflexivity].
Qed.



(** C1 on [coiled]: the next head is the tail cell [(11,10)]; the tick ends
    the game and clears the interval. *)
Lemma tick_game_over_iff_collision_witness :
  reachable coiled /\ isPaused coiled = false /\ isGameOver coiled = false /\
  last (snake coiled) (mkCell 0 0) = mkCell 11 10 /\
  computeNextHead coiled = Some (mkCell 11 10) /\
  exists s', tick 1 coiled = Done s' /\ isGameOver s' = true /\
             loopId s' = None /\ intervals (host s') = [].
Proof.
  assert (P : isPaused coiled = false) by (vm_compute; reflexivity).
  assert (G : isGameOver coiled = false) by (vm_compute; reflexivity).
  assert (N : computeNextHead coiled = Some (mkCell 11 10))
    by (vm_compute; reflexivity).
  split; [exact coiled_reachable|]. split; [exact P|]. split; [exact G|].
  split; [vm_compute; reflexivity|]. split; [exact N|].
  destruct (tick_game_over_iff_collision 1 coiled coiled_reachable P G)
    as (nextHead & N' & _ & Ret & _ & Iff).
  rewrite N in N'. injection N' as <-.
  assert (W : willCollide (mkCell 11 10) coiled).
  { right. vm_compute. tauto. }
  destruct (Ret W) as (s' & H). exists s'.
  destruct (Iff s' H) as (A & _ & B & C).
  split; [exact H|]. split; [apply A, W|]. split; [apply B, W | apply C, W].
Defined.

(** C2 on [started]: the next head [(11,10)] is the food cell and the
    snake grows from three to four cells. *)
Lemma tick_length_witness :
  isPaused started = false /\ isGameOver started = false /\
  computeNextHead started = Some (mkCell 11 10) /\
  inBounds (mkCell 11 10) /\ ~ In (mkCell 11 10) (snake started) /\
  food started = mkCell 11 10 /\
  forall s', tick 1 started = Done s' ->
             snake s' = mkCell 11 10 :: snake started /\
             List.length (snake s') = S (List.length (snake started)).
Proof.
  assert (P : isPaused started = false) by (vm_compute; reflexivity).
  assert (G : isGameOver started = false) by (vm_compute; reflexivity).
  assert (N : computeNextHead started = Some (mkCell 11 10))
    by (vm_compute; reflexivity).
  assert (B : inBounds (mkCell 11 10)) by (unfold inBounds, GRID_SIZE; cbn; lia).
  assert (I : ~ In (mkCell 11 10) (snake started))
    by (vm_compute; intuition discriminate).
  assert (F : mkCell 11 10 = food started) by (vm_compute; reflexivity).
  repeat (split; [first [assumption | symmetry; assumption]|]).
  intros s' H.
  destruct (tick_length 1 started (mkCell 11 10) P G N B I) as (_ & L).
  apply (L s' H), F.
Defined.

(** C3 (amended) on [fed]. *)
Lemma resetGame_starts_running_witness :
  singleTimer fed /\
  forall s', resetGame 1 fed = Done s' ->
             phase s' = Running /\ score s' = 0 /\ tickMs s' = 120.
Proof.
  assert (T : singleTimer fed) by (vm_compute; exists 120; reflexivity).
  split; [exact T|]. intros s' H.
  destruct (resetGame_starts_running 1 fed T) as (_ & R).
  destruct (R s' H) as (A & _ & _ & _ & B & C & _).
  split; [exact A|]. split; [exact B|]. rewrite C. vm_compute. reflexivity.
Defined.

(** C4 on [turning]: up is queued behind right; down, its opposite, is then
    dropped. *)
Lemma queueDirection_no_reversal_witness :
  reachable turning /\
  directionQueue turning = [mkCell 1 0] ++ [mkCell 0 (-1)] /\
  opposite (mkCell 0 (-1)) (mkCell 0 1) /\
  queueDirection (mkCell 0 1) turning = turning /\
  noReversal (directionQueue turning).
Proof.
  assert (Q : directionQueue turning = [mkCell 1 0] ++ [mkCell 0 (-1)])
    by (vm_compute; reflexivity).
  assert (O : opposite (mkCell 0 (-1)) (mkCell 0 1)) by (split; reflexivity).
  split; [exact turning_reachable|]. split; [exact Q|]. split; [exact O|].
  destruct queueDirection_no_reversal as (Cases & _ & Reach).
  destruct (Cases (mkCell 0 1) turning) as (_ & Drop & _).
  split; [exact (Drop _ _ Q O) | exact (Reach turning turning_reachable)].
Defined.

(** C5 on [turning]: the queue is right, up; the tick moves right and
    leaves up in the queue. *)
Lemma tick_consumes_front_witness :
  reachable turning /\ isPaused turning = false /\ isGameOver turning = false /\
  snake turning = mkCell 11 10 :: [mkCell 10 10; mkCell 9 10; mkCell 8 10] /\
  directionQueue turning = mkCell 1 0 :: [mkCell 0 (-1)] /\
  directionQueue turning <> [] /\
  forall s', tick 1 turning = Done s' ->
             directionQueue s' = [mkCell 0 (-1)] /\
             hd_error (snake s') = Some (mkCell 12 10).
Proof.
  assert (P : isPaused turning = false) by (vm_compute; reflexivity).
  assert (G : isGameOver turning = false) by (vm_compute; reflexivity).
  assert (S : snake turning = mkCell 11 10 :: [mkCell 10 10; mkCell 9 10; mkCell 8 10])
    by (vm_compute; reflexivity).
  assert (Q : directionQueue turning = mkCell 1 0 :: [mkCell 0 (-1)])
    by (vm_compute; reflexivity).
  destruct (tick_consumes_front 1 turning) as (Front & NonEmpty).
  repeat (split; [first [assumption | exact turning_reachable
                         | exact (NonEmpty turning_reachable)]|]).
  intros s' H.
  destruct (Front _ _ _ _ P G S Q) as (_ & Step).
  destruct (Step s' H) as (D & [(W & _)|(_ & M)]).
  - exfalso. destruct W as [W|W].
    + apply W. unfold inBounds, GRID_SIZE. cbn. lia.
    + rewrite S in W. cbn in W. intuition discriminate.
  - split; [exact D | exact M].
Defined.

Lemma ripe_reachable : reachable ripe.
Proof.
  apply (reachableVia_run _ 1 chase fed);
    [exact fed_reachable | unfold chase; cbn [repeat app]; page_events
     | vm_compute; reflexivity].
Qed.

(** C6 on [ripe], hard preset: the tick that brings the score to 3, a
    multiple of the preset's interval 3, takes the tick interval from 120 to
    [max(60, floor(120 * 0.90)) = 108]. *)
Lemma tick_interval_speed_curve_witness :
  reachable ripe /\ keepsGame (IntervalFires 1) = true /\
  step 1 (IntervalFires 1) ripe = Done sped /\
  tick 1 ripe = Done sped /\
  score ripe = 2 /\ tickMs ripe = 120 /\
  speedupFoodInterval (difficulty ripe) = 3 /\
  minTickMs (difficulty ripe) = 60 /\
  score sped = 3 /\ tickMs sped = 108 /\
  difficulty sped = difficulty ripe /\
  minTickMs (difficulty ripe) <= tickMs sped <= tickMs ripe.
Proof.
  assert (H : step 1 (IntervalFires 1) ripe = Done sped)
    by (vm_compute; reflexivity).
  assert (H' : tick 1 ripe = Done sped) by (vm_compute; reflexivity).
  destruct tick_interval_speed_curve as (_ & Mono & _ & Speed).
  destruct (Mono 1%nat (IntervalFires 1) ripe sped ripe_reachable eq_refl H)
    as (D & B).
  split; [exact ripe_reachable|]. split; [reflexivity|].
  split; [exact H|]. split; [exact H'|].
  do 5 (split; [vm_compute; reflexivity|]).
  split; [|split; [exact D | exact B]].
  destruct (Speed 1%nat ripe sped ripe_reachable H') as [(A & _)|(_ & _ & T)].
  - vm_compute in A. discriminate A.
  - rewrite T. vm_compute. reflexivity.
Defined.


(** C8 (amended) on [paused] and [fed]. *)
Lemma resume_idle_pause_toggles_witness :
  reachable paused /\ phase paused = Paused /\
  phase (togglePause paused) = Running /\
  isPaused fed = false /\ resume fed = fed.
Proof.
  assert (Ph : phase paused = Paused) by (vm_compute; reflexivity).
  assert (P : isPaused fed = false) by (vm_compute; reflexivity).
  destruct resume_idle_pause_toggles as (Idle & _ & Toggle & _).
  destruct (Toggle paused paused_reachable Ph) as (A & _).
  split; [exact paused_reachable|]. split; [exact Ph|]. split; [exact A|].
  split; [exact P | exact (Idle fed P)].
Defined.

(** C9 on [coiled], reached through a letter key, an arrow key and a d-pad
    button. *)
Lemma queue_holds_unit_vectors_witness :
  onPage coiled /\ In "down"%string DPAD_DIRS /\
  unitVector (dirStringToVector "down") /\
  Forall unitVector (directionQueue coiled) /\
  ~ In (mkCell 0 0) (directionQueue coiled).
Proof.
  assert (D : In "down"%string DPAD_DIRS) by (cbn; auto 6).
  destruct queue_holds_unit_vectors as (_ & Pad & Reach).
  destruct (Reach coiled coiled_onPage) as (A & B).
  split; [exact coiled_onPage|]. split; [exact D|].
  split; [exact (Pad _ D)|]. split; [exact A | exact B].
Defined.

(** C10 on [atWall]: the tick into the right wall. *)
Lemma tick_game_over_frame_witness :
  reachable atWall /\ isPaused atWall = false /\ isGameOver atWall = false /\
  tick 1 atWall = Done crashed /\ isGameOver crashed = true /\
  snake crashed = snake atWall /\ food crashed = food atWall /\
  score crashed = score atWall /\ best crashed = best atWall /\
  tickMs crashed = tickMs atWall /\ loopId crashed = None.
Proof.
  assert (P : isPaused atWall = false) by (vm_compute; reflexivity).
  assert (G : isGameOver atWall = false) by (vm_compute; reflexivity).
  assert (H : tick 1 atWall = Done crashed) by (vm_compute; reflexivity).
  assert (O : isGameOver crashed = true) by (vm_compute; reflexivity).
  destruct (tick_game_over_frame 1 atWall crashed P G H O)
    as (_ & A1 & A2 & A3 & A4 & A5 & _ & _ & _ & _ & _ & _ & A6 & _).
  split; [exact atWall_reachable|].
  repeat (split; [assumption|]). exact A6.
Defined.

(** * Further properties of the script *)

(** ** Lists without their last element *)

Lemma removelast_cons {A} (a b : A) (l : list A) :
  removelast (a :: b :: l) = a :: removelast (b :: l).
Proof. reflexivity. Qed.

Lemma removelast_NoDup {A} (l : list A) : NoDup l -> NoDup (removelast l).
Proof.
  induction l as [|a l IH]; intros H; [exact H|].
  destruct l as [|b l]; [constructor|].
  rewrite removelast_cons. inversion H as [|? ? N D]; subst.
  constructor; [|apply IH, D].
  intros I. apply N. apply removelast_In, I.
Qed.

Lemma removelast_Forall {A} (P : A -> Prop) (l : list A) :
  Forall P l -> Forall P (removelast l).
Proof.
  intros H. rewrite Forall_forall in *. intros a I.
  apply H, removelast_In, I.
Qed.

Lemma removelast_chained (l : list Cell) : chained l -> chained (removelast l).
Proof.
  induction l as [|a l IH]; intros H; [exact H|].
  destruct l as [|b l]; [exact I|].
  rewrite removelast_cons. destruct l as [|c l]; [exact I|].
  rewrite removelast_cons. cbn [chained] in H |- *.
  destruct H as [H1 H2]. split; [exact H1|].
  change (b :: removelast (c :: l)) with (removelast (b :: c :: l)).
  apply IH. exact H2.
Qed.

(** ** What the handlers leave alone *)

Lemma togglePause_keeps (s : State) :
  snake (togglePause s) = snake s /\
  directionQueue (togglePause s) = directionQueue s /\
  food (togglePause s) = food s /\ score (togglePause s) = score s /\
  best (togglePause s) = best s /\ tickMs (togglePause s) = tickMs s /\
  isGameOver (togglePause s) = isGameOver s /\
  difficulty (togglePause s) = difficulty s /\
  difficultyKey (togglePause s) = difficultyKey s /\
  mathRandom (host (togglePause s)) = mathRandom (host s) /\
  randomCalls (host (togglePause s)) = randomCalls (host s).
Proof.
  unfold togglePause, startLoop, stopLoop, setInterval, clearInterval.
  open_state s.
  destruct isGameOver0, isPaused0, loopId0; proj_simpl; cbn [negb];
    proj_simpl; repeat split.
Qed.

Lemma resume_keeps (s : State) :
  snake (resume s) = snake s /\
  directionQueue (resume s) = directionQueue s /\
  food (resume s) = food s /\ score (resume s) = score s /\
  best (resume s) = best s /\ tickMs (resume s) = tickMs s /\
  isGameOver (resume s) = isGameOver s /\
  difficulty (resume s) = difficulty s /\
  difficultyKey (resume s) = difficultyKey s /\
  mathRandom (host (resume s)) = mathRandom (host s) /\
  randomCalls (host (resume s)) = randomCalls (host s).
Proof.
  unfold resume. destruct (negb (isPaused s) || isGameOver s).
  - repeat split.
  - apply togglePause_keeps.
Qed.

(** [queueDirection] writes the queue and nothing else, and the queue it
    leaves is the old one or the old one with [next] behind it. *)
Lemma queueDirection_keeps (next : Cell) (s : State) :
  (queueDirection next s = s \/
   queueDirection next s = set_directionQueue (directionQueue s ++ [next]) s).
Proof.
  unfold queueDirection.
  destruct (lastQueuedOf (directionQueue s)); [|right; reflexivity].
  destruct (_ && _); [left | right]; reflexivity.
Qed.

Lemma keyToDir_stepVector (key : string) (d : Cell) :
  keyToDir key = Some d -> stepVector d.
Proof. intros H. left. eapply keyToDir_unit, H. Qed.

Lemma dirStringToVector_stepVector (dir : string) :
  stepVector (dirStringToVector dir).
Proof.
  unfold dirStringToVector, stepVector, unitVector.
  repeat match goal with
         | |- context [if ?b then _ else _] => destruct b
         end; tauto.
Qed.

Lemma opposite_self (d : Cell) : opposite d d -> d = mkCell 0 0.
Proof.
  unfold opposite. destruct d as [dx dy]. cbn [x y]. intros [A B].
  f_equal; lia.
Qed.

Lemma unitVector_adjacent (a d : Cell) :
  unitVector d -> adjacent (mkCell (x a + x d) (y a + y d)) a.
Proof.
  unfold adjacent. intros [-> | [-> | [-> | ->]]]; cbn [x y]; lia.
Qed.

(** ** The shape is kept *)

Lemma Shape_build (s s' : State) :
  Shape s -> snake s' = snake s -> score s' = score s ->
  score s' <= best s' -> Forall stepVector (directionQueue s') ->
  (isGameOver s' = false -> neckClear s') ->
  Shape s'.
Proof.
  intros [] A B C D E. constructor; try assumption; rewrite ?A, ?B; assumption.
Qed.

Lemma neckClear_same (s s' : State) :
  snake s' = snake s ->
  (directionQueue s' = directionQueue s \/
   exists next, directionQueue s <> [] /\
                directionQueue s' = directionQueue s ++ [next]) ->
  neckClear s -> neckClear s'.
Proof.
  unfold neckClear. intros -> [-> | (next & N & ->)]; [auto|].
  destruct (directionQueue s) as [|d q]; [congruence|]. auto.
Qed.

Lemma togglePause_shape (s : State) : Shape s -> Shape (togglePause s).
Proof.
  intros H. destruct (togglePause_keeps s) as (A & B & _ & C & D & _ & E & _).
  apply (Shape_build s); auto.
  - rewrite C, D. apply (shape_best s H).
  - rewrite B. apply (shape_vectors s H).
  - rewrite E. intros G. apply (neckClear_same s); auto. apply (shape_neck s H G).
Qed.

Lemma resume_shape (s : State) : Shape s -> Shape (resume s).
Proof.
  intros H. unfold resume. destruct (_ || _); [exact H|].
  apply togglePause_shape, H.
Qed.

Lemma queueDirection_shape (next : Cell) (s : State) :
  Shape s -> directionQueue s <> [] -> stepVector next ->
  Shape (queueDirection next s).
Proof.
  intros H N V. destruct (queueDirection_keeps next s) as [-> | ->]; [exact H|].
  apply (Shape_build s); proj_simpl; auto.
  - apply (shape_best s H).
  - apply Forall_app. split; [apply (shape_vectors s H)|].
    constructor; [exact V | constructor].
  - intros G. apply (neckClear_same s); proj_simpl; auto.
    + right. exists next. auto.
    + apply (shape_neck s H G).
Qed.

Lemma resetGame_shape (fuel : nat) (s s' : State) :
  resetGame fuel s = Done s' -> Shape s'.
Proof.
  intros H.
  destruct (resetGame_done _ _ _ H) as (A & B & _ & D & E & _).
  constructor; rewrite ?A, ?B, ?D, ?E.
  - repeat constructor; cbn; intuition discriminate.
  - repeat constructor; cbn; lia.
  - cbn. unfold adjacent. cbn. auto.
  - reflexivity.
  - lia.
  - constructor; [|constructor]. left. left. reflexivity.
  - intros _. unfold neckClear. rewrite A, B. unfold opposite. cbn. lia.
Qed.

Lemma gameOver_shape (s : State) (queue : list Cell) :
  Shape s -> Forall stepVector queue ->
  Shape (gameOver (set_directionQueue queue s)).
Proof.
  intros H V.
  destruct (gameOver_fields (set_directionQueue queue s))
    as (A1 & _ & A3 & A4 & _ & A6 & A7 & _).
  proj_simpl. apply (Shape_build s); auto.
  - rewrite A6, A7. apply (shape_best s H).
  - rewrite A4. exact V.
  - rewrite A1. discriminate.
Qed.

(** The snake after a move by [dir] from a head that the next head does
    not hit. *)
Lemma moved_shape (head dir nextHead : Cell) (body grown queue : list Cell) :
  nextHead = mkCell (x head + x dir) (y head + y dir) ->
  NoDup (head :: body) -> Forall inBounds (head :: body) ->
  chained (head :: body) ->
  (grown = head :: body \/ grown = removelast (head :: body)) ->
  (1 < List.length (head :: body))%nat ->
  inBounds nextHead -> ~ In nextHead (head :: body) ->
  stepVector dir -> noReversal (dir :: queue) ->
  NoDup (nextHead :: grown) /\ Forall inBounds (nextHead :: grown) /\
  chained (nextHead :: grown) /\
  (exists rest, nextHead :: grown = nextHead :: head :: rest) /\
  ~ opposite (mkCell (x nextHead - x head) (y nextHead - y head))
             (hd dir (shifted (dir :: queue))).
Proof.
  intros E N B C G L IB NI V R.
  assert (U : unitVector dir).
  { destruct V as [V | ->]; [exact V|]. exfalso. apply NI. left.
    rewrite E. destruct head. cbn [x y]. f_equal; lia. }
  assert (O : ~ opposite (mkCell (x nextHead - x head) (y nextHead - y head))
                         (hd dir (shifted (dir :: queue)))).
  { assert (D : mkCell (x nextHead - x head) (y nextHead - y head) = dir).
    { rewrite E. destruct dir. cbn [x y]. f_equal; lia. }
    rewrite D. destruct queue as [|d2 queue]; cbn [shifted hd].
    - intros S. apply opposite_self in S. apply (unitVector_nonzero _ U S).
    - cbn [noReversal] in R. tauto. }
  destruct body as [|neck body]; [cbn in L; lia|].
  destruct G as [-> | ->].
  - split; [|split; [|split; [|split]]]; auto.
    + constructor; assumption.
    + change (adjacent nextHead head /\ chained (head :: neck :: body)).
      split; [|exact C]. rewrite E. apply unitVector_adjacent, U.
    + eauto.
  - rewrite removelast_cons. split; [|split; [|split; [|split]]]; auto.
    + constructor.
      * intros I. apply NI. rewrite <- removelast_cons in I.
        apply removelast_In in I. exact I.
      * rewrite <- removelast_cons. apply removelast_NoDup, N.
    + constructor; [exact IB|]. rewrite <- removelast_cons.
      apply removelast_Forall, B.
    + pose proof (removelast_chained _ C) as C'. rewrite removelast_cons in C'.
      change (adjacent nextHead head /\ chained (head :: removelast (neck :: body))).
      split; [|exact C']. rewrite E. apply unitVector_adjacent, U.
    + eauto.
Qed.

Lemma neckClear_moved (s' : State) (nextHead head dir : Cell)
      (rest queue : list Cell) :
  snake s' = nextHead :: head :: rest ->
  directionQueue s' = shifted (dir :: queue) ->
  ~ opposite (mkCell (x nextHead - x head) (y nextHead - y head))
             (hd dir (shifted (dir :: queue))) ->
  neckClear s'.
Proof.
  unfold neckClear. intros -> -> O.
  destruct queue as [|d2 queue]; cbn [shifted hd] in *; exact O.
Qed.

Lemma tick_shape (fuel : nat) (s s' : State) :
  Inv s -> Shape s -> tick fuel s = Done s' -> Shape s'.
Proof.
  intros HI HS H.
  destruct (isPaused s || isGameOver s) eqn:PG.
  { unfold tick in H. rewrite PG in H. injection H as <-. exact HS. }
  apply orb_false_iff in PG. destruct PG as [P G].
  destruct (tick_done_running fuel s s' P G H)
    as (head & body & dir & rest & Hs & Hq).
  set (nextHead := mkCell (x head + x dir) (y head + y dir)).
  pose proof (shape_vectors s HS) as V.
  destruct (outOfBounds nextHead || hitsBody nextHead (snake s)) eqn:C.
  - rewrite (tick_running fuel s head dir body rest P G Hs Hq) in H.
    cbv zeta in H. fold nextHead in H. rewrite C in H. injection H as <-.
    apply gameOver_shape; [exact HS|]. apply shifted_Forall, V.
  - apply orb_false_iff in C. destruct C as [C1 C2].
    assert (IB : inBounds nextHead) by (apply outOfBounds_spec, C1).
    assert (NI : ~ In nextHead (head :: body)).
    { rewrite <- Hs, <- hitsBody_In. congruence. }
    assert (L : (1 < List.length (head :: body))%nat).
    { pose proof (shape_score s HS) as Sc. pose proof (inv_score s HI) as S0.
      rewrite Hs in Sc. lia. }
    assert (Vd : stepVector dir).
    { rewrite Hq in V. inversion V. assumption. }
    assert (R : noReversal (dir :: rest)).
    { rewrite <- Hq. apply (inv_noReversal s HI). }
    pose proof (shape_nodup s HS) as N. pose proof (shape_bounds s HS) as B.
    pose proof (shape_chain s HS) as Ch. rewrite Hs in N, B, Ch.
    destruct (tick_advances fuel s s' head dir body rest P G Hs Hq C1 C2 H)
      as (_ & G' & Dq & _ & _ & [(_ & S1 & _ & S2 & S3 & _)|(_ & S1 & S2 & S3 & _)]);
      rewrite Hq in Dq; rewrite Hs in S1.
    + destruct (moved_shape head dir nextHead body (removelast (head :: body)) rest
                  eq_refl N B Ch (or_intror eq_refl) L IB NI Vd R)
        as (M1 & M2 & M3 & (tail & M4) & M5).
      fold nextHead in S1.
      constructor; rewrite ?S1; auto.
      * rewrite S2. rewrite (shape_score s HS), Hs.
        cbn [List.length]. rewrite removelast_length by discriminate. reflexivity.
      * rewrite S2, S3. apply (shape_best s HS).
      * rewrite Dq. apply shifted_Forall. rewrite <- Hq. exact V.
      * intros _. apply (neckClear_moved s' nextHead head dir tail rest); auto.
        rewrite S1. exact M4.
    + destruct (moved_shape head dir nextHead body (head :: body) rest
                  eq_refl N B Ch (or_introl eq_refl) L IB NI Vd R)
        as (M1 & M2 & M3 & (tail & M4) & M5).
      fold nextHead in S1.
      constructor; rewrite ?S1; auto.
      * rewrite S2. rewrite (shape_score s HS), Hs. cbn [List.length]. lia.
      * rewrite S2, S3. lia.
      * rewrite Dq. apply shifted_Forall. rewrite <- Hq. exact V.
      * intros _. apply (neckClear_moved s' nextHead head dir tail rest); auto.
        rewrite S1. exact M4.
Qed.

Lemma step_shape (fuel : nat) (e : Event) (s s' : State) :
  Inv s -> Shape s -> step fuel e s = Done s' -> Shape s'.
Proof.
  intros HI HS H. pose proof (inv_queue s HI) as NE.
  destruct e as [key|[dir|]| | | | |onOverlay|newKey|handle]; cbn [step] in H.
  - destruct (_ || _) in H.
    + injection H as <-. apply togglePause_shape, HS.
    + destruct (keyToDir (toLowerCase key)) as [d|] eqn:K; injection H as <-.
      * apply queueDirection_shape; auto. eapply keyToDir_stepVector, K.
      * exact HS.
  - destruct (String.eqb dir EmptyString); injection H as <-; [exact HS|].
    apply queueDirection_shape; auto. apply dirStringToVector_stepVector.
  - injection H as <-. exact HS.
  - injection H as <-. apply togglePause_shape, HS.
  - eapply resetGame_shape, H.
  - injection H as <-. apply resume_shape, HS.
  - eapply resetGame_shape, H.
  - destruct (_ && _) in H; injection H as <-; [apply resume_shape|]; exact HS.
  - keyed H. eapply resetGame_shape, H.
  - destruct (registered handle (host s)).
    + eapply tick_shape; eassumption.
    + injection H as <-. exact HS.
Qed.

Lemma reachable_shape (s : State) : reachable s -> Shape s.
Proof.
  intros R. pose proof R as R'. unfold reachable in R.
  induction R as [fuel h b key s Hh H|fuel h b s Hh H|fuel e s s' R0 IH He H].
  - unfold init in H. keyed H. eapply resetGame_shape, H.
  - eapply resetGame_shape, H.
  - eapply step_shape; [| |exact H].
    + eapply reachableVia_inv, R0.
    + apply IH. exact R0.
Qed.

(** ** The snake on the grid *)

(** X1.  In every reachable state the cells of the snake are pairwise
    distinct: the self-collision loop of [tick] rejects any move onto the
    body before the head is put in front. *)
Theorem snake_cells_distinct (s : State) :
  reachable s -> NoDup (snake s).
Proof. intros R. apply (shape_nodup s (reachable_shape s R)). Qed.

(** X2.  In every reachable state the snake has at least three cells and
    all of them lie inside the grid: the wall test of [tick] rejects a head
    outside [0, GRID_SIZE) on either axis, and [resetGame] starts from three
    cells in the middle row. *)
Theorem snake_inside_grid (s : State) :
  reachable s ->
  (3 <= List.length (snake s))%nat /\ Forall inBounds (snake s).
Proof.
  intros R. pose proof (reachable_shape s R) as HS.
  pose proof (reachable_inv s R) as HI.
  split; [|apply (shape_bounds s HS)].
  pose proof (shape_score s HS). pose proof (inv_score s HI). lia.
Qed.

(** X3.  In every reachable state each cell of the snake is side by side
    with the next one: a tick moves the head by one cell along one axis and
    the body follows. *)
Theorem snake_is_a_path (s : State) :
  reachable s -> chained (snake s).
Proof. intros R. apply (shape_chain s (reachable_shape s R)). Qed.

(** X4.  In every reachable state the score is the number of cells the
    snake has gained over its initial three, and the best score is at least
    the score. *)
Theorem score_counts_growth (s : State) :
  reachable s ->
  score s = Z.of_nat (List.length (snake s)) - 3 /\ 0 <= score s <= best s.
Proof.
  intros R. pose proof (reachable_shape s R) as HS.
  pose proof (reachable_inv s R) as HI.
  split; [apply (shape_score s HS)|].
  split; [apply (inv_score s HI) | apply (shape_best s HS)].
Qed.

(** X5.  In a reachable state that is not over, the next head is never the
    second cell of the snake: whatever was queued, the snake does not turn
    back onto its own neck. *)
Theorem never_turns_onto_neck (s : State) (head neck nextHead : Cell)
        (rest : list Cell) :
  reachable s -> isGameOver s = false ->
  snake s = head :: neck :: rest ->
  computeNextHead s = Some nextHead ->
  nextHead <> neck.
Proof.
  intros R G Hs N E. pose proof (shape_neck s (reachable_shape s R) G) as K.
  unfold neckClear in K. unfold computeNextHead in N. rewrite Hs in K, N.
  destruct (directionQueue s) as [|dir queue]; [discriminate|].
  injection N as <-. apply K. unfold opposite. cbn [x y].
  apply (f_equal x) in E as Ex. apply (f_equal y) in E as Ey.
  cbn [x y] in Ex, Ey. lia.
Qed.

(** ** Score and best score *)

Lemma tick_score (fuel : nat) (s s' : State) :
  tick fuel s = Done s' ->
  best s <= best s' /\ score s <= score s' <= score s + 1.
Proof.
  intros H.
  destruct (isPaused s || isGameOver s) eqn:PG.
  { unfold tick in H. rewrite PG in H. injection H as <-. lia. }
  apply orb_false_iff in PG. destruct PG as [P G].
  destruct (tick_done_running fuel s s' P G H)
    as (head & body & dir & rest & Hs & Hq).
  set (nextHead := mkCell (x head + x dir) (y head + y dir)).
  destruct (outOfBounds nextHead || hitsBody nextHead (snake s)) eqn:C.
  - rewrite (tick_running fuel s head dir body rest P G Hs Hq) in H.
    cbv zeta in H. fold nextHead in H. rewrite C in H. injection H as <-.
    destruct (gameOver_fields (set_directionQueue (shifted (directionQueue s)) s))
      as (_ & _ & _ & _ & _ & A6 & A7 & _).
    proj_simpl. lia.
  - apply orb_false_iff in C. destruct C as [C1 C2].
    destruct (tick_advances fuel s s' head dir body rest P G Hs Hq C1 C2 H)
      as (_ & _ & _ & _ & _ & [(_ & _ & _ & S2 & S3 & _)|(_ & _ & S2 & S3 & _)]); lia.
Qed.

(** X6.  No event lowers the best score.  An event other than a restart or
    a change of difficulty keeps the score or raises it by one; a restart
    or a change of difficulty sets it to 0. *)
Theorem score_steps (fuel : nat) (e : Event) (s s' : State) :
  step fuel e s = Done s' ->
  best s <= best s' /\
  (keepsGame e = true -> score s <= score s' <= score s + 1) /\
  (keepsGame e = false -> score s' = 0).
Proof.
  intros H.
  assert (T : best s <= best (togglePause s) /\
              score s <= score (togglePause s) <= score s + 1).
  { destruct (togglePause_keeps s) as (_ & _ & _ & A & B & _). lia. }
  assert (R : best s <= best (resume s) /\
              score s <= score (resume s) <= score s + 1).
  { destruct (resume_keeps s) as (_ & _ & _ & A & B & _). lia. }
  assert (Q : forall d, best s <= best (queueDirection d s) /\
                        score s <= score (queueDirection d s) <= score s + 1).
  { intros d. destruct (queueDirection_keeps d s) as [-> | ->]; proj_simpl; lia. }
  assert (Z : forall t, resetGame fuel s = Done t -> best s <= best t /\ score t = 0).
  { intros t Ht. destruct (resetGame_done _ _ _ Ht) as (_ & _ & _ & A & B & _). lia. }
  destruct e as [key|[dir|]| | | | |onOverlay|newKey|handle];
    cbn [step keepsGame] in *.
  - destruct (_ || _) in H.
    + injection H as <-. intuition (try discriminate; lia).
    + destruct (keyToDir (toLowerCase key)) as [d|]; injection H as <-.
      * specialize (Q d). intuition (try discriminate; lia).
      * intuition (try discriminate; lia).
  - destruct (String.eqb dir EmptyString); injection H as <-.
    + intuition (try discriminate; lia).
    + specialize (Q (dirStringToVector dir)). intuition (try discriminate; lia).
  - injection H as <-. intuition (try discriminate; lia).
  - injection H as <-. intuition (try discriminate; lia).
  - specialize (Z _ H). intuition (try discriminate; lia).
  - injection H as <-. intuition (try discriminate; lia).
  - specialize (Z _ H). intuition (try discriminate; lia).
  - destruct (_ && _) in H; injection H as <-; intuition (try discriminate; lia).
  - keyed H.
    destruct (setDifficultyFromKey_frame newKey s _ K) as (_ & _ & _ & B).
    destruct (resetGame_done _ _ _ H) as (_ & _ & _ & A & E & _).
    rewrite B in E. intuition (try discriminate; lia).
  - destruct (registered handle (host s)).
    + pose proof (tick_score fuel s s' H). intuition (try discriminate; lia).
    + injection H as <-. intuition (try discriminate; lia).
Qed.

(** ** Game over, pause and the clock *)

Lemma idle_clock (s : State) :
  reachable s -> phase s <> Running ->
  loopId s = None /\ intervals (host s) = [].
Proof.
  intros R Ph. pose proof (reachable_inv s R) as HI.
  assert (L : loopId s = None).
  { apply (inv_loop s HI). unfold phase in Ph.
    destruct (isGameOver s); [apply orb_true_r|].
    destruct (isPaused s); [reflexivity | congruence]. }
  split; [exact L|]. rewrite (inv_clock s HI), L. reflexivity.
Qed.

(** X7.  In every reachable state exactly the running game has an interval
    registered: it is the one [loopId] names, its period is [tickMs], and no
    other handle is registered; a paused or finished game has no handle and
    no interval. *)
Theorem one_clock_when_running (s : State) :
  reachable s ->
  (phase s = Running ->
   exists id, loopId s = Some id /\ intervals (host s) = [(id, tickMs s)]) /\
  (phase s <> Running -> loopId s = None /\ intervals (host s) = []) /\
  (forall handle, registered handle (host s) = true <-> loopId s = Some handle).
Proof.
  intros R. pose proof (reachable_inv s R) as HI.
  pose proof (inv_clock s HI) as C. pose proof (inv_loop s HI) as L.
  unfold clockOk in C. unfold phase, registered. rewrite C.
  destruct (loopId s) as [id|] eqn:E.
  - assert (PG : isPaused s || isGameOver s = false).
    { destruct (isPaused s || isGameOver s); [|reflexivity].
      destruct L as [_ L]. discriminate (L eq_refl). }
    apply orb_false_iff in PG. destruct PG as [-> ->].
    split; [eauto|]. split; [congruence|].
    intros handle. cbn. rewrite orb_false_r, Pos.eqb_eq.
    split; [intros ->; reflexivity | intros X; injection X; auto].
  - destruct L as [L _]. specialize (L eq_refl). split; [|split].
    + destruct (isGameOver s); [discriminate|].
      destruct (isPaused s); [discriminate | discriminate L].
    + auto.
    + intros handle. cbn. split; discriminate.
Qed.

(** X8.  A timer callback does nothing unless the game is running: [tick]
    returns the state it was given when the game is paused or over, and in
    a reachable state that is not running no handle fires at all. *)
Theorem no_tick_unless_running (fuel : nat) (s : State) :
  (isPaused s || isGameOver s = true -> tick fuel s = Done s) /\
  (reachable s -> phase s <> Running ->
   forall handle, registered handle (host s) = false /\
                  step fuel (IntervalFires handle) s = Done s).
Proof.
  split.
  - intros PG. unfold tick. rewrite PG. reflexivity.
  - intros R Ph handle.
    destruct (idle_clock s R Ph) as (_ & I).
    assert (F : registered handle (host s) = false)
      by (unfold registered; rewrite I; reflexivity).
    split; [exact F|]. cbn [step]. rewrite F. reflexivity.
Qed.

Lemma togglePause_over (s : State) : isGameOver s = true -> togglePause s = s.
Proof. intros G. unfold togglePause. rewrite G. reflexivity. Qed.

Lemma resume_over (s : State) : isGameOver s = true -> resume s = s.
Proof. intros G. unfold resume. rewrite G, orb_true_r. reflexivity. Qed.

(** X9.  Game over is final until a restart: in a reachable state that is
    over, every event other than a restart or a change of difficulty
    returns a state that is still over, with no clock, and with the same
    snake, food, score, best score and tick interval; only the direction
    queue can change (key presses are still queued). *)
Theorem game_over_is_final (fuel : nat) (e : Event) (s : State) :
  reachable s -> isGameOver s = true -> keepsGame e = true ->
  exists s',
    step fuel e s = Done s' /\ isGameOver s' = true /\
    loopId s' = None /\ intervals (host s') = [] /\
    snake s' = snake s /\ food s' = food s /\ score s' = score s /\
    best s' = best s /\ tickMs s' = tickMs s /\ isPaused s' = isPaused s.
Proof.
  intros R G K.
  assert (Ph : phase s <> Running) by (unfold phase; rewrite G; discriminate).
  destruct (idle_clock s R Ph) as (L & I).
  assert (Same : exists s', Done s = Done s' /\ isGameOver s' = true /\
                   loopId s' = None /\ intervals (host s') = [] /\
                   snake s' = snake s /\ food s' = food s /\ score s' = score s /\
                   best s' = best s /\ tickMs s' = tickMs s /\
                   isPaused s' = isPaused s)
    by (exists s; repeat split; assumption).
  assert (Q : forall d, exists s', Done (queueDirection d s) = Done s' /\
                isGameOver s' = true /\
                loopId s' = None /\ intervals (host s') = [] /\
                snake s' = snake s /\ food s' = food s /\ score s' = score s /\
                best s' = best s /\ tickMs s' = tickMs s /\
                isPaused s' = isPaused s).
  { intros d. destruct (queueDirection_keeps d s) as [-> | ->]; [exact Same|].
    eexists. split; [reflexivity|]. proj_simpl. repeat split; assumption. }
  destruct e as [key|[dir|]| | | | |onOverlay|newKey|handle];
    cbn [step keepsGame] in *; try discriminate.
  - destruct (_ || _).
    + rewrite (togglePause_over s G). exact Same.
    + destruct (keyToDir (toLowerCase key)) as [d|]; [apply Q | exact Same].
  - destruct (String.eqb dir EmptyString); [exact Same | apply Q].
  - exact Same.
  - rewrite (togglePause_over s G). exact Same.
  - rewrite (resume_over s G). exact Same.
  - rewrite G. cbn [negb]. rewrite andb_false_r. exact Same.
  - assert (F : registered handle (host s) = false)
      by (unfold registered; rewrite I; reflexivity).
    rewrite F. exact Same.
Qed.

Lemma stopLoop_handle (s : State) :
  nextHandle (host (stopLoop s)) = nextHandle (host s).
Proof.
  unfold stopLoop, clearInterval. open_state s.
  destruct loopId0; reflexivity.
Qed.

(** X10.  Pausing a running game and resuming it (by the pause control or
    by [resume]) gives back the running game: snake, queue, food, score,
    best score, tick interval, difficulty and random tape position are as
    before, and one interval is registered at the current tick period,
    under the handle the host issued next. *)
Theorem pause_then_resume (s : State) :
  reachable s -> phase s = Running ->
  let p := togglePause s in
  phase p = Paused /\
  resume p = togglePause p /\
  phase (togglePause p) = Running /\
  snake (togglePause p) = snake s /\
  directionQueue (togglePause p) = directionQueue s /\
  food (togglePause p) = food s /\ score (togglePause p) = score s /\
  best (togglePause p) = best s /\ tickMs (togglePause p) = tickMs s /\
  difficulty (togglePause p) = difficulty s /\
  randomCalls (host (togglePause p)) = randomCalls (host s) /\
  loopId (togglePause p) = Some (nextHandle (host s)) /\
  intervals (host (togglePause p)) = [(nextHandle (host s), tickMs s)].
Proof.
  intros R Ph p. pose proof (reachable_inv s R) as HI.
  pose proof (clockOk_singleTimer s (inv_clock s HI)) as T.
  unfold phase in Ph.
  destruct (isGameOver s) eqn:G; [discriminate|].
  destruct (isPaused s) eqn:P; [discriminate|].
  assert (Ep : p = stopLoop (set_isPaused true s)).
  { unfold p, togglePause. rewrite G. proj_simpl. rewrite P. reflexivity. }
  destruct (stopLoop_frame (set_isPaused true s)) as (F & F1 & F2 & F3).
  destruct (stopLoop_clock (set_isPaused true s) T) as (K1 & K2).
  pose proof (stopLoop_handle (set_isPaused true s)) as K3.
  rewrite <- Ep in F, F1, F2, F3, K1, K2, K3. board F. proj_simpl.
  rewrite G in B5.
  assert (Eq : togglePause p = startLoop (set_isPaused false p)).
  { unfold togglePause. rewrite B5. proj_simpl. rewrite B4. reflexivity. }
  assert (T' : singleTimer (set_isPaused false p)).
  { unfold singleTimer. proj_simpl. rewrite K1. exact K2. }
  destruct (startLoop_frame (set_isPaused false p)) as (F' & F1' & F2' & F3').
  destruct (startLoop_clock (set_isPaused false p) T') as (K1' & K2').
  rewrite <- Eq in F', F1', F2', F3', K1', K2'.
  destruct F' as (C1 & C2 & C3 & C4 & C5 & C6 & C7 & C8 & C9). proj_simpl.
  split; [unfold phase; rewrite B5, B4; reflexivity|].
  split; [unfold resume; rewrite B4, B5; reflexivity|].
  split; [unfold phase; rewrite C5, B5, C4; reflexivity|].
  rewrite K3 in K1', K2'. rewrite F3 in K2'.
  repeat split; congruence.
Qed.

(** ** Input *)

(** X11.  A key press other than the space bar, or a d-pad click, returns
    the state unchanged or with one vector put at the back of the direction
    queue, and that vector is a unit vector or [(0,0)]: such input never
    moves the snake and never touches score, food or clock. *)
Theorem direction_input_only_queues (fuel : nat) (e : Event) (s : State) :
  directionInput e = true ->
  step fuel e s = Done s \/
  exists d, stepVector d /\
            step fuel e s = Done (set_directionQueue (directionQueue s ++ [d]) s).
Proof.
  intros D.
  assert (Q : forall d, stepVector d ->
              Done (queueDirection d s) = Done s \/
              exists d', stepVector d' /\
                Done (queueDirection d s)
                = Done (set_directionQueue (directionQueue s ++ [d']) s)).
  { intros d V. destruct (queueDirection_keeps d s) as [-> | ->]; [left|right]; eauto. }
  destruct e as [key|[dir|]| | | | |onOverlay|newKey|handle];
    cbn [step directionInput] in *; try discriminate.
  - apply negb_true_iff in D. rewrite D.
    destruct (keyToDir (toLowerCase key)) as [d|] eqn:K; [|left; reflexivity].
    apply Q. eapply keyToDir_stepVector, K.
  - destruct (String.eqb dir EmptyString); [left; reflexivity|].
    apply Q, dirStringToVector_stepVector.
  - left. reflexivity.
Qed.

(** X12.  A direction queued behind a single queued direction takes effect
    one tick late: with [cur] alone in the queue and [next] not opposite to
    it, [queueDirection next] followed by a tick that does not end the game
    moves the head by [cur], leaves [next] alone in the queue, and the tick
    after that is set to move by [next]. *)
Theorem queued_turn_lags_one_tick (fuel : nat) (s s' : State)
        (head cur next : Cell) (body : list Cell) :
  isPaused s = false -> isGameOver s = false ->
  snake s = head :: body -> directionQueue s = [cur] ->
  ~ opposite cur next ->
  tick fuel (queueDirection next s) = Done s' -> isGameOver s' = false ->
  hd_error (snake s') = Some (mkCell (x head + x cur) (y head + y cur)) /\
  directionQueue s' = [next] /\
  computeNextHead s' =
    Some (mkCell (x head + x cur + x next) (y head + y cur + y next)).
Proof.
  intros P G Hs Hq O H G'.
  destruct (queueDirection_cases next s) as (_ & _ & App).
  rewrite (App [] cur Hq O) in H. rewrite Hq in H. cbn [app] in H.
  set (s1 := set_directionQueue [cur; next] s) in *.
  assert (P1 : isPaused s1 = false) by exact P.
  assert (G1 : isGameOver s1 = false) by exact G.
  assert (S1 : snake s1 = head :: body) by exact Hs.
  assert (Q1 : directionQueue s1 = cur :: [next]) by reflexivity.
  set (nextHead := mkCell (x head + x cur) (y head + y cur)).
  destruct (outOfBounds nextHead || hitsBody nextHead (snake s1)) eqn:C.
  - rewrite (tick_running fuel s1 head cur body [next] P1 G1 S1 Q1) in H.
    cbv zeta in H. fold nextHead in H. rewrite C in H. injection H as <-.
    destruct (gameOver_fields (set_directionQueue (shifted (directionQueue s1)) s1))
      as (A & _).
    pose proof (eq_trans (eq_sym A) G') as X. discriminate X.
  - apply orb_false_iff in C. destruct C as [C1 C2].
    destruct (tick_advances fuel s1 s' head cur body [next] P1 G1 S1 Q1 C1 C2 H)
      as (_ & _ & D & _ & _ & [(_ & M & _)|(_ & M & _)]);
      rewrite Q1 in D; cbn [shifted] in D; fold nextHead in M;
      (split; [rewrite M; reflexivity|]); (split; [exact D|]);
      unfold computeNextHead; rewrite M, D; reflexivity.
Qed.

(** ** Random numbers *)

(** X13.  On every value [Math.random()] may return and for every integer
    [0 < maxExclusive < 2^52], [randomInt(0, maxExclusive)] computed in
    binary64 is exactly an integer [k] with [0 <= k < maxExclusive]: the
    rounding of the product never reaches [maxExclusive]. *)
Theorem randomInt_bounds (r : spec_float) (maxExclusive : Z) :
  Number.isRandom r = true -> 0 < maxExclusive < 2 ^ 52 ->
  exists k, 0 <= k < maxExclusive /\
            randomInt r 0 maxExclusive = Number.ofInt k /\
            Number.toInt (randomInt r 0 maxExclusive) = k.
Proof.
  intros Hr Hn.
  destruct (randomInt_from_zero r maxExclusive Hr Hn) as (k & K & E).
  exists k. split; [exact K|]. split; [exact E|].
  rewrite E. apply toInt_ofInt.
  assert (2 ^ 52 < 2 ^ 53) by (apply Z.pow_lt_mono_r; lia). lia.
Qed.

(** Beyond [2^53] the sum is rounded and the bound fails:
    [randomInt(2^53 + 2, 2^53 + 4)] at [0.75] is [2^53 + 4]. *)
Remark randomInt_beyond_2_53 :
  randomInt (Number.literal 3 4) (2 ^ 53 + 2) (2 ^ 53 + 4)
  = Number.ofInt (2 ^ 53 + 4).
Proof. vm_compute. reflexivity. Qed.

Lemma passCell_advance (h : Host) (j : nat) :
  passCell (advanceRandom (S (S (randomCalls h))) h) j = passCell h (S j).
Proof.
  unfold passCell. cbn [randomCalls advanceRandom]. rewrite drawCell_advance.
  f_equal. lia.
Qed.

Lemma advanceRandom_twice (m n : nat) (h : Host) :
  advanceRandom n (advanceRandom m h) = advanceRandom n h.
Proof. reflexivity. Qed.

(** X14.  [getRandomEmptyCell] returns the first cell drawn that is not
    excluded: it returns [pos] exactly when some pass draws [pos], [pos] is
    not excluded, every earlier pass drew an excluded cell, and two random
    numbers have been read per pass made.  More fuel does not change what
    is returned. *)
Theorem getRandomEmptyCell_first_free (exclusions : list Cell) :
  (forall fuel h pos h',
      getRandomEmptyCell fuel exclusions h = Some (pos, h') <->
      exists k, (k < fuel)%nat /\
                (forall j, (j < k)%nat -> excluded exclusions (passCell h j) = true) /\
                excluded exclusions (passCell h k) = false /\
                pos = passCell h k /\
                h' = advanceRandom (randomCalls h + 2 * S k) h) /\
  (forall fuel fuel' h pos h',
      (fuel <= fuel')%nat ->
      getRandomEmptyCell fuel exclusions h = Some (pos, h') ->
      getRandomEmptyCell fuel' exclusions h = Some (pos, h')).
Proof.
  assert (Spec : forall fuel h pos h',
      getRandomEmptyCell fuel exclusions h = Some (pos, h') <->
      exists k, (k < fuel)%nat /\
                (forall j, (j < k)%nat -> excluded exclusions (passCell h j) = true) /\
                excluded exclusions (passCell h k) = false /\
                pos = passCell h k /\
                h' = advanceRandom (randomCalls h + 2 * S k) h).
  { induction fuel as [|fuel IH]; intros h pos h'.
    - cbn [getRandomEmptyCell]. split; [discriminate|]. intros (k & L & _). lia.
    - cbn [getRandomEmptyCell].
      fold (excluded exclusions (drawCell h (randomCalls h))).
      assert (P0 : passCell h 0 = drawCell h (randomCalls h)).
      { unfold passCell. f_equal. lia. }
      rewrite <- P0.
      destruct (excluded exclusions (passCell h 0)) eqn:E; cbn [negb].
      + rewrite IH. split.
        * intros (k & L & A & B & C & D). exists (S k).
          rewrite passCell_advance in B, C. rewrite advanceRandom_twice in D.
          cbn [randomCalls advanceRandom] in D.
          split; [lia|]. split; [|split; [exact B|split; [exact C|]]].
          -- intros [|j] Hj; [exact E|]. rewrite <- passCell_advance.
             apply A. lia.
          -- rewrite D. f_equal. lia.
        * intros ([|k] & L & A & B & C & D); [congruence|]. exists k.
          rewrite passCell_advance, advanceRandom_twice.
          cbn [randomCalls advanceRandom].
          split; [lia|]. split; [|split; [exact B|split; [exact C|]]].
          -- intros j Hj. rewrite passCell_advance. apply A. lia.
          -- rewrite D. f_equal. lia.
      + split.
        * intros H. injection H as <- <-. exists 0%nat.
          split; [lia|]. split; [intros j Hj; lia|].
          split; [exact E|]. split; [reflexivity|]. f_equal. lia.
        * intros ([|k] & L & A & B & C & D).
          -- rewrite C, D.
             replace (randomCalls h + 2 * 1)%nat with (S (S (randomCalls h))) by lia.
             reflexivity.
          -- rewrite (A 0%nat) in E by lia. discriminate. }
  split; [exact Spec|].
  intros fuel fuel' h pos h' L H. apply Spec in H. apply Spec.
  destruct H as (k & Lk & R). exists k. split; [lia | exact R].
Qed.

(** ** Difficulty *)

Lemma inherited_names (key : string) :
  existsb (String.eqb key) OBJECT_PROTOTYPE = true <-> In key OBJECT_PROTOTYPE.
Proof.
  rewrite existsb_exists. split.
  - intros (k & I & E). apply String.eqb_eq in E. subst k. exact I.
  - intros I. exists key. split; [exact I | apply String.eqb_refl].
Qed.

Lemma ownProperty_keys (key : string) (d : Difficulty) :
  ownProperty DIFFICULTIES key = Some d -> ~ In key OBJECT_PROTOTYPE.
Proof.
  unfold DIFFICULTIES. cbn [ownProperty].
  do 4 (match goal with
        | |- context [String.eqb ?k key] =>
            destruct (String.eqb_spec k key) as [<-|_];
            [intros _ I; apply inherited_names in I; vm_compute in I;
             discriminate I|]
        end).
  discriminate.
Qed.

Lemma lookupDifficulty_inherited (key : string) :
  lookupDifficulty DIFFICULTIES key = Inherited <-> In key OBJECT_PROTOTYPE.
Proof.
  unfold lookupDifficulty.
  destruct (ownProperty DIFFICULTIES key) as [d|] eqn:O.
  - split; [discriminate|]. intros I.
    exfalso. exact (ownProperty_keys key d O I).
  - rewrite <- inherited_names.
    destruct (existsb (String.eqb key) OBJECT_PROTOTYPE);
      split; try reflexivity; discriminate.
Qed.

(** X15.  [setDifficultyFromKey] keeps a key of the table with the preset
    filed under it, and replaces a key that reads [undefined] by
    ["normal"] and its preset.  The names inherited from
    [Object.prototype], and only they, pass the test without being keys of
    the table and are not replaced.  After a call that stored a preset the
    key names the preset, so feeding the key back changes nothing. *)
Theorem setDifficultyFromKey_known_or_normal (key : string) (s : State) :
  (forall d, lookupDifficulty DIFFICULTIES key = Own d ->
             setDifficultyFromKey key s
             = Some (set_difficulty d (set_difficultyKey key s))) /\
  (lookupDifficulty DIFFICULTIES key = Undefined ->
   setDifficultyFromKey key s
   = Some (set_difficulty NORMAL (set_difficultyKey "normal" s))) /\
  (setDifficultyFromKey key s = None <-> In key OBJECT_PROTOTYPE) /\
  (forall s', setDifficultyFromKey key s = Some s' ->
              lookupDifficulty DIFFICULTIES (difficultyKey s')
              = Own (difficulty s') /\
              setDifficultyFromKey (difficultyKey s') s' = Some s').
Proof.
  pose proof lookupDifficulty_normal as N.
  split; [|split; [|split]].
  - intros d E. unfold setDifficultyFromKey. rewrite E, E. reflexivity.
  - intros E. unfold setDifficultyFromKey. rewrite E, N. reflexivity.
  - rewrite <- lookupDifficulty_inherited. unfold setDifficultyFromKey.
    destruct (lookupDifficulty DIFFICULTIES key) as [d| |] eqn:E.
    + rewrite E. split; discriminate.
    + rewrite E. split; reflexivity.
    + rewrite N. split; discriminate.
  - intros s' H.
    destruct (setDifficultyFromKey_cases key s s' H) as (k & d & L & -> & _).
    proj_simpl. split; [exact L|].
    unfold setDifficultyFromKey. proj_simpl. rewrite L, L.
    unfold set_difficulty, set_difficultyKey. proj_simpl. reflexivity.
Qed.

(** ** Speed-ups *)

Lemma presets_percentage_below (d : Difficulty) :
  In d presets -> exists pct, In (d, pct) percentages /\ 0 <= pct < 100.
Proof.
  unfold presets, percentages. simpl.
  intros [<-|[<-|[<-|[<-|[<-|[]]]]]];
    [exists 92 | exists 94 | exists 92 | exists 90 | exists 88];
    (split; [tauto | lia]).
Qed.

Lemma scaled_lt (d : Difficulty) (t : Z) :
  In d presets -> 1 <= t <= 200 -> scaled d t < t.
Proof.
  intros Hd Ht. destruct (presets_percentage_below d Hd) as [pct [Hp Hr]].
  rewrite (floor_mul_exact d pct t Hp) by lia.
  apply Z.div_lt_upper_bound; nia.
Qed.

(** X16.  When the score is a positive multiple of [speedupFoodInterval],
    [maybeSpeedUp] strictly shortens a tick interval that is above
    [minTickMs], never below [minTickMs], and restarts the clock at the new
    period; at [minTickMs] it changes nothing and leaves the running
    interval alone. *)
Theorem speed_up_strict_until_floor (s : State) :
  In (difficulty s) presets ->
  minTickMs (difficulty s) <= tickMs s <= initialSpeedMs (difficulty s) ->
  singleTimer s ->
  0 < score s -> Z.rem (score s) (speedupFoodInterval (difficulty s)) = 0 ->
  (tickMs s = minTickMs (difficulty s) -> maybeSpeedUp s = s) /\
  (minTickMs (difficulty s) < tickMs s ->
   minTickMs (difficulty s) <= tickMs (maybeSpeedUp s) < tickMs s /\
   loopId (maybeSpeedUp s) = Some (nextHandle (host s)) /\
   intervals (host (maybeSpeedUp s))
   = [(nextHandle (host s), tickMs (maybeSpeedUp s))]).
Proof.
  intros Hd Ht T S0 S1.
  destruct (presets_shape _ Hd) as (P1 & P2 & _).
  pose proof (scaled_lt (difficulty s) (tickMs s) Hd ltac:(lia)) as SL.
  unfold maybeSpeedUp. fold (scaled (difficulty s) (tickMs s)).
  replace (0 <? score s) with true by (symmetry; apply Z.ltb_lt; exact S0).
  rewrite S1, Z.eqb_refl. cbn [andb].
  split.
  - intros E.
    replace (Z.max (minTickMs (difficulty s)) (scaled (difficulty s) (tickMs s)))
      with (tickMs s) by lia.
    rewrite Z.eqb_refl. reflexivity.
  - intros Lt.
    set (newTick := Z.max (minTickMs (difficulty s))
                          (scaled (difficulty s) (tickMs s))).
    assert (N : newTick < tickMs s) by (unfold newTick; lia).
    replace (newTick =? tickMs s) with false by (symmetry; apply Z.eqb_neq; lia).
    cbn [negb].
    destruct (startLoop_frame (set_tickMs newTick s)) as (_ & _ & _ & F).
    destruct (startLoop_clock (set_tickMs newTick s)) as (K1 & K2).
    { revert T. unfold singleTimer. proj_simpl. auto. }
    proj_simpl. rewrite F, K1, K2. unfold newTick.
    split; [lia|]. split; reflexivity.
Qed.

(** ** The page: document and storage *)

Lemma updateScorePage_game (delta : Z) (p : Page) :
  game (updateScorePage delta p) = updateScore delta (game p).
Proof.
  unfold updateScorePage, updateScore, onGame. cbn [game].
  destruct (best _ <? score _); reflexivity.
Qed.

Lemma gameOverPage_game (p : Page) : game (gameOverPage p) = gameOver (game p).
Proof. reflexivity. Qed.

Lemma togglePausePage_game (p : Page) :
  game (togglePausePage p) = togglePause (game p).
Proof.
  unfold togglePausePage, togglePause, onGame. cbn [game].
  destruct (isGameOver (game p)); [reflexivity|].
  destruct (isPaused (set_isPaused (negb (isPaused (game p))) (game p)));
    reflexivity.
Qed.

Lemma resumePage_game (p : Page) : game (resumePage p) = resume (game p).
Proof.
  unfold resumePage, resume. destruct (_ || _); [reflexivity|].
  apply togglePausePage_game.
Qed.

Lemma setDifficultyFromKeyPage_game (key : string) (p : Page) :
  option_map game (setDifficultyFromKeyPage key p)
  = setDifficultyFromKey key (game p).
Proof.
  unfold setDifficultyFromKeyPage.
  destruct (setDifficultyFromKey key (game p)); reflexivity.
Qed.

Lemma resetGamePage_game (fuel : nat) (p : Page) :
  gameOf (resetGamePage fuel p) = resetGame fuel (game p).
Proof.
  unfold resetGamePage, resetGame, onGame. cbv zeta. cbn [game].
  destruct (getRandomEmptyCell fuel _ _) as [[pos h]|]; [|reflexivity].
  cbn [gameOf updatePanel hideOverlay game]. rewrite updateScorePage_game.
  reflexivity.
Qed.

Lemma tickPage_game (fuel : nat) (p : Page) :
  gameOf (tickPage fuel p) = tick fuel (game p).
Proof.
  unfold tickPage, tick. cbv zeta.
  destruct (isPaused (game p) || isGameOver (game p)); [reflexivity|].
  assert (E : game (if 1 <? Z.of_nat (List.length (directionQueue (game p)))
                    then onGame (fun g => set_directionQueue (tl (directionQueue g)) g) p
                    else p)
              = (if 1 <? Z.of_nat (List.length (directionQueue (game p)))
                 then set_directionQueue (tl (directionQueue (game p))) (game p)
                 else game p)).
  { destruct (1 <? _); reflexivity. }
  set (p1 := if 1 <? Z.of_nat (List.length (directionQueue (game p)))
             then onGame (fun g => set_directionQueue (tl (directionQueue g)) g) p
             else p) in *.
  rewrite <- E.
  destruct (nth_error (snake (game p1)) 0) as [head|]; [|reflexivity].
  destruct (nth_error (directionQueue (game p)) 0) as [dir|]; [|reflexivity].
  destruct (_ || _); [reflexivity|].
  destruct (hitsBody _ _); [reflexivity|].
  cbn [onGame game].
  destruct (positionsEqual _ _); [|reflexivity].
  rewrite updateScorePage_game. cbn [game].
  destruct (getRandomEmptyCell fuel _ _) as [[pos h]|]; [|reflexivity].
  cbn [gameOf onGame game]. rewrite updateScorePage_game. reflexivity.
Qed.

Lemma initPage_game (fuel : nat) (h : Host) (d : Dom) (st : Storage) :
  exists bestFromStorage savedDiff,
    gameOf (initPage fuel h d st) = init fuel h bestFromStorage savedDiff.
Proof.
  unfold initPage, init. cbv zeta.
  exists (match snake_best st with Some b => b | None => 0 end).
  exists (match snake_difficulty st with
          | Some k => if (k =? EmptyString)%string then "normal"%string else k
          | None => "normal"%string
          end).
  unfold setDifficultyFromKeyPage. cbn [game].
  destruct (setDifficultyFromKey _ _); [|reflexivity].
  rewrite resetGamePage_game. reflexivity.
Qed.

Lemma stepPage_game (fuel : nat) (e : Event) (p : Page) :
  gameOf (stepPage fuel e p) = step fuel e (game p).
Proof.
  destruct e as [key|[dir|]| | | | |onOverlay|newKey|handle];
    cbn [stepPage step].
  - destruct (_ || _); [cbn [gameOf]; rewrite togglePausePage_game; reflexivity|].
    destruct (keyToDir (toLowerCase key)); reflexivity.
  - destruct (String.eqb dir EmptyString); reflexivity.
  - reflexivity.
  - cbn [gameOf]. rewrite togglePausePage_game. reflexivity.
  - apply resetGamePage_game.
  - cbn [gameOf]. rewrite resumePage_game. reflexivity.
  - apply resetGamePage_game.
  - destruct (_ && _); [cbn [gameOf]; rewrite resumePage_game|]; reflexivity.
  - unfold setDifficultyFromKeyPage.
    destruct (setDifficultyFromKey newKey (game p)); [|reflexivity].
    rewrite resetGamePage_game. reflexivity.
  - destruct (registered handle (host (game p))); [apply tickPage_game | reflexivity].
Qed.

Lemma Shown_carry (p p' : Page) :
  Shown p -> dom p' = dom p -> storage p' = storage p ->
  isPaused (game p') = isPaused (game p) ->
  isGameOver (game p') = isGameOver (game p) ->
  score (game p') = score (game p) -> best (game p') = best (game p) ->
  difficultyKey (game p') = difficultyKey (game p) ->
  Shown p'.
Proof.
  intros [] D S P G Sc B K.
  constructor; unfold phase in *; rewrite ?D, ?S, ?P, ?G, ?Sc, ?B, ?K; assumption.
Qed.

(** What [updateScorePage] shows and stores, given that the best score was
    shown and stored before. *)
Lemma updateScorePage_ledger (delta : Z) (p : Page) :
  bestText (dom p) = best (game p) ->
  (snake_best (storage p) = Some (best (game p)) \/
   snake_best (storage p) = None /\ best (game p) = 0) ->
  let p' := updateScorePage delta p in
  scoreText (dom p') = score (game p') /\
  bestText (dom p') = best (game p') /\
  (snake_best (storage p') = Some (best (game p')) \/
   snake_best (storage p') = None /\ best (game p') = 0) /\
  overlayHidden (dom p') = overlayHidden (dom p) /\
  stateTitle (dom p') = stateTitle (dom p) /\
  snake_difficulty (storage p') = snake_difficulty (storage p).
Proof.
  intros B S. unfold updateScorePage, onGame. cbv zeta. cbn [game dom storage].
  destruct (best _ <? score _); cbn [game dom storage];
    cbn [scoreText bestText overlayHidden stateTitle snake_best snake_difficulty];
    proj_simpl; auto 10.
Qed.

Lemma onGame_queueDirection_shown (d : Cell) (p : Page) :
  Shown p -> Shown (onGame (queueDirection d) p).
Proof.
  intros H. apply (Shown_carry p); auto; cbn [onGame game];
    destruct (queueDirection_keeps d (game p)) as [-> | ->]; reflexivity.
Qed.

Lemma togglePausePage_shown (p : Page) : Shown p -> Shown (togglePausePage p).
Proof.
  intros H. pose proof (togglePausePage_game p) as E.
  destruct (togglePause_keeps (game p)) as (_ & _ & _ & Sc & B & _ & G & _ & K & _).
  destruct (togglePause_fields (game p)) as (_ & _ & _ & _ & _ & _ & P).
  rewrite <- E in Sc, B, G, K, P.
  unfold togglePausePage in *.
  destruct (isGameOver (game p)) eqn:Go; [exact H|].
  cbn [onGame game] in *. proj_simpl.
  destruct (isPaused (game p)) eqn:Pa; cbn [negb] in *.
  - constructor; unfold phase; rewrite ?G, ?P, ?Sc, ?B, ?K; cbn [onGame hideOverlay dom storage
      overlayHidden stateTitle scoreText bestText];
      try apply H; try (intros; apply (shown_paused p H); assumption); try discriminate.
    split; reflexivity.
  - constructor; unfold phase; rewrite ?G, ?P, ?Sc, ?B, ?K;
      cbn [onGame showOverlay updatePanel dom storage game
           overlayHidden stateTitle scoreText bestText];
      try apply H; try discriminate; try reflexivity.
    split; discriminate.
Qed.

Lemma resumePage_shown (p : Page) : Shown p -> Shown (resumePage p).
Proof.
  intros H. unfold resumePage. destruct (_ || _); [exact H|].
  apply togglePausePage_shown, H.
Qed.

Lemma gameOverPage_shown (p0 p : Page) :
  Shown p0 -> dom p = dom p0 -> storage p = storage p0 ->
  score (game p) = score (game p0) -> best (game p) = best (game p0) ->
  difficultyKey (game p) = difficultyKey (game p0) ->
  Shown (gameOverPage p).
Proof.
  intros H D S Sc B K.
  destruct (gameOver_fields (game p))
    as (A1 & _ & _ & _ & _ & A6 & A7 & _ & _ & _ & A11 & _).
  constructor; rewrite ?gameOverPage_game; unfold phase; rewrite ?A1, ?A6, ?A7, ?A11;
    cbn [gameOverPage showOverlay updatePanel onGame dom storage
         overlayHidden stateTitle scoreText bestText];
    rewrite ?D, ?S, ?Sc, ?B, ?K; try apply H; try discriminate; try reflexivity.
  split; discriminate.
Qed.

Lemma resetGamePage_form (fuel : nat) (p p' : Page) :
  resetGamePage fuel p = PageDone p' ->
  exists p7,
    dom p7 = dom p /\ storage p7 = storage p /\
    best (game p7) = best (game p) /\
    p' = updatePanel "Paused" "Press Space or Tap to resume"
                     (hideOverlay (onGame startLoop (updateScorePage 0 p7))).
Proof.
  unfold resetGamePage. cbv zeta.
  destruct (getRandomEmptyCell fuel _ _) as [[pos h]|]; [|discriminate].
  intros H. injection H as <-. eexists. split; [|split; [|split; [|reflexivity]]];
    reflexivity.
Qed.

Lemma resetGamePage_shown (fuel : nat) (p p' : Page) :
  bestText (dom p) = best (game p) ->
  (snake_best (storage p) = Some (best (game p)) \/
   snake_best (storage p) = None /\ best (game p) = 0) ->
  snake_difficulty (storage p) = Some (difficultyKey (game p)) ->
  resetGamePage fuel p = PageDone p' -> Shown p'.
Proof.
  intros B S K H.
  pose proof (resetGamePage_game fuel p) as E. rewrite H in E. cbn [gameOf] in E.
  symmetry in E.
  destruct (resetGame_done _ _ _ E) as (_ & _ & _ & _ & _ & _ & Pa & Go & _ & Kd & _).
  destruct (resetGamePage_form fuel p p' H) as (p7 & D7 & S7 & B7 & Ep).
  destruct (updateScorePage_ledger 0 p7) as (L1 & L2 & L3 & _ & _ & L6).
  { rewrite D7, B7. exact B. }
  { rewrite S7, B7. exact S. }
  set (u := updateScorePage 0 p7) in *. clearbody u.
  destruct (startLoop_frame (game u)) as (_ & F1 & F2 & _).
  assert (Eg : game p' = startLoop (game u)) by (rewrite Ep; reflexivity).
  assert (Ed : dom p' = mkDom true "Paused" "Press Space or Tap to resume"
                              (scoreText (dom u)) (bestText (dom u)))
    by (rewrite Ep; reflexivity).
  assert (Es : storage p' = storage u) by (rewrite Ep; reflexivity).
  constructor; unfold phase; rewrite ?Pa, ?Go, ?Ed, ?Es;
    cbn [overlayHidden stateTitle scoreText bestText];
    try discriminate; try reflexivity.
  - split; reflexivity.
  - rewrite Eg, F1. exact L1.
  - rewrite Eg, F2. exact L2.
  - rewrite Eg, F2. exact L3.
  - rewrite L6, S7, K, Kd. reflexivity.
Qed.

(** The page a returning [tickPage] gives, by what the tick did. *)
Lemma tickPage_form (fuel : nat) (p p' : Page) :
  isPaused (game p) = false -> isGameOver (game p) = false ->
  tickPage fuel p = PageDone p' ->
  (exists p1,
      dom p1 = dom p /\ storage p1 = storage p /\
      score (game p1) = score (game p) /\ best (game p1) = best (game p) /\
      difficultyKey (game p1) = difficultyKey (game p) /\
      p' = gameOverPage p1) \/
  (isPaused (game p') = false /\ isGameOver (game p') = false /\
   difficultyKey (game p') = difficultyKey (game p) /\
   (dom p' = dom p /\ storage p' = storage p /\
    score (game p') = score (game p) /\ best (game p') = best (game p) \/
    exists p2,
      dom p2 = dom p /\ storage p2 = storage p /\
      best (game p2) = best (game p) /\
      dom p' = dom (updateScorePage 1 p2) /\
      storage p' = storage (updateScorePage 1 p2) /\
      score (game p') = score (game (updateScorePage 1 p2)) /\
      best (game p') = best (game (updateScorePage 1 p2)))).
Proof.
  intros P G. unfold tickPage. rewrite P, G. cbn [orb]. cbv zeta.
  set (p1 := if 1 <? Z.of_nat (List.length (directionQueue (game p)))
             then onGame (fun g => set_directionQueue (tl (directionQueue g)) g) p
             else p).
  assert (F : dom p1 = dom p /\ storage p1 = storage p /\
              score (game p1) = score (game p) /\ best (game p1) = best (game p) /\
              difficultyKey (game p1) = difficultyKey (game p) /\
              isPaused (game p1) = isPaused (game p) /\
              isGameOver (game p1) = isGameOver (game p)).
  { unfold p1. destruct (1 <? _); repeat split. }
  clearbody p1. destruct F as (F1 & F2 & F3 & F4 & F5 & F6 & F7).
  destruct (nth_error (snake (game p1)) 0) as [head|]; [|discriminate].
  destruct (nth_error (directionQueue (game p)) 0) as [dir|]; [|discriminate].
  intros H.
  destruct (_ || _);
    [injection H as <-; left; exists p1; repeat (split; [assumption|]); reflexivity|].
  destruct (hitsBody _ _);
    [injection H as <-; left; exists p1; repeat (split; [assumption|]); reflexivity|].
  right.
  set (p2 := onGame (fun g => set_snake (_ :: snake g) g) p1) in *.
  assert (F' : dom p2 = dom p /\ storage p2 = storage p /\
               best (game p2) = best (game p) /\ score (game p2) = score (game p) /\
               difficultyKey (game p2) = difficultyKey (game p) /\
               isPaused (game p2) = isPaused (game p) /\
               isGameOver (game p2) = isGameOver (game p)).
  { unfold p2. cbn [onGame dom storage game]. proj_simpl. auto 10. }
  clearbody p2. destruct F' as (E1 & E2 & E3 & E4 & E5 & E6 & E7).
  destruct (positionsEqual _ _).
  - pose proof (updateScorePage_game 1 p2) as U.
    destruct (updateScore_frame 1 (game p2)) as (UB & _). board UB.
    remember (updateScorePage 1 p2) as u eqn:Eu. rewrite <- U in *.
    destruct (maybeSpeedUp_frame (game u)) as (MB & M1 & M2). board MB.
    cbn [onGame game] in H.
    destruct (getRandomEmptyCell fuel _ _) as [[pos h]|]; [|discriminate].
    injection H as <-. cbn [onGame dom storage game]. proj_simpl.
    split; [congruence|]. split; [congruence|]. split; [congruence|].
    right. exists p2. rewrite <- Eu. auto 10.
  - injection H as <-. cbn [onGame dom storage game]. proj_simpl.
    split; [congruence|]. split; [congruence|]. split; [congruence|].
    left. auto.
Qed.

Lemma tickPage_shown (fuel : nat) (p p' : Page) :
  Shown p -> tickPage fuel p = PageDone p' -> Shown p'.
Proof.
  intros HS H.
  destruct (isPaused (game p) || isGameOver (game p)) eqn:PG.
  { unfold tickPage in H. rewrite PG in H. injection H as <-. exact HS. }
  apply orb_false_iff in PG. destruct PG as [P G].
  destruct (tickPage_form fuel p p' P G H)
    as [(p1 & D1 & S1 & Sc1 & B1 & K1 & ->)
       | (P' & G' & K' & [(D & S & Sc & B) | (p2 & D2 & S2 & B2 & D & S & Sc & B)])].
  - apply (gameOverPage_shown p); assumption.
  - apply (Shown_carry p); congruence.
  - destruct (updateScorePage_ledger 1 p2) as (L1 & L2 & L3 & L4 & L5 & L6).
    { rewrite D2, B2. apply (shown_best p HS). }
    { rewrite S2, B2. apply (shown_stored_best p HS). }
    constructor; unfold phase; rewrite ?G', ?P', ?D, ?S, ?Sc, ?B, ?K';
      try discriminate; try assumption.
    + rewrite L4, D2. split; [reflexivity|]. intros _.
      apply (shown_overlay p HS). unfold phase. rewrite G, P. reflexivity.
    + intros _. rewrite L5, D2. apply (shown_paused p HS G).
    + rewrite L6, S2. apply (shown_stored_difficulty p HS).
Qed.

Lemma setDifficultyFromKeyPage_ledger (key : string) (p p' : Page) :
  setDifficultyFromKeyPage key p = Some p' ->
  dom p' = dom p /\ best (game p') = best (game p) /\
  snake_best (storage p') = snake_best (storage p) /\
  snake_difficulty (storage p') = Some (difficultyKey (game p')).
Proof.
  unfold setDifficultyFromKeyPage.
  destruct (setDifficultyFromKey key (game p)) as [g|] eqn:K; [|discriminate].
  intros H. injection H as <-. cbn [game dom storage].
  destruct (setDifficultyFromKey_frame key (game p) g K) as (_ & _ & _ & B).
  split; [reflexivity|]. split; [exact B|]. split; reflexivity.
Qed.

Lemma stepPage_shown (fuel : nat) (e : Event) (p p' : Page) :
  Shown p -> stepPage fuel e p = PageDone p' -> Shown p'.
Proof.
  intros HS H.
  assert (R : forall q, resetGamePage fuel p = PageDone q -> Shown q).
  { intros q. apply resetGamePage_shown; apply HS. }
  destruct e as [key|[dir|]| | | | |onOverlay|newKey|handle]; cbn [stepPage] in H.
  - destruct (_ || _) in H.
    + injection H as <-. apply togglePausePage_shown, HS.
    + destruct (keyToDir (toLowerCase key)) as [d|]; injection H as <-.
      * apply onGame_queueDirection_shown, HS.
      * exact HS.
  - destruct (String.eqb dir EmptyString); injection H as <-; [exact HS|].
    apply onGame_queueDirection_shown, HS.
  - injection H as <-. exact HS.
  - injection H as <-. apply togglePausePage_shown, HS.
  - apply R, H.
  - injection H as <-. apply resumePage_shown, HS.
  - apply R, H.
  - destruct (_ && _) in H; injection H as <-; [apply resumePage_shown|]; exact HS.
  - destruct (setDifficultyFromKeyPage newKey p) as [p1|] eqn:K;
      [|discriminate H].
    destruct (setDifficultyFromKeyPage_ledger newKey p p1 K) as (A & B & C & D).
    eapply resetGamePage_shown; [| | |exact H].
    + rewrite A, B. apply (shown_best p HS).
    + rewrite C, B. apply (shown_stored_best p HS).
    + exact D.
  - destruct (registered handle (host (game p))).
    + eapply tickPage_shown; eassumption.
    + injection H as <-. exact HS.
Qed.

Lemma initPage_shown (fuel : nat) (h : Host) (d : Dom) (st : Storage) (p : Page) :
  initPage fuel h d st = PageDone p -> Shown p.
Proof.
  unfold initPage. cbv zeta. intros H.
  match type of H with context [setDifficultyFromKeyPage ?k ?q] =>
    destruct (setDifficultyFromKeyPage k q) as [p1|] eqn:K; [|discriminate H];
    destruct (setDifficultyFromKeyPage_ledger k q p1 K) as (A & B & C & D) end.
  eapply resetGamePage_shown; [| | |exact H].
  - rewrite A, B. reflexivity.
  - rewrite C, B. cbn [storage game]. proj_simpl.
    destruct (snake_best st); [left | right]; auto.
  - exact D.
Qed.

Lemma reachablePage_shown (p : Page) : reachablePage p -> Shown p.
Proof.
  induction 1 as [fuel h d st p Hh H|fuel e p p' _ IH H].
  - eapply initPage_shown, H.
  - eapply stepPage_shown; eassumption.
Qed.

Lemma reachablePage_game (p : Page) : reachablePage p -> reachable (game p).
Proof.
  induction 1 as [fuel h d st p Hh H|fuel e p p' _ IH H].
  - destruct (initPage_game fuel h d st) as (b & k & E).
    rewrite H in E. cbn [gameOf] in E.
    eapply reach_init; [exact Hh | symmetry; exact E].
  - pose proof (stepPage_game fuel e p) as E.
    rewrite H in E. cbn [gameOf] in E.
    eapply reach_step; [exact IH | exact I | symmetry; exact E].
Qed.

Lemma tick_difficulty (fuel : nat) (s s' : State) :
  tick fuel s = Done s' ->
  difficultyKey s' = difficultyKey s /\ difficulty s' = difficulty s.
Proof.
  intros H.
  destruct (isPaused s || isGameOver s) eqn:PG.
  { unfold tick in H. rewrite PG in H. injection H as <-. tauto. }
  apply orb_false_iff in PG. destruct PG as [P G].
  destruct (tick_done_running fuel s s' P G H)
    as (head & body & dir & rest & Hs & Hq).
  rewrite (tick_running fuel s head dir body rest P G Hs Hq) in H.
  cbv zeta in H.
  destruct (_ || _) in H.
  - injection H as <-.
    destruct (gameOver_fields (set_directionQueue (shifted (directionQueue s)) s))
      as (_ & _ & _ & _ & _ & _ & _ & _ & _ & A10 & A11 & _).
    proj_simpl. tauto.
  - destruct (positionsEqual _ _).
    + match type of H with context [updateScore 1 ?u] =>
        destruct (updateScore_frame 1 u) as (U & _);
        destruct (maybeSpeedUp_frame (updateScore 1 u)) as (M & _) end.
      board U. board M.
      destruct (getRandomEmptyCell fuel _ _) as [[pos h]|]; [|discriminate].
      injection H as <-. proj_simpl. split; congruence.
    + injection H as <-. proj_simpl. tauto.
Qed.

Lemma step_difficulty (fuel : nat) (e : Event) (s s' : State) :
  lookupDifficulty DIFFICULTIES (difficultyKey s) = Own (difficulty s) ->
  step fuel e s = Done s' ->
  lookupDifficulty DIFFICULTIES (difficultyKey s') = Own (difficulty s').
Proof.
  intros L H.
  assert (Keep : forall t, difficultyKey t = difficultyKey s ->
                           difficulty t = difficulty s ->
                           lookupDifficulty DIFFICULTIES (difficultyKey t)
                           = Own (difficulty t)).
  { intros t -> ->. exact L. }
  assert (T : lookupDifficulty DIFFICULTIES (difficultyKey (togglePause s))
              = Own (difficulty (togglePause s))).
  { destruct (togglePause_keeps s) as (_ & _ & _ & _ & _ & _ & _ & A & B & _).
    apply Keep; assumption. }
  assert (R : lookupDifficulty DIFFICULTIES (difficultyKey (resume s))
              = Own (difficulty (resume s))).
  { destruct (resume_keeps s) as (_ & _ & _ & _ & _ & _ & _ & A & B & _).
    apply Keep; assumption. }
  assert (Q : forall d, lookupDifficulty DIFFICULTIES
                          (difficultyKey (queueDirection d s))
                        = Own (difficulty (queueDirection d s))).
  { intros d. destruct (queueDirection_keeps d s) as [-> | ->]; exact L. }
  assert (Z : forall u t, lookupDifficulty DIFFICULTIES (difficultyKey u)
                          = Own (difficulty u) ->
                          resetGame fuel u = Done t ->
                          lookupDifficulty DIFFICULTIES (difficultyKey t)
                          = Own (difficulty t)).
  { intros u t Lu Ht.
    destruct (resetGame_done _ _ _ Ht) as (_ & _ & _ & _ & _ & _ & _ & _ & A & B & _).
    rewrite A, B. exact Lu. }
  destruct e as [key|[dir|]| | | | |onOverlay|newKey|handle]; cbn [step] in H.
  - destruct (_ || _) in H; [injection H as <-; exact T|].
    destruct (keyToDir (toLowerCase key)); injection H as <-; [apply Q | exact L].
  - destruct (String.eqb dir EmptyString); injection H as <-; [exact L | apply Q].
  - injection H as <-. exact L.
  - injection H as <-. exact T.
  - apply (Z s s' L H).
  - injection H as <-. exact R.
  - apply (Z s s' L H).
  - destruct (_ && _) in H; injection H as <-; [exact R | exact L].
  - keyed H. eapply Z; [|exact H].
    destruct (setDifficultyFromKey_cases _ _ _ K) as (k & d & L' & -> & _).
    proj_simpl. exact L'.
  - destruct (registered handle (host s)).
    + destruct (tick_difficulty fuel s s' H) as (A & B). apply Keep; assumption.
    + injection H as <-. exact L.
Qed.

Lemma reachablePage_preset (p : Page) :
  reachablePage p ->
  lookupDifficulty DIFFICULTIES (difficultyKey (game p))
  = Own (difficulty (game p)).
Proof.
  induction 1 as [fuel h d st p Hh H|fuel e p p' _ IH H].
  - destruct (initPage_game fuel h d st) as (b & k & E).
    rewrite H in E. cbn [gameOf] in E. symmetry in E. unfold init in E.
    keyed E.
    destruct (resetGame_done _ _ _ E) as (_ & _ & _ & _ & _ & _ & _ & _ & A & B & _).
    rewrite A, B.
    destruct (setDifficultyFromKey_cases _ _ _ K) as (k' & d' & L' & -> & _).
    proj_simpl. exact L'.
  - pose proof (stepPage_game fuel e p) as E.
    rewrite H in E. cbn [gameOf] in E. symmetry in E.
    eapply step_difficulty; eassumption.
Qed.

(** X18.  On every reachable page the overlay is hidden exactly while the
    game is running; the panel title reads "Game Over" when the game is
    over and "Paused" otherwise, also while the game runs under the hidden
    overlay. *)
Theorem overlay_follows_phase (p : Page) :
  reachablePage p ->
  (overlayHidden (dom p) = true <-> phase (game p) = Running) /\
  (phase (game p) = GameOver -> stateTitle (dom p) = "Game Over"%string) /\
  (phase (game p) <> GameOver -> stateTitle (dom p) = "Paused"%string).
Proof.
  intros R. pose proof (reachablePage_shown p R) as HS.
  split; [apply (shown_overlay p HS)|]. unfold phase. split.
  - destruct (isGameOver (game p)) eqn:G; [intros _; apply (shown_over p HS G)|].
    destruct (isPaused (game p)); discriminate.
  - destruct (isGameOver (game p)) eqn:G; [congruence|].
    intros _. apply (shown_paused p HS G).
Qed.

(** X19.  On every reachable page the numbers shown in the score and best
    elements are the score and the best score of the game. *)
Theorem score_and_best_shown (p : Page) :
  reachablePage p ->
  scoreText (dom p) = score (game p) /\ bestText (dom p) = best (game p).
Proof.
  intros R. pose proof (reachablePage_shown p R) as HS.
  split; [apply (shown_score p HS) | apply (shown_best p HS)].
Qed.

(** X20.  On every reachable page the storage holds the key of the
    difficulty in force and, once a best score was written, the best score;
    an absent best score means the best score is 0.  Starting the script
    again on that storage restores the best score and the difficulty. *)
Theorem storage_restores_best_and_difficulty (p : Page) :
  reachablePage p ->
  snake_difficulty (storage p) = Some (difficultyKey (game p)) /\
  (snake_best (storage p) = Some (best (game p)) \/
   snake_best (storage p) = None /\ best (game p) = 0) /\
  (forall fuel h d p',
      initPage fuel h d (storage p) = PageDone p' ->
      best (game p') = best (game p) /\
      difficultyKey (game p') = difficultyKey (game p) /\
      difficulty (game p') = difficulty (game p)).
Proof.
  intros R. pose proof (reachablePage_shown p R) as HS.
  pose proof (reachablePage_preset p R) as L.
  pose proof (shown_stored_difficulty p HS) as K.
  pose proof (shown_stored_best p HS) as B.
  split; [exact K|]. split; [exact B|].
  intros fuel h d p' H.
  pose proof (reachable_inv _ (reachablePage_game p R)) as HI.
  pose proof (reachable_shape _ (reachablePage_game p R)) as HSh.
  pose proof (inv_score _ HI) as S0. pose proof (shape_best _ HSh) as S1.
  assert (E : gameOf (initPage fuel h d (storage p)) = Done (game p'))
    by (rewrite H; reflexivity).
  unfold initPage in E. cbv zeta in E. rewrite K in E.
  assert (NE : (difficultyKey (game p) =? EmptyString)%string = false).
  { destruct (String.eqb_spec (difficultyKey (game p)) EmptyString) as [X|X];
      [|reflexivity]. rewrite X in L. discriminate L. }
  rewrite NE in E. unfold setDifficultyFromKeyPage in E. cbn [game] in E.
  rewrite (setDifficultyFromKey_own _ _ _ L) in E.
  rewrite resetGamePage_game in E. cbn [game] in E.
  destruct (resetGame_done _ _ _ E) as (_ & _ & _ & _ & Bp & _ & _ & _ & Dp & Kp & _).
  rewrite Bp, Dp, Kp. proj_simpl.
  split; [|split; reflexivity].
  destruct B as [-> | (-> & Z0)]; lia.
Qed.

(** * The further properties on the sample runs *)

Lemma sped_reachable : reachable sped.
Proof.
  apply (reach_step _ 1 (IntervalFires 1) ripe);
    [exact ripe_reachable | exact I | vm_compute; reflexivity].
Qed.

Lemma crashed_reachable : reachable crashed.
Proof.
  apply (reach_step _ 1 (IntervalFires 1) atWall);
    [exact atWall_reachable | exact I | vm_compute; reflexivity].
Qed.

Lemma reachablePage_run (fuel : nat) (es : list Event) :
  forall p p', reachablePage p -> runPage fuel es p = PageDone p' ->
               reachablePage p'.
Proof.
  induction es as [|e es IH]; intros p p' R H; cbn [runPage] in H.
  - injection H as <-. exact R.
  - destruct (stepPage fuel e p) as [q| | |] eqn:E; try discriminate.
    eapply IH; [|exact H]. eapply page_step; eassumption.
Qed.

Lemma startedPage_reachable : reachablePage startedPage.
Proof.
  apply (page_init 1 freshHost blankDom (mkStorage None (Some "hard"%string)));
    vm_compute; reflexivity.
Qed.

Lemma spedPage_reachable : reachablePage spedPage.
Proof.
  apply (reachablePage_run 1 (IntervalFires 1 :: chase ++ [IntervalFires 1])
                           startedPage);
    [exact startedPage_reachable | vm_compute; reflexivity].
Qed.

Lemma crashedPage_reachable : reachablePage crashedPage.
Proof.
  apply (reachablePage_run 1 [IntervalFires 2] spedPage);
    [exact spedPage_reachable | vm_compute; reflexivity].
Qed.

(** X1 on [coiled]. *)
Lemma snake_cells_distinct_witness :
  reachable coiled /\ NoDup (snake coiled).
Proof.
  split; [exact coiled_reachable | exact (snake_cells_distinct coiled coiled_reachable)].
Defined.

(** X2 on [sped], six cells long with its head at the right wall. *)
Lemma snake_inside_grid_witness :
  reachable sped /\ List.length (snake sped) = 6%nat /\
  (3 <= List.length (snake sped))%nat /\ Forall inBounds (snake sped).
Proof.
  split; [exact sped_reachable|]. split; [vm_compute; reflexivity|].
  exact (snake_inside_grid sped sped_reachable).
Defined.

(** X3 on [coiled], which has turned three times. *)
Lemma snake_is_a_path_witness :
  reachable coiled /\ chained (snake coiled).
Proof.
  split; [exact coiled_reachable | exact (snake_is_a_path coiled coiled_reachable)].
Defined.

(** X4 on [sped]: three foods eaten, six cells. *)
Lemma score_counts_growth_witness :
  reachable sped /\ score sped = 3 /\
  score sped = Z.of_nat (List.length (snake sped)) - 3 /\
  0 <= score sped <= best sped.
Proof.
  split; [exact sped_reachable|]. split; [vm_compute; reflexivity|].
  exact (score_counts_growth sped sped_reachable).
Defined.

(** X5 on [coiled]: the head is at [(11,9)], the neck at [(12,9)] and the
    next head is [(11,10)]. *)
Lemma never_turns_onto_neck_witness :
  reachable coiled /\ isGameOver coiled = false /\
  snake coiled = mkCell 11 9 :: mkCell 12 9 :: [mkCell 12 10; mkCell 11 10] /\
  computeNextHead coiled = Some (mkCell 11 10) /\
  mkCell 11 10 <> mkCell 12 9.
Proof.
  assert (G : isGameOver coiled = false) by (vm_compute; reflexivity).
  assert (S : snake coiled
              = mkCell 11 9 :: mkCell 12 9 :: [mkCell 12 10; mkCell 11 10])
    by (vm_compute; reflexivity).
  assert (N : computeNextHead coiled = Some (mkCell 11 10))
    by (vm_compute; reflexivity).
  split; [exact coiled_reachable|]. split; [exact G|]. split; [exact S|].
  split; [exact N|].
  exact (never_turns_onto_neck coiled _ _ _ _ coiled_reachable G S N).
Defined.

(** X6 on the tick from [ripe] to [sped]. *)
Lemma score_steps_witness :
  step 1 (IntervalFires 1) ripe = Done sped /\
  best ripe <= best sped /\ score ripe <= score sped <= score ripe + 1.
Proof.
  assert (H : step 1 (IntervalFires 1) ripe = Done sped)
    by (vm_compute; reflexivity).
  split; [exact H|].
  destruct (score_steps 1 (IntervalFires 1) ripe sped H) as (A & B & _).
  split; [exact A | exact (B eq_refl)].
Defined.

(** X7 on [paused] and [fed]. *)
Lemma one_clock_when_running_witness :
  reachable fed /\ phase fed = Running /\
  (exists id, loopId fed = Some id /\ intervals (host fed) = [(id, tickMs fed)]) /\
  reachable paused /\ phase paused <> Running /\
  loopId paused = None /\ intervals (host paused) = [].
Proof.
  assert (A : phase fed = Running) by (vm_compute; reflexivity).
  assert (B : phase paused <> Running) by (vm_compute; discriminate).
  destruct (one_clock_when_running fed fed_reachable) as (F & _).
  destruct (one_clock_when_running paused paused_reachable) as (_ & P & _).
  split; [exact fed_reachable|]. split; [exact A|]. split; [exact (F A)|].
  split; [exact paused_reachable|]. split; [exact B | exact (P B)].
Defined.

(** X8 on [paused]. *)
Lemma no_tick_unless_running_witness :
  isPaused paused || isGameOver paused = true /\ tick 1 paused = Done paused /\
  reachable paused /\ phase paused <> Running /\
  step 1 (IntervalFires 1) paused = Done paused.
Proof.
  assert (A : isPaused paused || isGameOver paused = true)
    by (vm_compute; reflexivity).
  assert (B : phase paused <> Running) by (vm_compute; discriminate).
  destruct (no_tick_unless_running 1 paused) as (T & F).
  split; [exact A|]. split; [exact (T A)|]. split; [exact paused_reachable|].
  split; [exact B|]. exact (proj2 (F paused_reachable B 1%positive)).
Defined.

(** X9 on [crashed]: a key pressed after the game has ended. *)
Lemma game_over_is_final_witness :
  reachable crashed /\ isGameOver crashed = true /\
  keepsGame (Keydown "w") = true /\
  exists s', step 1 (Keydown "w") crashed = Done s' /\ isGameOver s' = true /\
             snake s' = snake crashed /\ score s' = score crashed.
Proof.
  assert (G : isGameOver crashed = true) by (vm_compute; reflexivity).
  split; [exact crashed_reachable|]. split; [exact G|]. split; [reflexivity|].
  destruct (game_over_is_final 1 (Keydown "w") crashed crashed_reachable G eq_refl)
    as (s' & H & A & _ & _ & B & _ & C & _).
  exists s'. repeat (split; [assumption|]). exact C.
Defined.

(** X10 on [fed]. *)
Lemma pause_then_resume_witness :
  reachable fed /\ phase fed = Running /\
  phase (togglePause fed) = Paused /\
  phase (togglePause (togglePause fed)) = Running /\
  snake (togglePause (togglePause fed)) = snake fed /\
  intervals (host (togglePause (togglePause fed))) = [(2%positive, 120)].
Proof.
  assert (A : phase fed = Running) by (vm_compute; reflexivity).
  split; [exact fed_reachable|]. split; [exact A|].
  destruct (pause_then_resume fed fed_reachable A)
    as (B & _ & C & D & _ & _ & _ & _ & _ & _ & _ & _ & E).
  split; [exact B|]. split; [exact C|]. split; [exact D|].
  rewrite E. vm_compute. reflexivity.
Defined.

(** X11 on [fed] with the up key. *)
Lemma direction_input_only_queues_witness :
  directionInput (Keydown "w") = true /\
  (step 1 (Keydown "w") fed = Done fed \/
   exists d, stepVector d /\
             step 1 (Keydown "w") fed
             = Done (set_directionQueue (directionQueue fed ++ [d]) fed)).
Proof.
  split; [reflexivity|].
  exact (direction_input_only_queues 1 (Keydown "w") fed eq_refl).
Defined.

(** X12 on [fed]: up is queued behind right; the next tick still moves
    right, to [(12,10)], and the one after is set to move up, to [(12,9)]. *)
Lemma queued_turn_lags_one_tick_witness :
  isPaused fed = false /\ isGameOver fed = false /\
  snake fed = mkCell 11 10 :: [mkCell 10 10; mkCell 9 10; mkCell 8 10] /\
  directionQueue fed = [mkCell 1 0] /\
  ~ opposite (mkCell 1 0) (mkCell 0 (-1)) /\
  exists s', tick 1 (queueDirection (mkCell 0 (-1)) fed) = Done s' /\
             isGameOver s' = false /\
             hd_error (snake s') = Some (mkCell 12 10) /\
             directionQueue s' = [mkCell 0 (-1)] /\
             computeNextHead s' = Some (mkCell 12 9).
Proof.
  assert (P : isPaused fed = false) by (vm_compute; reflexivity).
  assert (G : isGameOver fed = false) by (vm_compute; reflexivity).
  assert (S : snake fed = mkCell 11 10 :: [mkCell 10 10; mkCell 9 10; mkCell 8 10])
    by (vm_compute; reflexivity).
  assert (Q : directionQueue fed = [mkCell 1 0]) by (vm_compute; reflexivity).
  assert (O : ~ opposite (mkCell 1 0) (mkCell 0 (-1)))
    by (unfold opposite; cbn; lia).
  repeat (split; [assumption|]).
  exists (stateOf (tick 1 (queueDirection (mkCell 0 (-1)) fed))).
  assert (H : tick 1 (queueDirection (mkCell 0 (-1)) fed)
              = Done (stateOf (tick 1 (queueDirection (mkCell 0 (-1)) fed))))
    by (vm_compute; reflexivity).
  assert (G' : isGameOver (stateOf (tick 1 (queueDirection (mkCell 0 (-1)) fed)))
               = false) by (vm_compute; reflexivity).
  split; [exact H|]. split; [exact G'|].
  exact (queued_turn_lags_one_tick 1 fed _ _ _ _ _ P G S Q O H G').
Defined.

(** X13 on 0.35 and the grid size: the exact product lies below 7 and
    its binary64 rounding is 7. *)
Lemma randomInt_bounds_witness :
  Number.isRandom (Number.literal 7 20) = true /\ 0 < GRID_SIZE < 2 ^ 52 /\
  randomInt (Number.literal 7 20) 0 GRID_SIZE = Number.ofInt 7 /\
  exists k, 0 <= k < GRID_SIZE /\
            randomInt (Number.literal 7 20) 0 GRID_SIZE = Number.ofInt k /\
            Number.toInt (randomInt (Number.literal 7 20) 0 GRID_SIZE) = k.
Proof.
  assert (A : Number.isRandom (Number.literal 7 20) = true)
    by (vm_compute; reflexivity).
  assert (B : 0 < GRID_SIZE < 2 ^ 52) by (unfold GRID_SIZE; split; reflexivity).
  split; [exact A|]. split; [exact B|]. split; [vm_compute; reflexivity|].
  exact (randomInt_bounds (Number.literal 7 20) GRID_SIZE A B).
Defined.

(** X14 on the sample tape with the snake of [fed] excluded: the first
    pass draws the head cell [(11,10)], the second [(3,5)]. *)
Lemma getRandomEmptyCell_first_free_witness :
  (1 < 2)%nat /\
  excluded (snake fed) (passCell freshHost 0) = true /\
  excluded (snake fed) (passCell freshHost 1) = false /\
  getRandomEmptyCell 2 (snake fed) freshHost
  = Some (mkCell 3 5, advanceRandom 4 freshHost) /\
  getRandomEmptyCell 7 (snake fed) freshHost
  = Some (mkCell 3 5, advanceRandom 4 freshHost).
Proof.
  assert (A : excluded (snake fed) (passCell freshHost 0) = true)
    by (vm_compute; reflexivity).
  assert (B : excluded (snake fed) (passCell freshHost 1) = false)
    by (vm_compute; reflexivity).
  destruct (getRandomEmptyCell_first_free (snake fed)) as (Spec & Mono).
  assert (R : getRandomEmptyCell 2 (snake fed) freshHost
              = Some (mkCell 3 5, advanceRandom 4 freshHost)).
  { apply Spec. exists 1%nat. split; [lia|].
    split; [intros j Hj; replace j with 0%nat by lia; exact A|].
    split; [exact B|]. split; vm_compute; reflexivity. }
  split; [lia|]. split; [exact A|]. split; [exact B|]. split; [exact R|].
  apply (Mono 2%nat 7%nat); [lia | exact R].
Defined.

(** X15 on a key that reads [undefined], on a key of the table and on an
    inherited name. *)
Lemma setDifficultyFromKey_known_or_normal_witness :
  lookupDifficulty DIFFICULTIES "brutal" = Undefined /\
  setDifficultyFromKey "brutal" started
  = Some (set_difficulty NORMAL (set_difficultyKey "normal" started)) /\
  (exists d, lookupDifficulty DIFFICULTIES "insane" = Own d /\
             setDifficultyFromKey "insane" started
             = Some (set_difficulty d (set_difficultyKey "insane" started))) /\
  In "constructor"%string OBJECT_PROTOTYPE /\
  setDifficultyFromKey "constructor" started = None.
Proof.
  assert (A : lookupDifficulty DIFFICULTIES "brutal" = Undefined)
    by (vm_compute; reflexivity).
  assert (C : In "constructor"%string OBJECT_PROTOTYPE) by (left; reflexivity).
  destruct (setDifficultyFromKey_known_or_normal "brutal" started) as (_ & N & _).
  destruct (setDifficultyFromKey_known_or_normal "insane" started) as (K & _).
  destruct (setDifficultyFromKey_known_or_normal "constructor" started)
    as (_ & _ & I & _).
  split; [exact A|]. split; [exact (N A)|].
  split; [eexists; split; [|apply K]; vm_compute; reflexivity|].
  split; [exact C|]. apply I, C.
Defined.

(** X16 on [threeEaten]: hard preset, 120 ms, score 3. *)
Lemma speed_up_strict_until_floor_witness :
  In (difficulty threeEaten) presets /\
  minTickMs (difficulty threeEaten) <= tickMs threeEaten
  <= initialSpeedMs (difficulty threeEaten) /\
  singleTimer threeEaten /\ 0 < score threeEaten /\
  Z.rem (score threeEaten) (speedupFoodInterval (difficulty threeEaten)) = 0 /\
  minTickMs (difficulty threeEaten) < tickMs threeEaten /\
  tickMs (maybeSpeedUp threeEaten) = 108 /\
  minTickMs (difficulty threeEaten) <= tickMs (maybeSpeedUp threeEaten)
  < tickMs threeEaten.
Proof.
  assert (A : In (difficulty threeEaten) presets)
    by (apply (lookupDifficulty_presets "hard"); vm_compute; reflexivity).
  assert (B : minTickMs (difficulty threeEaten) <= tickMs threeEaten
              <= initialSpeedMs (difficulty threeEaten))
    by (vm_compute; split; discriminate).
  assert (C : singleTimer threeEaten) by (vm_compute; exists 120; reflexivity).
  assert (D : 0 < score threeEaten) by (vm_compute; reflexivity).
  assert (E : Z.rem (score threeEaten)
                    (speedupFoodInterval (difficulty threeEaten)) = 0)
    by (vm_compute; reflexivity).
  assert (F : minTickMs (difficulty threeEaten) < tickMs threeEaten)
    by (vm_compute; reflexivity).
  repeat (split; [assumption|]).
  split; [vm_compute; reflexivity|].
  destruct (speed_up_strict_until_floor threeEaten A B C D E) as (_ & S).
  exact (proj1 (S F)).
Defined.

(** X18 on [crashedPage] and [spedPage]. *)
Lemma overlay_follows_phase_witness :
  reachablePage crashedPage /\ phase (game crashedPage) = GameOver /\
  overlayHidden (dom crashedPage) = false /\
  stateTitle (dom crashedPage) = "Game Over"%string /\
  reachablePage spedPage /\ phase (game spedPage) = Running /\
  overlayHidden (dom spedPage) = true /\
  stateTitle (dom spedPage) = "Paused"%string.
Proof.
  assert (A : phase (game crashedPage) = GameOver) by (vm_compute; reflexivity).
  assert (B : phase (game spedPage) = Running) by (vm_compute; reflexivity).
  destruct (overlay_follows_phase crashedPage crashedPage_reachable) as (_ & T & _).
  destruct (overlay_follows_phase spedPage spedPage_reachable) as (O & _ & T').
  split; [exact crashedPage_reachable|]. split; [exact A|].
  split; [vm_compute; reflexivity|]. split; [exact (T A)|].
  split; [exact spedPage_reachable|]. split; [exact B|].
  split; [apply O, B|]. apply T'. rewrite B. discriminate.
Defined.

(** X19 on [spedPage]. *)
Lemma score_and_best_shown_witness :
  reachablePage spedPage /\ score (game spedPage) = 3 /\
  scoreText (dom spedPage) = score (game spedPage) /\
  bestText (dom spedPage) = best (game spedPage).
Proof.
  split; [exact spedPage_reachable|]. split; [vm_compute; reflexivity|].
  exact (score_and_best_shown spedPage spedPage_reachable).
Defined.

(** X20 on [spedPage]: best score 3 on the hard preset. *)
Lemma storage_restores_best_and_difficulty_witness :
  reachablePage spedPage /\
  storage spedPage = mkStorage (Some 3) (Some "hard"%string) /\
  snake_difficulty (storage spedPage) = Some (difficultyKey (game spedPage)) /\
  forall p', initPage 1 freshHost blankDom (storage spedPage) = PageDone p' ->
             best (game p') = best (game spedPage) /\
             difficultyKey (game p') = difficultyKey (game spedPage) /\
             difficulty (game p') = difficulty (game spedPage).
Proof.
  split; [exact spedPage_reachable|]. split; [vm_compute; reflexivity|].
  destruct (storage_restores_best_and_difficulty spedPage spedPage_reachable)
    as (A & _ & B).
  split; [exact A|]. intros p'. apply B.
Defined.
